(** * Comment moderation cascade: normaliser, override rules, PII detector
      and redactor

    A shallow embedding of [src/text_normalize.py], [src/overrides.py],
    [src/pii.py] and the scoring function and results table of
    [app_streamlit.py], followed by the properties stated about them.

    Conventions.
    - A Python [str] is a list of Unicode code points ([N]).
    - A Python [float] is a primitive binary64 float.
    - Tier and PII-kind names are the string literals of the source.
    - Span offsets are Python integers ([Z]); slices follow Python's rules
      for negative and out-of-range indices.
    - The Unicode character database behind [re] ([\w], [\d]) is a
      parameter outside ASCII; inside ASCII it is written out. *)

From Stdlib Require Import String Ascii DecimalString.
From Stdlib Require Import ZArith NArith List Bool Lia Floats.
From Stdlib Require Import Permutation Sorted.
Import ListNotations.

Set Warnings "-inexact-float".
Local Open Scope bool_scope.
Local Open Scope N_scope.

(* ================================================================== *)
(** * Python strings *)
(* ================================================================== *)

Definition char : Type := N.
Definition str : Type := list char.

(** Code points of an ASCII literal. *)
Fixpoint codes (s : string) : str :=
  match s with
  | EmptyString => []
  | String a rest => N_of_ascii a :: codes rest
  end.

Definition in_range (lo hi c : char) : bool := (lo <=? c) && (c <=? hi).

(** [str.isspace] for one code point; also the [\s] class of [re] on [str]
    patterns and the separators of [str.split()] and [str.strip()]. *)
Definition is_space (c : char) : bool :=
  in_range 9 13 c || in_range 28 32 c || (c =? 133) || (c =? 160)
  || (c =? 5760) || in_range 8192 8202 c || (c =? 8232) || (c =? 8233)
  || (c =? 8239) || (c =? 8287) || (c =? 12288).

Definition is_ascii_digit (c : char) : bool := in_range 48 57 c.
Definition is_ascii_lower (c : char) : bool := in_range 97 122 c.
Definition is_ascii_upper (c : char) : bool := in_range 65 90 c.
Definition is_ascii_alnum (c : char) : bool :=
  is_ascii_digit c || is_ascii_lower c || is_ascii_upper c.

(** The part of the Unicode character database the program reaches through
    [re] and [int()], outside ASCII. *)
Class Unicode : Type := {
  (** [str.isalnum] of a code point above 127 *)
  uni_isalnum : char -> bool;
  (** value of a decimal digit (category Nd) above 127, [None] otherwise *)
  uni_decimal : char -> option N
}.

(** The database cut down to ASCII; it agrees with the full one on every
    text made of ASCII characters only. *)
Definition ascii_only : Unicode :=
  {| uni_isalnum := fun _ => false; uni_decimal := fun _ => None |}.

Section CharClasses.
Context {U : Unicode}.

(** [int(c)] for a single character. *)
Definition digit_value (c : char) : option N :=
  if c <? 128 then (if is_ascii_digit c then Some (c - 48) else None)
  else uni_decimal c.

(** [\d] *)
Definition is_digit (c : char) : bool :=
  match digit_value c with Some _ => true | None => false end.

(** [\w] *)
Definition is_word (c : char) : bool :=
  if c <? 128 then is_ascii_alnum c || (c =? 95) else uni_isalnum c.
End CharClasses.

(** Python slice [s[lo:hi]]: a negative bound counts from the end, and
    bounds are clamped to the string. *)
Definition clamp_index (len i : Z) : Z :=
  if (i <? 0)%Z then Z.max (i + len) 0 else Z.min i len.

Definition slice {A} (s : list A) (lo hi : Z) : list A :=
  let len := Z.of_nat (length s) in
  let a := clamp_index len lo in
  let b := clamp_index len hi in
  firstn (Z.to_nat (b - a)) (skipn (Z.to_nat a) s).

(** [s[lo:]] *)
Definition slice_from {A} (s : list A) (lo : Z) : list A :=
  skipn (Z.to_nat (clamp_index (Z.of_nat (length s)) lo)) s.

(** [s[:hi]] *)
Definition slice_to {A} (s : list A) (hi : Z) : list A :=
  firstn (Z.to_nat (clamp_index (Z.of_nat (length s)) hi)) s.

(** [s.strip()] is empty exactly when every character is whitespace. *)
Definition is_blank (s : str) : bool := forallb is_space s.

(** [s.split()]: maximal runs of non-whitespace characters. [word] holds
    the characters of the run being read, last one first. *)
Fixpoint split_ws_aux (word : str) (s : str) : list str :=
  match s with
  | [] => match word with [] => [] | _ => [rev word] end
  | c :: rest =>
      if is_space c
      then match word with
           | [] => split_ws_aux [] rest
           | _ => rev word :: split_ws_aux [] rest
           end
      else split_ws_aux (c :: word) rest
  end.

Definition split_ws (s : str) : list str := split_ws_aux [] s.

(** [sep.join(parts)] *)
Fixpoint join (sep : str) (parts : list str) : str :=
  match parts with
  | [] => []
  | [p] => p
  | p :: rest => p ++ sep ++ join sep rest
  end.

(* ================================================================== *)
(** * The fragment of [re] the program uses *)
(* ================================================================== *)

(** ** Character classes *)

Inductive cclass : Type :=
| CAny                          (** [.] under [re.S] *)
| CLit (c : char)               (** a literal character *)
| CRange (lo hi : char)         (** [lo-hi] inside a set *)
| CSpace                        (** [\s] *)
| CDigit                        (** [\d] *)
| CNot (c : cclass)             (** complement: [\S], [\D], [[^...]] *)
| COr (a b : cclass)            (** union of set members *)
| CFold (c : cclass).           (** the class under [re.IGNORECASE] *)

Definition ascii_lower (c : char) : char :=
  if is_ascii_upper c then c + 32 else c.
Definition ascii_upper (c : char) : char :=
  if is_ascii_lower c then c - 32 else c.

(** Characters that [re.IGNORECASE] identifies with [c], for patterns whose
    letters are ASCII: the other case of an ASCII letter, and the four
    non-ASCII letters that fold onto [i], [s] and [k] (U+0130, U+0131,
    U+017F, U+212A). *)
Definition case_closure (c : char) : list char :=
  c :: ascii_lower c :: ascii_upper c ::
  (if (c =? 304) || (c =? 305) then [105; 73]
   else if c =? 383 then [115; 83]
   else if c =? 8490 then [107; 75]
   else []).

Section Regex.
Context {U : Unicode}.

Fixpoint class_matches (cl : cclass) (c : char) : bool :=
  match cl with
  | CAny => true
  | CLit x => c =? x
  | CRange lo hi => in_range lo hi c
  | CSpace => is_space c
  | CDigit => is_digit c
  | CNot a => negb (class_matches a c)
  | COr a b => class_matches a c || class_matches b c
  | CFold a => existsb (class_matches a) (case_closure c)
  end.
End Regex.

(** [.] without [re.S]: anything but a newline. *)
Definition CDot : cclass := CNot (CLit 10).

Fixpoint any_of (l : list cclass) : cclass :=
  match l with
  | [] => CNot CAny
  | [a] => a
  | a :: rest => COr a (any_of rest)
  end.

(** A set of literal characters, [[abc]]. *)
Definition chars_of (s : string) : cclass := any_of (map CLit (codes s)).

(** ** Patterns *)

Inductive regex : Type :=
| Eps
| Chr (c : cclass)
| Cat (a b : regex)
| Alt (a b : regex)                       (** [a|b], [a] tried first *)
| Star (greedy : bool) (a : regex)        (** [a*] and [a*?] *)
| Upto (greedy : bool) (n : nat) (a : regex)   (** [a{0,n}] and [a{0,n}?] *)
| Times (n : nat) (a : regex)             (** [a{n}] *)
| WordB.                                  (** [\b] *)

Fixpoint cat (l : list regex) : regex :=
  match l with
  | [] => Eps
  | [a] => a
  | a :: rest => Cat a (cat rest)
  end.

(** The alternatives of a group, in source order. *)
Fixpoint alt (l : list regex) : regex :=
  match l with
  | [] => Chr (CNot CAny)
  | [a] => a
  | a :: rest => Alt a (alt rest)
  end.

(** A literal word, matched exactly ([cs]) or under IGNORECASE ([ci]). *)
Definition cs (s : string) : regex := cat (map (fun c => Chr (CLit c)) (codes s)).
Definition ci (s : string) : regex :=
  cat (map (fun c => Chr (CFold (CLit c))) (codes s)).

Definition ws : regex := Chr CSpace.                 (** [\s] *)
Definition opt (a : regex) : regex := Upto true 1 a. (** [a?] *)
(** [a{lo,hi}]; [greedy = false] is [a{lo,hi}?] *)
Definition repeat_between (greedy : bool) (lo hi : nat) (a : regex) : regex :=
  Cat (Times lo a) (Upto greedy (hi - lo) a).
(** [a{lo,}] *)
Definition at_least (greedy : bool) (lo : nat) (a : regex) : regex :=
  Cat (Times lo a) (Star greedy a).

(** ** Backtracking matcher

    The matcher walks the text with a cursor that remembers the character
    just before it (for [\b]) and its offset.  Alternatives are tried in
    the order [re] tries them, so the end of the first successful path is
    the end of the match [re] reports. *)

Record cursor : Type := mkCursor {
  cur_prev : option char;
  cur_rest : str;
  cur_pos : nat
}.

Definition start_cursor (text : str) : cursor := mkCursor None text 0.

Definition advance (cur : cursor) : option (char * cursor) :=
  match cur_rest cur with
  | [] => None
  | c :: rest => Some (c, mkCursor (Some c) rest (S (cur_pos cur)))
  end.

Definition kont : Type := cursor -> option cursor.

Definition orelse {A} (a b : option A) : option A :=
  match a with Some x => Some x | None => b end.

Fixpoint times (m : kont -> kont) (n : nat) (k : kont) : kont :=
  match n with
  | O => k
  | S n' => m (times m n' k)
  end.

Fixpoint upto (m : kont -> kont) (greedy : bool) (n : nat) (k : kont) : kont :=
  match n with
  | O => k
  | S n' => fun cur =>
      if greedy then orelse (m (upto m greedy n' k) cur) (k cur)
      else orelse (k cur) (m (upto m greedy n' k) cur)
  end.

(** An iteration of a starred body has to consume input; [fuel] bounds the
    number of iterations by the length of the remaining text. *)
Fixpoint star (m : kont -> kont) (greedy : bool) (fuel : nat) (k : kont) : kont :=
  match fuel with
  | O => k
  | S fuel' => fun cur =>
      let again :=
        m (fun cur' =>
             if (length (cur_rest cur') <? length (cur_rest cur))%nat
             then star m greedy fuel' k cur' else None) cur in
      if greedy then orelse again (k cur) else orelse (k cur) again
  end.

Section Matcher.
Context {U : Unicode}.

Definition word_before (cur : cursor) : bool :=
  match cur_prev cur with Some c => is_word c | None => false end.
Definition word_after (cur : cursor) : bool :=
  match cur_rest cur with c :: _ => is_word c | [] => false end.

Fixpoint rmatch (r : regex) (k : kont) {struct r} : kont :=
  match r with
  | Eps => k
  | Chr cl => fun cur =>
      match advance cur with
      | Some (c, cur') => if class_matches cl c then k cur' else None
      | None => None
      end
  | Cat a b => rmatch a (rmatch b k)
  | Alt a b => fun cur => orelse (rmatch a k cur) (rmatch b k cur)
  | Star greedy a => fun cur =>
      star (rmatch a) greedy (S (length (cur_rest cur))) k cur
  | Upto greedy n a => upto (rmatch a) greedy n k
  | Times n a => times (rmatch a) n k
  | WordB => fun cur =>
      if xorb (word_before cur) (word_after cur) then k cur else None
  end.

(** A match starting exactly at the cursor; the result is the cursor at
    its end. *)
Definition match_here (r : regex) (cur : cursor) : option cursor :=
  rmatch r Some cur.

(** Leftmost match at or after the cursor: start cursor and end cursor. *)
Fixpoint scan (r : regex) (prev : option char) (rest : str) (pos : nat)
  : option (cursor * cursor) :=
  let cur := mkCursor prev rest pos in
  match match_here r cur with
  | Some e => Some (cur, e)
  | None =>
      match rest with
      | [] => None
      | c :: rest' => scan r (Some c) rest' (S pos)
      end
  end.

(** [bool(pattern.search(text))] *)
Definition re_search (r : regex) (text : str) : bool :=
  match scan r None text 0 with Some _ => true | None => false end.

(** One match of [finditer]: [m.span()] and [m.group(0)]. *)
Record rmatch_result : Type := mkMatch {
  m_span : Z * Z;
  m_group : str
}.

(** [pattern.finditer(text)]: successive non-overlapping matches, left to
    right.  After an empty match the scan resumes one character later
    (none of the program's patterns can match the empty string). *)
Fixpoint finditer_from (fuel : nat) (r : regex) (cur : cursor)
  : list rmatch_result :=
  match fuel with
  | O => []
  | S fuel' =>
      match scan r (cur_prev cur) (cur_rest cur) (cur_pos cur) with
      | None => []
      | Some (s, e) =>
          let len := (cur_pos e - cur_pos s)%nat in
          let found :=
            mkMatch (Z.of_nat (cur_pos s), Z.of_nat (cur_pos e))
                    (firstn len (cur_rest s)) in
          let next :=
            if (cur_pos s <? cur_pos e)%nat then Some e
            else option_map snd (advance e) in
          match next with
          | Some cur' => found :: finditer_from fuel' r cur'
          | None => [found]
          end
      end
  end.

Definition finditer (r : regex) (text : str) : list rmatch_result :=
  finditer_from (S (length text)) r (start_cursor text).

(** [re.sub(r"\D", "", s)] *)
Definition digits_only (s : str) : str := filter is_digit s.
End Matcher.

(* ================================================================== *)
(** * [src/overrides.py] *)
(* ================================================================== *)

(** ** Blocklist categories.  Every pattern below is compiled with
    [re.IGNORECASE] in the source unless noted. *)

(** 1. Severe threats or wishes of harm. *)
Definition THREAT_PATTERNS : list regex :=
  [ (* \b(i wish|hope)\s(you|he|she|they)\s(die|dies|died)\b *)
    cat [WordB; alt [ci "i wish"; ci "hope"]; ws;
         alt [ci "you"; ci "he"; ci "she"; ci "they"]; ws;
         alt [ci "die"; ci "dies"; ci "died"]; WordB];
    (* \b(kill\syour\s?self|k\s?y\s?s)\b *)
    cat [WordB;
         alt [cat [ci "kill"; ws; ci "your"; opt ws; ci "self"];
              cat [ci "k"; opt ws; ci "y"; opt ws; ci "s"]];
         WordB] ].

(** 2. Vulgar or obscene sexual references. *)
Definition OBSCENE_PATTERNS : list regex :=
  [ (* \b(his|my|your)\s(third|3rd)\s(leg)\b *)
    cat [WordB; alt [ci "his"; ci "my"; ci "your"]; ws;
         alt [ci "third"; ci "3rd"]; ws; ci "leg"; WordB] ].

(** 3. Insults, humiliation and social attacks. *)
Definition INSULT_PATTERNS : list regex :=
  [ (* \b(i wish|hope)\s(you|he|she|they)\b.*?\b(humiliating|fail|suffer)\b *)
    cat [WordB; alt [ci "i wish"; ci "hope"]; ws;
         alt [ci "you"; ci "he"; ci "she"; ci "they"]; WordB;
         Star false (Chr CDot); WordB;
         alt [ci "humiliating"; ci "fail"; ci "suffer"]; WordB];
    (* \b(idiot|moron|stupid|dumb|loser|pathetic|bitch|fuck)\b *)
    cat [WordB;
         alt [ci "idiot"; ci "moron"; ci "stupid"; ci "dumb"; ci "loser";
              ci "pathetic"; ci "bitch"; ci "fuck"];
         WordB] ].

(** 4. Veiled insults and passive aggression. *)
Definition PASSIVE_AGGRESSIVE_PATTERNS : list regex :=
  [ (* (?:bless\syour\s(little\s)?heart) *)
    cat [ci "bless"; ws; ci "your"; ws; opt (cat [ci "little"; ws]); ci "heart"];
    (* (?:i'm\ssure\syou\sthink) *)
    cat [ci "i'm"; ws; ci "sure"; ws; ci "you"; ws; ci "think"];
    (* (?:must\sbe\snice\sto\sbe) *)
    cat [ci "must"; ws; ci "be"; ws; ci "nice"; ws; ci "to"; ws; ci "be"] ].

(** 5. Dog whistles and coded hate speech. *)
Definition DOG_WHISTLE_PATTERNS : list regex :=
  [ (* \b(13/52|13/90)\b, compiled without flags *)
    cat [WordB; alt [cs "13/52"; cs "13/90"]; WordB];
    (* \b(globalist\sagenda)\b *)
    cat [WordB; ci "globalist"; ws; ci "agenda"; WordB] ].

(** 6. Glorification of violence. *)
Definition GLORIFICATION_PATTERNS : list regex :=
  [ (* \b(got\swhat\s(he|she|they)\sdeserved)\b *)
    cat [WordB; ci "got"; ws; ci "what"; ws;
         alt [ci "he"; ci "she"; ci "they"]; ws; ci "deserved"; WordB];
    (* \b(is\sa\shero\sfor\swhat\s(he|she)\sdid)\b *)
    cat [WordB; ci "is"; ws; ci "a"; ws; ci "hero"; ws; ci "for"; ws;
         ci "what"; ws; alt [ci "he"; ci "she"]; ws; ci "did"; WordB] ].

(** 7. Subtle self-harm encouragement. *)
Definition SUBTLE_THREAT_PATTERNS : list regex :=
  [ (* \b(world\swould\sbe\sbetter\swithout\syou)\b *)
    cat [WordB; ci "world"; ws; ci "would"; ws; ci "be"; ws; ci "better"; ws;
         ci "without"; ws; ci "you"; WordB];
    (* \b(nobody\swould\seven\snotice\sif\syou\swere\sgone)\b *)
    cat [WordB; ci "nobody"; ws; ci "would"; ws; ci "even"; ws; ci "notice"; ws;
         ci "if"; ws; ci "you"; ws; ci "were"; ws; ci "gone"; WordB] ].

(** 8. Identity-based insults without slurs. *)
Definition IDENTITY_ATTACK_PATTERNS : list regex :=
  [ (* \b(of\scourse\sa\s(woman|man)\swould)\b *)
    cat [WordB; ci "of"; ws; ci "course"; ws; ci "a"; ws;
         alt [ci "woman"; ci "man"]; ws; ci "would"; WordB];
    (* \b(typical\s(french|american|german|etc)\sbehavior)\b *)
    cat [WordB; ci "typical"; ws;
         alt [ci "french"; ci "american"; ci "german"; ci "etc"]; ws;
         ci "behavior"; WordB] ].

(** 9. Spam and malicious links. *)
Definition SPAM_PATTERNS : list regex :=
  [ (* \b(free\sfollowers|buy\sfollwers|crypto\sgains)\b *)
    cat [WordB;
         alt [cat [ci "free"; ws; ci "followers"];
              cat [ci "buy"; ws; ci "follwers"];
              cat [ci "crypto"; ws; ci "gains"]];
         WordB];
    (* (bit\.ly/|tinyurl\.com/) *)
    alt [ci "bit.ly/"; ci "tinyurl.com/"] ].

Definition BLOCKLIST_PATTERNS : list regex :=
  THREAT_PATTERNS ++ OBSCENE_PATTERNS ++ INSULT_PATTERNS ++
  PASSIVE_AGGRESSIVE_PATTERNS ++ DOG_WHISTLE_PATTERNS ++
  GLORIFICATION_PATTERNS ++ SUBTLE_THREAT_PATTERNS ++
  IDENTITY_ATTACK_PATTERNS ++ SPAM_PATTERNS.

(** ** Safelist categories *)

(* (killed|dead|destroyed|attacked|shot|poison|cancer|disease) *)
Definition NEGATIVE_VERBS : regex :=
  alt [ci "killed"; ci "dead"; ci "destroyed"; ci "attacked"; ci "shot";
       ci "poison"; ci "cancer"; ci "disease"].

(* (plant|battery|phone|car|game|server|computer|process|task|job|engine|ui|feature|logic) *)
Definition HARMLESS_OBJECTS : regex :=
  alt [ci "plant"; ci "battery"; ci "phone"; ci "car"; ci "game"; ci "server";
       ci "computer"; ci "process"; ci "task"; ci "job"; ci "engine"; ci "ui";
       ci "feature"; ci "logic"].

(** Meta-discussion about words. *)
Definition META_PATTERNS : list regex :=
  [ (* \b(words\slike|the\sword|saying)\s(bitch|fuck|idiot|stupid)\b *)
    cat [WordB;
         alt [cat [ci "words"; ws; ci "like"]; cat [ci "the"; ws; ci "word"];
              ci "saying"];
         ws; alt [ci "bitch"; ci "fuck"; ci "idiot"; ci "stupid"]; WordB] ].

Definition GENERAL_SAFELIST_PATTERNS : list regex :=
  [ (* \b(my\s)? NEGATIVE_VERBS (\smy)?\s HARMLESS_OBJECTS \b *)
    cat [WordB; opt (cat [ci "my"; ws]); NEGATIVE_VERBS;
         opt (cat [ws; ci "my"]); ws; HARMLESS_OBJECTS; WordB];
    (* \b(the\s)? HARMLESS_OBJECTS (\sis|\swas)?\s(dead|died)\b *)
    cat [WordB; opt (cat [ci "the"; ws]); HARMLESS_OBJECTS;
         opt (alt [cat [ws; ci "is"]; cat [ws; ci "was"]]); ws;
         alt [ci "dead"; ci "died"]; WordB];
    (* \b(kill the|killing the)\s(process|job|server|task)\b *)
    cat [WordB; alt [ci "kill the"; ci "killing the"]; ws;
         alt [ci "process"; ci "job"; ci "server"; ci "task"]; WordB];
    (* \b(this|your)\s HARMLESS_OBJECTS \s(is|is\san)\s(absolute\s)?(cancer|poison|disease)\b *)
    cat [WordB; alt [ci "this"; ci "your"]; ws; HARMLESS_OBJECTS; ws;
         alt [ci "is"; cat [ci "is"; ws; ci "an"]]; ws;
         opt (cat [ci "absolute"; ws]);
         alt [ci "cancer"; ci "poison"; ci "disease"]; WordB] ].

Definition SAFELIST_PATTERNS : list regex :=
  META_PATTERNS ++ GENERAL_SAFELIST_PATTERNS.

(** Tier names, as the string literals of the source. *)
Definition tier : Type := string.

Section Overrides.
Context {U : Unicode}.

(** [for pattern in patterns: if pattern.search(text): return ...]:
    whether the loop reaches its [return]. *)
Fixpoint any_match (patterns : list regex) (text : str) : bool :=
  match patterns with
  | [] => false
  | pattern :: rest =>
      if re_search pattern text then true else any_match rest text
  end.

(** Some pattern of the list is found in the text. *)
Definition matches_some (patterns : list regex) (text : str) : Prop :=
  Exists (fun pattern => re_search pattern text = true) patterns.

Definition apply_overrides (text : str) (original_prob : float)
           (original_tier : tier) : float * tier :=
  (* 1. meta-discussion safelist *)
  if any_match META_PATTERNS text then (0.01%float, "OVERRIDE_SAFE"%string)
  (* 2. blocklist *)
  else if any_match BLOCKLIST_PATTERNS text
  then (0.99%float, "OVERRIDE_TOXIC"%string)
  (* 3. general safelist, for MEDIUM and HIGH only *)
  else if existsb (String.eqb original_tier) ["MEDIUM"%string; "HIGH"%string]
          && any_match GENERAL_SAFELIST_PATTERNS text
  then (0.01%float, "OVERRIDE_SAFE"%string)
  (* 4. nothing triggered *)
  else (original_prob, original_tier).
End Overrides.

(* ================================================================== *)
(** * Python values reaching the entry points *)
(* ================================================================== *)

(** The entry points test [isinstance(x, str)]; the other values are the
    ones a caller can pass in place of a comment. *)
Inductive pyval : Type :=
| PyStr (s : str)
| PyInt (z : Z)
| PyBool (b : bool)
| PyNone.

Definition isinstance_str (v : pyval) : bool :=
  match v with PyStr _ => true | _ => false end.

(** [str(v)] *)
Definition py_str (v : pyval) : str :=
  match v with
  | PyStr s => s
  | PyInt z => codes (DecimalString.NilEmpty.string_of_int (Z.to_int z))
  | PyBool true => codes "True"
  | PyBool false => codes "False"
  | PyNone => codes "None"
  end.

(* ================================================================== *)
(** * [src/text_normalize.py] *)
(* ================================================================== *)

(** [str.translate(table)]: a code point mapped to [None] is deleted, one
    mapped to a character is replaced, any other is kept. *)
Fixpoint table_get (table : list (char * option char)) (c : char)
  : option (option char) :=
  match table with
  | [] => None
  | (k, v) :: rest => if c =? k then Some v else table_get rest c
  end.

Definition translate (table : list (char * option char)) (s : str) : str :=
  flat_map (fun c => match table_get table c with
                     | Some None => []
                     | Some (Some r) => [r]
                     | None => [c]
                     end) s.

(** [dict.fromkeys([0x200B, 0x200C, 0x200D, 0xFEFF], None)] *)
Definition ZERO_WIDTH : list (char * option char) :=
  map (fun c => (c, None)) [8203; 8204; 8205; 65279].

(** [0->o 1->i 3->e 4->a 5->s 7->t $->s @->a !->i] *)
Definition LEET_MAP : list (char * option char) :=
  map (fun p => (N_of_ascii (fst p), Some (N_of_ascii (snd p))))
      [("0", "o"); ("1", "i"); ("3", "e"); ("4", "a"); ("5", "s");
       ("7", "t"); ("$", "s"); ("@", "a"); ("!", "i")]%char.

(** [re.sub(r"(.)\1{2,}", r"\1\1", s)]: every maximal run of three or more
    copies of one character other than a newline keeps its first two
    copies.  [count] is the number of copies of [prev] read so far. *)
Fixpoint collapse_runs (prev : option char) (count : nat) (s : str) : str :=
  match s with
  | [] => []
  | c :: rest =>
      match prev with
      | Some p =>
          if c =? p
          then if (2 <=? count)%nat && negb (c =? 10)
               then collapse_runs prev (S count) rest
               else c :: collapse_runs prev (S count) rest
          else c :: collapse_runs (Some c) 1 rest
      | None => c :: collapse_runs (Some c) 1 rest
      end
  end.

Definition collapse_repeats (s : str) : str := collapse_runs None 0 s.

(** The set [[a-z0-9\s:,_\-\.\!\?@#\$%]] of step 8. *)
Definition allowed_char (c : char) : bool :=
  is_ascii_lower c || is_ascii_digit c || is_space c
  || existsb (N.eqb c) (codes ":,_-.!?@#$%").

(** [re.sub(r"[^a-z0-9\s:,_\-\.\!\?@#\$%]", " ", s)] *)
Definition blank_disallowed (s : str) : str :=
  map (fun c => if allowed_char c then c else 32) s.

(** The external text libraries. *)
Class TextLibs : Type := {
  (** [ftfy.fix_text] *)
  fix_text : str -> str;
  (** [unicodedata.normalize("NFKC", _)] *)
  nfkc : str -> str;
  (** [str.lower] *)
  lower : str -> str;
  (** [emoji.replace_emoji(_, replace=lambda ch, _: f" {emoji.demojize(ch)} ")] *)
  replace_emoji : str -> str
}.

Section TextNormalize.
Context {L : TextLibs}.

Definition normalize_text (s : pyval) : str :=
  (* if not isinstance(s, str): s = str(s) *)
  let s := match s with PyStr x => x | other => py_str other end in
  let s := fix_text s in                    (* 1 *)
  let s := nfkc s in                        (* 2 *)
  let s := translate ZERO_WIDTH s in        (* 3 *)
  let s := lower s in                       (* 4 *)
  let s := collapse_repeats s in            (* 5 *)
  let s := replace_emoji s in               (* 6 *)
  let s := translate LEET_MAP s in          (* 7 *)
  let s := blank_disallowed s in            (* 8 *)
  join (codes " ") (split_ws s).            (* 9 *)
End TextNormalize.

(** The libraries on plain ASCII words: [ftfy], NFKC and the emoji pass
    leave such text alone, and [lower] maps [A-Z] to [a-z]. *)
Definition plain_ascii_libs : TextLibs :=
  {| fix_text := fun s => s;
     nfkc := fun s => s;
     lower := map ascii_lower;
     replace_emoji := fun s => s |}.

(* ================================================================== *)
(** * [src/pii.py] *)
(* ================================================================== *)

Definition ALNUM_SET : cclass :=
  any_of [CRange 97 122; CRange 65 90; CRange 48 57].

(* \b[a-zA-Z0-9._%+\-]+@[a-zA-Z0-9.\-]+\.[A-Za-z]{2,}\b *)
Definition EMAIL_RE : regex :=
  cat [WordB; at_least true 1 (Chr (COr ALNUM_SET (chars_of "._%+-")));
       cs "@"; at_least true 1 (Chr (COr ALNUM_SET (chars_of ".-")));
       cs "."; at_least true 2 (Chr (COr (CRange 65 90) (CRange 97 122)));
       WordB].

(* \b(?:\d[ -]*?){13,19}\b *)
Definition CARD_RE : regex :=
  cat [WordB;
       repeat_between true 13 19
         (Cat (Chr CDigit) (Star false (Chr (chars_of " -"))));
       WordB].

(* (?i)\b(?:https?://|www\.)\S+ *)
Definition URL_RE : regex :=
  cat [WordB;
       alt [cat [ci "http"; opt (ci "s"); ci "://"]; ci "www."];
       at_least true 1 (Chr (CNot CSpace))].

(* ```.*?```|`[^`]*?`   with re.S *)
Definition CODE_RE : regex :=
  alt [cat [cs "```"; Star false (Chr CAny); cs "```"];
       cat [cs "`"; Star false (Chr (CNot (CLit 96))); cs "`"]].

(* (?i)\b(order|ticket|issue|id|ref)\b.{0,10}[:#]?\s*[A-Z0-9\-]{3,} *)
Definition ID_HINT : regex :=
  cat [WordB; alt [ci "order"; ci "ticket"; ci "issue"; ci "id"; ci "ref"];
       WordB; Upto true 10 (Chr CDot); opt (Chr (CFold (chars_of ":#")));
       Star true ws;
       at_least true 3
         (Chr (CFold (any_of [CRange 65 90; CRange 48 57; CLit 45])))].

(* \+?[0-9()\-.\s]{7,}   (the inline pattern of the phone pass) *)
Definition PHONE_CANDIDATE_RE : regex :=
  cat [opt (cs "+");
       at_least true 7 (Chr (any_of [CRange 48 57; chars_of "()-."; CSpace]))].

Definition span : Type := (Z * Z)%type.

(** Half-open interval intersection. *)
Fixpoint _overlaps (sp : span) (spans_to_check : list span) : bool :=
  let '(start, end_) := sp in
  match spans_to_check with
  | [] => false
  | (check_start, check_end) :: rest =>
      if negb ((end_ <=? check_start)%Z || (start >=? check_end)%Z)
      then true
      else _overlaps sp rest
  end.

(** The body of the checksum loop of [_luhn_ok], over the digits from the
    right. *)
Fixpoint luhn_loop (digits : list Z) (checksum : Z) (is_alt : bool) : Z :=
  match digits with
  | [] => checksum
  | d :: rest =>
      let d := if is_alt
               then (let d2 := d * 2 in if d2 >? 9 then d2 - 9 else d2)%Z
               else d in
      luhn_loop rest (checksum + d)%Z (negb is_alt)
  end.

(** A PII hit: [(KIND, (start, end), value)]. *)
Record hit : Type := mkHit {
  hit_kind : string;
  hit_span : span;
  hit_value : str
}.

Section Pii.
Context {U : Unicode}.
(** The optional [phonenumbers] module: [None] when the import failed.
    The function stands for [parse], [is_valid_number] and
    [format_number(_, E164)] together, [None] when parsing raises or the
    number is not valid. *)
Context (phonenumbers : option (str -> option str)).

(** [int(c)] on the characters that [\D] left in place. *)
Definition int_of_digit (c : char) : Z :=
  match digit_value c with Some d => Z.of_N d | None => 0%Z end.

Definition _luhn_ok (card_number : str) : bool :=
  let digits := map int_of_digit (digits_only card_number) in
  if negb ((13 <=? length digits)%nat && (length digits <=? 19)%nat)
  then false
  else (luhn_loop (rev digits) 0 false mod 10 =? 0)%Z.

Definition guarded_spans_of (text : str) : list span :=
  map m_span (finditer URL_RE text) ++
  map m_span (finditer CODE_RE text) ++
  map m_span (finditer ID_HINT text).

Definition email_hits (text : str) (guarded_spans : list span) : list hit :=
  flat_map (fun m =>
              if negb (_overlaps (m_span m) guarded_spans)
              then [mkHit "EMAIL" (m_span m) (m_group m)]
              else [])
           (finditer EMAIL_RE text).

Definition phone_hits (text : str) (guarded_spans : list span) : list hit :=
  match phonenumbers with
  | None => []
  | Some parse_valid_e164 =>
      flat_map (fun m =>
                  if _overlaps (m_span m) guarded_spans then []
                  else match parse_valid_e164 (m_group m) with
                       | Some e164_format => [mkHit "PHONE" (m_span m) e164_format]
                       | None => []
                       end)
               (finditer PHONE_CANDIDATE_RE text)
  end.

Definition card_hits (text : str) (guarded_spans : list span) : list hit :=
  flat_map (fun m =>
              if _overlaps (m_span m) guarded_spans then []
              else let digits := digits_only (m_group m) in
                   if _luhn_ok digits then [mkHit "CARD" (m_span m) digits]
                   else [])
           (finditer CARD_RE text).

Definition detect_pii (text : pyval) : list hit :=
  match text with
  | PyStr text =>
      let guarded_spans := guarded_spans_of text in
      email_hits text guarded_spans ++
      phone_hits text guarded_spans ++
      card_hits text guarded_spans
  | _ => []
  end.

(** ** Redaction *)

(** [s.partition(sep)] for a one-character separator: text before the
    first [sep], whether it was found, text after it. *)
Fixpoint partition_at (sep : char) (s : str) : str * bool * str :=
  match s with
  | [] => ([], false, [])
  | c :: rest =>
      if c =? sep then ([], true, rest)
      else let '(before, found, after) := partition_at sep rest in
           (c :: before, found, after)
  end.

(** What the loop body appends for the hit itself: one mask for the
    three known kinds, nothing for any other kind. *)
Definition mask_parts (h : hit) : list str :=
  let value := hit_value h in
  if String.eqb (hit_kind h) "EMAIL" then
    let '(local_part, _, domain) := partition_at 64 value in
    [slice_to local_part 2 ++ codes "***@" ++ domain]
  else if String.eqb (hit_kind h) "PHONE" then
    let digits := digits_only value in
    [if (4 <? length digits)%nat
     then codes "+" ++ repeat 42 (length digits - 4) ++ slice_from digits (-2)
     else codes "+******"]
  else if String.eqb (hit_kind h) "CARD" then
    [codes "**** **** **** " ++ slice_from value (-4)]
  else [].

(** [sorted(hits, key=lambda x: x[1][0])]: ascending start offset, hits
    with equal starts in their input order. *)
Fixpoint insert_by_start (h : hit) (sorted : list hit) : list hit :=
  match sorted with
  | [] => [h]
  | x :: rest =>
      if (fst (hit_span h) <=? fst (hit_span x))%Z then h :: x :: rest
      else x :: insert_by_start h rest
  end.

Fixpoint sorted_by_start (hits : list hit) : list hit :=
  match hits with
  | [] => []
  | h :: rest => insert_by_start h (sorted_by_start rest)
  end.

(** The loop of [redact] and the final append: the list [parts]. *)
Fixpoint redact_parts (text : str) (last_index : Z) (hits : list hit)
  : list str :=
  match hits with
  | [] => [slice_from text last_index]
  | h :: rest =>
      let '(start, end_) := hit_span h in
      slice text last_index start :: mask_parts h ++
      redact_parts text end_ rest
  end.

Definition redact (text : str) (hits : list hit) : str :=
  match hits with
  | [] => text
  | _ => concat (redact_parts text 0 (sorted_by_start hits))
  end.
End Pii.

(* ================================================================== *)
(** * [app_streamlit.py]: the scoring cascade *)
(* ================================================================== *)

(** [outputs/policy.json] *)
Record policy : Type := mkPolicy {
  high : float;
  medium : float;
  low : float
}.

(** The secondary stage, present when [load_artifacts] found the BERT
    directory and the calibrator file. *)
Record bert_stage : Type := mkBert {
  (** tokenizer, model and [softmax(logits)[0, 1]] *)
  bert_model : str -> float;
  (** [iso.predict([p])[0]] *)
  bert_calibrator : float -> float
}.

(** What [load_artifacts] returns; [has_bert] is whether the secondary
    stage was loaded. *)
Record artifacts : Type := mkArtifacts {
  (** [cal_lr.predict_proba(vec.transform([t]))[0, 1]] *)
  calibrated_lr : str -> float;
  POLICY : policy;
  bert : option bert_stage
}.

Definition has_bert (a : artifacts) : bool :=
  match bert a with Some _ => true | None => false end.

(** Calls made to the classifiers, in order. *)
Inductive oracle_call : Type :=
| BaselineCall (text_norm : str)
| SecondaryCall (text_norm : str)
| CalibratorCall (prob_raw : float).

(** The dictionary [score_comment_cascade] returns. *)
Record score : Type := mkScore {
  prob_final : float;
  score_tier : tier;
  pii_hits : list (string * str);
  redacted : pyval;
  escalated_to_bert : bool
}.

Definition LR_GRAY_LOW : float := 0.10%float.
Definition LR_GRAY_HIGH : float := 0.60%float.

Section App.
Context {U : Unicode} {L : TextLibs}.
Context (phonenumbers : option (str -> option str)).
Context (ARTIFACTS : artifacts).

(** Lines 67-87: the baseline score and the gated escalation.  Returns
    the local [prob_final] as it stands before tiering, the flag
    [escalated], and the classifier calls made. *)
Definition cascade_probability (text_norm : str)
  : float * bool * list oracle_call :=
  let prob_lr := calibrated_lr ARTIFACTS text_norm in
  match bert ARTIFACTS with
  | Some stage =>
      if (LR_GRAY_LOW <=? prob_lr)%float && (prob_lr <? LR_GRAY_HIGH)%float
      then
        let prob_raw := bert_model stage text_norm in
        (bert_calibrator stage prob_raw, true,
         [BaselineCall text_norm; SecondaryCall text_norm;
          CalibratorCall prob_raw])
      else (prob_lr, false, [BaselineCall text_norm])
  | None => (prob_lr, false, [BaselineCall text_norm])
  end.

(** The secondary stage is loaded and the baseline probability lies in
    the gray zone [0.10 <= p < 0.60]. *)
Definition gate_open (p_base : float) : Prop :=
  has_bert ARTIFACTS = true /\
  (LR_GRAY_LOW <=? p_base)%float = true /\
  (p_base <? LR_GRAY_HIGH)%float = true.

(** Lines 89-91. *)
Definition initial_tier (p : float) : tier :=
  if (high (POLICY ARTIFACTS) <=? p)%float then "HIGH"%string
  else if (medium (POLICY ARTIFACTS) <=? p)%float then "MEDIUM"%string
  else if (low (POLICY ARTIFACTS) <=? p)%float then "LOW"%string
  else "VERY_LOW"%string.

Definition default_score (text : pyval) : score :=
  mkScore 0.0%float "VERY_LOW"%string [] text false.

Definition score_comment_cascade (text : pyval) : score * list oracle_call :=
  match text with
  | PyStr raw =>
      if is_blank raw then (default_score text, [])
      else
        let text_norm := normalize_text text in
        let '(p, escalated, calls) := cascade_probability text_norm in
        let '(p', final_tier) := apply_overrides raw p (initial_tier p) in
        let hits := detect_pii phonenumbers text in
        let redacted_text := redact raw hits in
        (mkScore p' final_tier
                 (map (fun h => (hit_kind h, hit_value h)) hits)
                 (PyStr redacted_text) escalated,
         calls)
  | _ => (default_score text, [])
  end.
End App.

(* ================================================================== *)
(** * Vocabulary for the properties *)
(* ================================================================== *)

(** ** Normalised text *)

(** A character that [LEET_MAP] rewrites. *)
Definition is_leet_source (c : char) : bool :=
  match table_get LEET_MAP c with Some _ => true | None => false end.

(** The characters of the words of a normalised text: what step 8 keeps,
    minus whitespace and minus what step 7 rewrites, that is
    [a-z 2 6 8 9 : , _ - . ? # %]. *)
Definition word_char (c : char) : bool :=
  allowed_char c && negb (is_space c) && negb (is_leet_source c).

(** Word characters and the plain space. *)
Definition plain_char (c : char) : bool := word_char c || (c =? 32).

(** Three equal characters in a row somewhere in the text. *)
Fixpoint has_triple (s : str) : bool :=
  match s with
  | a :: (b :: c :: _) as rest => ((a =? b) && (b =? c)) || has_triple rest
  | _ => false
  end.

(** The external libraries leave alone a text made of plain characters:
    lower-case ASCII letters, digits, the listed punctuation and spaces
    hold no mojibake, no compatibility characters, no capitals and no
    emoji. *)
Record plain_stable (L : TextLibs) : Prop := {
  fix_text_plain : forall y, forallb plain_char y = true -> fix_text y = y;
  nfkc_plain : forall y, forallb plain_char y = true -> nfkc y = y;
  lower_plain : forall y, forallb plain_char y = true -> lower y = y;
  replace_emoji_plain :
    forall y, forallb plain_char y = true -> replace_emoji y = y
}.

(** A list of words as [str.split()] returns them: none empty, none
    holding whitespace. *)
Definition words_ok (l : list str) : Prop :=
  Forall (fun w => w <> [] /\ forallb (fun c => negb (is_space c)) w = true) l.

(** ** Spans and redaction *)

Definition hit_start (h : hit) : Z := fst (hit_span h).
Definition hit_end (h : hit) : Z := snd (hit_span h).

(** The span lies inside the text: [0 <= start <= end <= len(text)]. *)
Definition in_bounds (text : str) (h : hit) : bool :=
  (0 <=? hit_start h)%Z && (hit_start h <=? hit_end h)%Z
  && (hit_end h <=? Z.of_nat (length text))%Z.

(** The span holds at least one character. *)
Definition nonempty_span (h : hit) : bool := (hit_start h <? hit_end h)%Z.

(** No two hits of the list overlap, by the overlap rule of [_overlaps]. *)
Fixpoint non_overlapping (hits : list hit) : bool :=
  match hits with
  | [] => true
  | h :: rest =>
      negb (_overlaps (hit_span h) (map hit_span rest)) && non_overlapping rest
  end.

(** Two hits that do not overlap. *)
Definition disjoint_hits (a b : hit) : Prop :=
  (hit_end a <= hit_start b)%Z \/ (hit_start a >= hit_end b)%Z.

(** Offset [i] lies inside the span of some hit. *)
Definition covered (hits : list hit) (i : Z) : bool :=
  existsb (fun h => (hit_start h <=? i)%Z && (i <? hit_end h)%Z) hits.

(** The characters of [s], which starts at offset [i] of the text, that
    lie outside every span, in order. *)
Fixpoint keep_outside (hits : list hit) (i : Z) (s : str) : str :=
  match s with
  | [] => []
  | c :: rest =>
      if covered hits i then keep_outside hits (i + 1) rest
      else c :: keep_outside hits (i + 1) rest
  end.

Definition outside (text : str) (hits : list hit) : str :=
  keep_outside hits 0 text.

(** [a] can be obtained from [b] by deleting characters. *)
Inductive subseq {A : Type} : list A -> list A -> Prop :=
| subseq_nil : subseq [] []
| subseq_skip (x : A) (a b : list A) : subseq a b -> subseq a (x :: b)
| subseq_keep (x : A) (a b : list A) : subseq a b -> subseq (x :: a) (x :: b).

(** [g0 ++ f1 ++ g1 ++ ... ++ fn ++ gn] *)
Fixpoint weave (gaps fills : list str) : str :=
  match gaps with
  | [] => []
  | g :: gaps' =>
      match fills with
      | [] => g
      | f :: fills' => g ++ f ++ weave gaps' fills'
      end
  end.

(** The unmatched slices the loop of [redact] copies: from the end of the
    previous hit (or [last_index]) to the start of the next, and the rest
    of the text after the last hit. *)
Fixpoint gaps_between (text : str) (last_index : Z) (hits : list hit)
  : list str :=
  match hits with
  | [] => [slice_from text last_index]
  | h :: rest =>
      slice text last_index (hit_start h) :: gaps_between text (hit_end h) rest
  end.

Section RedactVocabulary.
Context {U : Unicode}.

(** The mask written for a hit (empty for an unknown kind). *)
Definition mask_of (h : hit) : str := concat (mask_parts h).
End RedactVocabulary.

(** The text a hit covers. *)
Definition span_text (text : str) (h : hit) : str :=
  slice text (hit_start h) (hit_end h).

(** The deduplication that section 4.5 of the spec asks for, written
    from its words to be compared with [redact]: hits are ordered by
    start offset, then by kind name ([hit_precedes]), and a hit is kept
    only when it overlaps no hit kept before it
    ([drop_later_overlaps]). *)
Definition hit_precedes (a b : hit) : bool :=
  (hit_start a <? hit_start b)%Z
  || ((hit_start a =? hit_start b)%Z && String.leb (hit_kind a) (hit_kind b)).

Fixpoint insert_by_start_kind (h : hit) (sorted : list hit) : list hit :=
  match sorted with
  | [] => [h]
  | x :: rest =>
      if hit_precedes h x then h :: x :: rest
      else x :: insert_by_start_kind h rest
  end.

Fixpoint sorted_by_start_kind (hits : list hit) : list hit :=
  match hits with
  | [] => []
  | h :: rest => insert_by_start_kind h (sorted_by_start_kind rest)
  end.

Fixpoint drop_later_overlaps (kept : list span) (hits : list hit) : list hit :=
  match hits with
  | [] => []
  | h :: rest =>
      if _overlaps (hit_span h) kept then drop_later_overlaps kept rest
      else h :: drop_later_overlaps (hit_span h :: kept) rest
  end.

Definition deduplicated_spec (hits : list hit) : list hit :=
  drop_later_overlaps [] (sorted_by_start_kind hits).

(** Each hit of the list starts at or after the end of the one before it
    (the first one at or after [last_index]) and lies inside the text. *)
Fixpoint chained (text : str) (last_index : Z) (hits : list hit) : Prop :=
  match hits with
  | [] => True
  | h :: rest =>
      (last_index <= hit_start h)%Z /\ (hit_start h <= hit_end h)%Z /\
      (hit_end h <= Z.of_nat (length text))%Z /\
      chained text (hit_end h) rest
  end.

(** ** What a pattern matches

    [matches r c1 c2]: read from cursor [c1], the pattern [r] can match
    the text up to cursor [c2].  This is the set of all matches; the
    matcher above picks one of them. *)

Section MatchRelation.
Context {U : Unicode}.

Inductive matches : regex -> cursor -> cursor -> Prop :=
| M_Eps c : matches Eps c c
| M_Chr cl ch c c' :
    advance c = Some (ch, c') -> class_matches cl ch = true ->
    matches (Chr cl) c c'
| M_Cat a b c1 c2 c3 :
    matches a c1 c2 -> matches b c2 c3 -> matches (Cat a b) c1 c3
| M_AltL a b c1 c2 : matches a c1 c2 -> matches (Alt a b) c1 c2
| M_AltR a b c1 c2 : matches b c1 c2 -> matches (Alt a b) c1 c2
| M_StarStop g a c : matches (Star g a) c c
| M_StarStep g a c1 c2 c3 :
    matches a c1 c2 -> matches (Star g a) c2 c3 -> matches (Star g a) c1 c3
| M_UptoStop g n a c : matches (Upto g n a) c c
| M_UptoStep g n a c1 c2 c3 :
    matches a c1 c2 -> matches (Upto g n a) c2 c3 ->
    matches (Upto g (S n) a) c1 c3
| M_TimesStop a c : matches (Times 0 a) c c
| M_TimesStep n a c1 c2 c3 :
    matches a c1 c2 -> matches (Times n a) c2 c3 ->
    matches (Times (S n) a) c1 c3
| M_WordB c :
    xorb (word_before c) (word_after c) = true -> matches WordB c c.
End MatchRelation.

(** What the matcher of a sub-pattern [a] has to guarantee: a successful
    run went through a match of [a] and then through [k]. *)
Definition sound_for {U : Unicode} (a : regex) (m : kont -> kont) : Prop :=
  forall k cur res, m k cur = Some res ->
  exists mid, matches a cur mid /\ k mid = Some res.

(** The text between two cursors is [w]. *)
Definition between (c1 c2 : cursor) (w : str) : Prop :=
  cur_rest c1 = w ++ cur_rest c2 /\
  cur_pos c2 = (cur_pos c1 + length w)%nat.


(** A matcher of a sub-pattern uses its continuation only through the
    continuation's values. *)
Definition respects (m : kont -> kont) : Prop :=
  forall k1 k2, (forall c, k1 c = k2 c) -> forall c, m k1 c = m k2 c.

(** The cursor reached from [(prev, pre ++ rest, pos)] once [pre] has been
    read. *)
Definition cursor_after (prev : option char) (pos : nat) (pre rest : str)
  : cursor :=
  mkCursor (fold_left (fun _ c => Some c) pre prev) rest (pos + length pre).

(** The pattern has a match somewhere in the text. *)
Definition occurs_in {U : Unicode} (r : regex) (text : str) : Prop :=
  exists pre rest e,
    text = pre ++ rest /\ matches r (cursor_after None 0 pre rest) e.

(** ** Card numbers *)

(** The standard mod-10 check in the spec's words, to be compared with
    the loop of [_luhn_ok]: counting from the right, every second digit
    is doubled, 9 being taken off a double above 9; the number passes
    when the sum ends in 0. *)
Fixpoint luhn_sum (from_right : list Z) (second : bool) : Z :=
  match from_right with
  | [] => 0
  | d :: rest =>
      ((if second then (if 2 * d >? 9 then 2 * d - 9 else 2 * d) else d)
       + luhn_sum rest (negb second))%Z
  end.

Section CardVocabulary.
Context {U : Unicode}.

Definition luhn_passes (digits : str) : bool :=
  (luhn_sum (rev (map int_of_digit digits)) false mod 10 =? 0)%Z.



End CardVocabulary.



(* ================================================================== *)
(** * Fixtures for the concrete instances below *)
(* ================================================================== *)

(** Artifacts whose baseline classifier answers [p_base] on every text,
    with thresholds 0.8 / 0.5 / 0.2 and a secondary stage that answers
    0.7 through an identity calibrator. *)
Definition fixture_artifacts (p_base : float) : artifacts :=
  mkArtifacts (fun _ => p_base)
              (mkPolicy 0.8%float 0.5%float 0.2%float)
              (Some (mkBert (fun _ => 0.7%float) (fun p => p))).


(** Comments used as concrete inputs. *)
Definition text_meta_and_insult : str :=
  codes "the word bitch is used too much".
Definition text_insult_and_safelist : str :=
  codes "you killed my plant, idiot".
Definition text_safelist_only : str := codes "you killed my plant".

Definition text_plain : str := codes "Have a nice day!".
Definition text_stretched : str := codes "Heeello   W0RLD :)".
Definition text_leet_run : str := codes "i1i".

(** Hits that overlap: a phone number that is also the local part of an
    e-mail address. *)
Definition text_phone_in_email : str := codes "+14155552671@example.com".
Definition hits_phone_in_email : list hit :=
  [ mkHit "PHONE" (0, 12)%Z (codes "+14155552671");
    mkHit "EMAIL" (1, 24)%Z (codes "14155552671@example.com") ].

(** Two hits of different kinds on one span, given in two orders. *)
Definition text_two_kinds : str := codes "4111111111111111 ok".
Definition hit_as_phone : hit := mkHit "PHONE" (0, 16)%Z (codes "+4111111111111111").
Definition hit_as_card : hit := mkHit "CARD" (0, 16)%Z (codes "4111111111111111").

(** A text with an e-mail address and a card number, and its hits. *)
Definition text_email_card : str :=
  codes "mail bob.smith@example.com card 4111-1111 1111 1111 ok".
Definition hits_email_card : list hit :=
  [ mkHit "CARD" (32, 51)%Z (codes "4111111111111111");
    mkHit "EMAIL" (5, 26)%Z (codes "bob.smith@example.com") ].


(** In-bounds hits that do not overlap by the rule of [_overlaps], one of
    them with an empty span at the start of the other. *)
Definition text_hello : str := codes "hello world".
Definition hits_with_empty_span : list hit :=
  [ mkHit "CARD" (0, 5)%Z (codes "4111111111111111");
    mkHit "EMAIL" (0, 0)%Z (codes "a@b.co") ].



(* ================================================================== *)
(** * Further vocabulary *)
(* ================================================================== *)

(** The place of a model-derived tier in the order
    VERY_LOW < LOW < MEDIUM < HIGH. *)
Definition tier_rank (t : tier) : nat :=
  if String.eqb t "HIGH" then 3
  else if String.eqb t "MEDIUM" then 2
  else if String.eqb t "LOW" then 1
  else 0.

(** Two characters that are equal up to the case of an ASCII letter, and
    two texts that are so character by character. *)
Definition same_letter (a b : char) : Prop := ascii_lower a = ascii_lower b.
Definition same_modulo_case (s t : str) : Prop := Forall2 same_letter s t.

(** A class that cannot tell the two cases of an ASCII letter apart: it
    is under IGNORECASE, or it names no letter. *)
Fixpoint case_blind_class (cl : cclass) : bool :=
  match cl with
  | CAny | CSpace | CDigit => true
  | CLit c => negb (is_ascii_lower c || is_ascii_upper c)
  | CRange lo hi => (hi <? 65) || (122 <? lo)
  | CNot a => case_blind_class a
  | COr a b => case_blind_class a && case_blind_class b
  | CFold _ => true
  end.

Fixpoint case_blind (r : regex) : bool :=
  match r with
  | Eps | WordB => true
  | Chr cl => case_blind_class cl
  | Cat a b | Alt a b => case_blind a && case_blind b
  | Star _ a | Upto _ _ a | Times _ a => case_blind a
  end.

(** Two cursors at the same offset of two texts that are equal up to
    case. *)
Definition same_cursor (c c' : cursor) : Prop :=
  match cur_prev c, cur_prev c' with
  | Some a, Some b => same_letter a b
  | None, None => True
  | _, _ => False
  end /\
  same_modulo_case (cur_rest c) (cur_rest c') /\
  cur_pos c = cur_pos c'.

Definition text_shouting : str := codes "Go KILL YourSelf".
Definition text_whisper : str := codes "go kill yourself".

(** The cursor stands at its offset of [text]: what it has left to read
    is the text from that offset on. *)
Definition at_text (text : str) (c : cursor) : Prop :=
  (cur_pos c <= length text)%nat /\ cur_rest c = skipn (cur_pos c) text.

(** The least number of characters a match of the pattern can hold. *)
Fixpoint min_len (r : regex) : nat :=
  match r with
  | Eps | WordB | Star _ _ | Upto _ _ _ => 0
  | Chr _ => 1
  | Cat a b => min_len a + min_len b
  | Alt a b => Nat.min (min_len a) (min_len b)
  | Times n a => n * min_len a
  end.

(** The matches of a list come one after the other in the text: each
    starts at or after [from] and at or after the end of the one before
    it. *)
Fixpoint successive (from : Z) (l : list rmatch_result) : Prop :=
  match l with
  | [] => True
  | m :: rest =>
      (from <= fst (m_span m))%Z /\ (fst (m_span m) <= snd (m_span m))%Z /\
      successive (snd (m_span m)) rest
  end.

(** The same for hits. *)
Fixpoint successive_hits (from : Z) (l : list hit) : Prop :=
  match l with
  | [] => True
  | h :: rest =>
      (from <= hit_start h)%Z /\ (hit_start h <= hit_end h)%Z /\
      successive_hits (hit_end h) rest
  end.

(** The hits of one kind, in the order of the list. *)
Definition hits_of_kind (kind : string) (hits : list hit) : list hit :=
  filter (fun h => String.eqb (hit_kind h) kind) hits.

(** Hits as [detect_pii] reports them on this text: the e-mail address
    and the card number of [text_email_card]. *)
Definition hit_email_found : hit :=
  mkHit "EMAIL" (5, 26)%Z (codes "bob.smith@example.com").
Definition hit_card_found : hit :=
  mkHit "CARD" (32, 51)%Z (codes "4111111111111111").

(** A hit whose kind is none of the three the redactor knows (kinds are
    compared case-sensitively). *)
Definition hit_lowercase_kind : hit :=
  mkHit "email" (5, 26)%Z (codes "bob.smith@example.com").

(** The characters a normalised text can hold: the set of step 8 without
    what step 7 rewrites and without whitespace other than the space. *)
Definition NORMAL_ALPHABET : str :=
  codes "abcdefghijklmnopqrstuvwxyz2689:,_-.?#% ".

(** No space at either end and no two spaces in a row.  [after_space]
    tells whether the text read so far is empty or ends in a space. *)
Fixpoint single_spaced_from (after_space : bool) (s : str) : bool :=
  match s with
  | [] => negb after_space
  | c :: rest =>
      if c =? 32 then negb after_space && single_spaced_from true rest
      else single_spaced_from false rest
  end.

Definition single_spaced (s : str) : bool :=
  match s with
  | [] => true
  | _ => single_spaced_from true s
  end.

(** ** [app_streamlit.py]: the results table *)

(** [s.lstrip()], [s.rstrip()], [s.strip()] *)
Fixpoint lstrip (s : str) : str :=
  match s with
  | [] => []
  | c :: rest => if is_space c then lstrip rest else s
  end.
Definition rstrip (s : str) : str := rev (lstrip (rev s)).
Definition strip (s : str) : str := rstrip (lstrip s).

(** [s.split(sep)] for a one-character separator: the pieces between the
    separators, empty ones included. *)
Fixpoint split_on (sep : char) (s : str) : list str :=
  match s with
  | [] => [[]]
  | c :: rest =>
      if c =? sep then [] :: split_on sep rest
      else match split_on sep rest with
           | w :: ws => (c :: w) :: ws
           | [] => [[c]]
           end
  end.

(** Line 121:
    [comments = [c.strip() for c in input_text.split('\n') if c.strip()]] *)
Definition ui_comments (input_text : str) : list str :=
  flat_map (fun c => match strip c with [] => [] | s => [s] end)
           (split_on 10 input_text).

(** Lines 148-157, the nested [style_tier]: the colour table, its lookup
    with the default ["grey"], and the style string. *)
Definition TIER_COLOURS : list (tier * string) :=
  [ ("HIGH", "#FF4B4B"); ("OVERRIDE_TOXIC", "#B22222");
    ("MEDIUM", "#FFA500"); ("LOW", "#1F77B4"); ("VERY_LOW", "#2CA02C");
    ("OVERRIDE_SAFE", "#800080") ]%string.

Fixpoint dict_get (d : list (string * string)) (key default : string)
  : string :=
  match d with
  | [] => default
  | (k, v) :: rest => if String.eqb key k then v else dict_get rest key default
  end.

Definition style_of_colour (colour : string) : string :=
  ("background-color: " ++ colour ++ "; color: white; font-weight: bold;")%string.

Definition style_tier (t : tier) : string :=
  style_of_colour (dict_get TIER_COLOURS t "grey").

(** Input of the text area used below: three lines, the second one
    blank. *)
Definition text_area_input : str :=
  codes "  Have a nice day!  " ++ [10] ++ codes "   " ++ [10]
  ++ codes "you killed my plant".

(** A fact of the Unicode character database the checksum rests on: a
    decimal digit, of whatever script, has a value from 0 to 9. *)
Definition decimal_values (U : Unicode) : Prop :=
  forall c d, uni_decimal c = Some d -> d <= 9.

(** A database that knows the Arabic-Indic digits U+0660 to U+0669. *)
Definition ascii_and_arabic_indic : Unicode :=
  {| uni_isalnum := fun c => in_range 1632 1641 c;
     uni_decimal := fun c => if in_range 1632 1641 c then Some (c - 1632)
                             else None |}.

(** Two facts of the Unicode character database the properties of [\b]
    rest on: no whitespace character is alphanumeric, and the letters
    U+0130, U+0131 and U+017F (which IGNORECASE identifies with [i] and
    [s]) are. *)
Definition unicode_facts (U : Unicode) : Prop :=
  (forall c, is_space c = true -> uni_isalnum c = false) /\
  uni_isalnum 304 = true /\ uni_isalnum 305 = true /\ uni_isalnum 383 = true.

(** A database that knows the four letters IGNORECASE adds to ASCII. *)
Definition ascii_and_folded_letters : Unicode :=
  {| uni_isalnum := fun c => existsb (N.eqb c) [304; 305; 383; 8490];
     uni_decimal := fun _ => None |}.

(** The profanity pattern of the insult category. *)
Definition PROFANITY_PATTERN : regex :=
  cat [WordB;
       alt [ci "idiot"; ci "moron"; ci "stupid"; ci "dumb"; ci "loser";
            ci "pathetic"; ci "bitch"; ci "fuck"];
       WordB].

(* ================================================================== *)
(** * The matcher finds only matches of the pattern *)
(* ================================================================== *)

Lemma orelse_some {A} (a b : option A) (x : A) :
orelse a b = Some x -> a = Some x \/ b = Some x.
Proof. destruct a; simpl; auto. Qed.

Section MatcherSound.
Context {U : Unicode}.

Lemma times_sound (a : regex) (m : kont -> kont) (n : nat) :
sound_for a m -> sound_for (Times n a) (times m n).
Proof.
intros Hm. induction n as [|n IH]; intros k cur res H; cbn [times] in H.
- exists cur. split; [constructor | assumption].
- apply Hm in H. destruct H as (mid1 & H1 & H).
  apply IH in H. destruct H as (mid & H2 & H).
  exists mid. split; [econstructor; eassumption | assumption].
Qed.

Lemma upto_sound (a : regex) (m : kont -> kont) (g : bool) (n : nat) :
sound_for a m -> sound_for (Upto g n a) (upto m g n).
Proof.
intros Hm. induction n as [|n IH]; intros k cur res H; cbn [upto] in H.
- exists cur. split; [constructor | assumption].
- assert (Hcases : m (upto m g n k) cur = Some res \/ k cur = Some res).
  { destruct g; apply orelse_some in H; tauto. }
  destruct Hcases as [H' | H'].
  + apply Hm in H'. destruct H' as (mid1 & H1 & H').
    apply IH in H'. destruct H' as (mid & H2 & H').
    exists mid. split; [econstructor; eassumption | assumption].
  + exists cur. split; [constructor | assumption].
Qed.

Lemma star_sound (a : regex) (m : kont -> kont) (g : bool) (fuel : nat) :
sound_for a m -> sound_for (Star g a) (star m g fuel).
Proof.
intros Hm. induction fuel as [|fuel IH]; intros k cur res H; cbn [star] in H.
- exists cur. split; [constructor | assumption].
- match type of H with
  | (if g then orelse ?x ?y else orelse ?y ?x) = _ =>
      assert (Hcases : x = Some res \/ y = Some res)
        by (destruct g; apply orelse_some in H; tauto)
  end.
  clear H. destruct Hcases as [H | H].
  + apply Hm in H. destruct H as (mid1 & H1 & H).
    destruct (length (cur_rest mid1) <? length (cur_rest cur))%nat;
      [|discriminate].
    apply IH in H. destruct H as (mid & H2 & H).
    exists mid. split; [econstructor; eassumption | assumption].
  + exists cur. split; [constructor | assumption].
Qed.

Lemma rmatch_sound (r : regex) : sound_for r (rmatch r).
Proof.
induction r as [ | cl | a IHa b IHb | a IHa b IHb | g a IHa | g n a IHa
               | n a IHa | ]; intros k cur res H; cbn [rmatch] in H.
- exists cur. split; [constructor | assumption].
- destruct (advance cur) as [[ch cur']|] eqn:Ea; [|discriminate].
  destruct (class_matches cl ch) eqn:Ec; [|discriminate].
  exists cur'. split; [econstructor; eassumption | assumption].
- apply IHa in H. destruct H as (mid1 & H1 & H).
  apply IHb in H. destruct H as (mid & H2 & H).
  exists mid. split; [econstructor; eassumption | assumption].
- apply orelse_some in H. destruct H as [H | H].
  + apply IHa in H. destruct H as (mid & H1 & H).
    exists mid. split; [now apply M_AltL | assumption].
  + apply IHb in H. destruct H as (mid & H1 & H).
    exists mid. split; [now apply M_AltR | assumption].
- apply (star_sound a _ g _ IHa) in H. exact H.
- apply (upto_sound a _ g n IHa) in H. exact H.
- apply (times_sound a _ n IHa) in H. exact H.
- destruct (xorb (word_before cur) (word_after cur)) eqn:E; [|discriminate].
  exists cur. split; [now constructor | assumption].
Qed.

Lemma match_here_sound (r : regex) (c1 c2 : cursor) :
match_here r c1 = Some c2 -> matches r c1 c2.
Proof.
unfold match_here. intros H. apply rmatch_sound in H.
destruct H as (mid & Hm & E). now inversion E; subst.
Qed.

(** ** The text of a match *)

Lemma between_refl (c : cursor) : between c c [].
Proof. split; [reflexivity | simpl; lia]. Qed.

Lemma between_trans (c1 c2 c3 : cursor) (u v : str) :
between c1 c2 u -> between c2 c3 v -> between c1 c3 (u ++ v).
Proof.
intros [H1 H2] [H3 H4]. split.
- rewrite H1, H3. now rewrite app_assoc.
- rewrite H4, H2, length_app. lia.
Qed.

Lemma advance_between (c c' : cursor) (ch : char) :
advance c = Some (ch, c') -> between c c' [ch].
Proof.
unfold advance. destruct (cur_rest c) as [|x rest] eqn:E; [discriminate|].
intros H. inversion H; subst. split; simpl; [assumption | lia].
Qed.

Lemma matches_between (r : regex) (c1 c2 : cursor) :
matches r c1 c2 -> exists w, between c1 c2 w.
Proof.
induction 1;
  repeat match goal with
  | H : exists w, between _ _ w |- _ => destruct H
  end;
  try (eexists; apply between_refl);
  try (eexists; eassumption);
  try (eexists; eapply between_trans; eassumption).
eexists. eapply advance_between. eassumption.
Qed.

Lemma between_unique (c1 c2 : cursor) (u v : str) :
between c1 c2 u -> between c1 c2 v -> u = v.
Proof.
intros [H1 H2] [H3 H4].
assert (Hlen : length u = length v) by lia.
rewrite H1 in H3. clear - H3 Hlen.
revert v H3 Hlen. induction u as [|x u IH]; intros [|y v] H3 Hlen;
  try discriminate; [reflexivity|].
simpl in *. inversion H3; subst. f_equal. apply IH; [assumption | lia].
Qed.

Lemma between_group (c1 c2 : cursor) (w : str) :
between c1 c2 w -> firstn (cur_pos c2 - cur_pos c1) (cur_rest c1) = w.
Proof.
intros [H1 H2]. rewrite H1, H2.
replace (cur_pos c1 + length w - cur_pos c1)%nat with (length w + 0)%nat
  by lia.
rewrite firstn_app_2. simpl. apply app_nil_r.
Qed.

(** ** Matches reported by [finditer] *)

Lemma scan_sound (r : regex) (rest : str) :
forall prev pos s e,
scan r prev rest pos = Some (s, e) -> match_here r s = Some e.
Proof.
induction rest as [|c rest IH]; intros prev pos s e H; cbn [scan] in H.
- destruct (match_here r (mkCursor prev [] pos)) eqn:E; [|discriminate].
  inversion H; subst. assumption.
- destruct (match_here r (mkCursor prev (c :: rest) pos)) eqn:E.
  + inversion H; subst. assumption.
  + eapply IH. eassumption.
Qed.


End MatcherSound.

(* ================================================================== *)
(** * The iteration bounds of the matcher are never reached *)
(* ================================================================== *)

Section Fuel.
Context {U : Unicode}.

Lemma times_respects (m : kont -> kont) (n : nat) :
respects m -> respects (times m n).
Proof.
intros Hm. induction n as [|n IH]; intros k1 k2 Hk c; cbn [times].
- apply Hk.
- apply Hm. intros c'. now apply IH.
Qed.

Lemma upto_respects (m : kont -> kont) (g : bool) (n : nat) :
respects m -> respects (upto m g n).
Proof.
intros Hm. induction n as [|n IH]; intros k1 k2 Hk c; cbn [upto].
- apply Hk.
- rewrite (Hk c).
  rewrite (Hm (upto m g n k1) (upto m g n k2) (fun c' => IH k1 k2 Hk c')).
  reflexivity.
Qed.

Lemma star_respects (m : kont -> kont) (g : bool) (fuel : nat) :
respects m -> respects (star m g fuel).
Proof.
intros Hm. induction fuel as [|fuel IH]; intros k1 k2 Hk c; cbn [star].
- apply Hk.
- rewrite (Hk c).
  match goal with
  | |- (if g then orelse (m ?a c) _ else _)
       = (if g then orelse (m ?b c) _ else _) =>
      assert (E : m a c = m b c)
  end.
  { apply Hm. intros c'.
    destruct (length (cur_rest c') <? length (cur_rest c))%nat;
      [now apply IH | reflexivity]. }
  now rewrite E.
Qed.

Lemma rmatch_respects (r : regex) : respects (rmatch r).
Proof.
induction r as [ | cl | a IHa b IHb | a IHa b IHb | g a IHa | g n a IHa
               | n a IHa | ]; intros k1 k2 Hk c; cbn [rmatch].
- apply Hk.
- destruct (advance c) as [[ch c']|]; [|reflexivity].
  destruct (class_matches cl ch); [apply Hk | reflexivity].
- apply IHa. intros c'. now apply IHb.
- now rewrite (IHa k1 k2 Hk c), (IHb k1 k2 Hk c).
- now apply star_respects.
- now apply upto_respects.
- now apply times_respects.
- destruct (xorb (word_before c) (word_after c)); [apply Hk | reflexivity].
Qed.

(** Any bound above the length of the remaining text gives the same
    result: the bound of [Star] in [rmatch] cuts nothing off. *)
Lemma star_fuel_irrelevant (m : kont -> kont) (g : bool) (k : kont) :
respects m ->
forall n cur f1 f2,
(length (cur_rest cur) <= n)%nat ->
(length (cur_rest cur) < f1)%nat -> (length (cur_rest cur) < f2)%nat ->
star m g f1 k cur = star m g f2 k cur.
Proof.
intros Hm. induction n as [|n IH]; intros cur f1 f2 Hn H1 H2;
  (destruct f1 as [|f1]; [lia|]); (destruct f2 as [|f2]; [lia|]);
  cbn [star];
  match goal with
  | |- (if g then orelse (m ?a cur) _ else _)
       = (if g then orelse (m ?b cur) _ else _) =>
      assert (E : m a cur = m b cur)
  end;
  try (now rewrite E);
  apply Hm; intros c';
  destruct (length (cur_rest c') <? length (cur_rest cur))%nat eqn:Elt;
  try reflexivity; apply Nat.ltb_lt in Elt.
- lia.
- apply IH; lia.
Qed.

Lemma rmatch_star_fuel (g : bool) (a : regex) (k : kont) (cur : cursor)
  (fuel : nat) :
(length (cur_rest cur) < fuel)%nat ->
star (rmatch a) g fuel k cur = rmatch (Star g a) k cur.
Proof.
intros H. cbn [rmatch].
apply (star_fuel_irrelevant _ g k (rmatch_respects a)
         (length (cur_rest cur))); lia.
Qed.

Lemma scan_shorter (r : regex) (rest : str) :
forall prev pos s e,
scan r prev rest pos = Some (s, e) ->
(length (cur_rest s) <= length rest)%nat.
Proof.
induction rest as [|c rest IH]; intros prev pos s e H; cbn [scan] in H.
- destruct (match_here r (mkCursor prev [] pos)); [|discriminate].
  inversion H; subst. simpl. lia.
- destruct (match_here r (mkCursor prev (c :: rest) pos)).
  + inversion H; subst. simpl. lia.
  + apply IH in H. simpl. lia.
Qed.

Lemma advance_shorter (c c' : cursor) (ch : char) :
advance c = Some (ch, c') ->
length (cur_rest c) = S (length (cur_rest c')).
Proof.
unfold advance. destruct (cur_rest c) as [|x rest]; [discriminate|].
intros H. inversion H; subst. reflexivity.
Qed.

(** After a match the scan resumes on a strictly shorter text. *)
Lemma finditer_next_shorter (r : regex) (cur s e cur' : cursor) :
scan r (cur_prev cur) (cur_rest cur) (cur_pos cur) = Some (s, e) ->
(if (cur_pos s <? cur_pos e)%nat then Some e
 else option_map snd (advance e)) = Some cur' ->
(length (cur_rest cur') < length (cur_rest cur))%nat.
Proof.
intros Es En.
pose proof (scan_shorter _ _ _ _ _ _ Es) as Hs.
apply scan_sound in Es. apply match_here_sound in Es.
destruct (matches_between _ _ _ Es) as (w & Hw1 & Hw2).
apply (f_equal (@length _)) in Hw1. rewrite length_app in Hw1.
destruct (cur_pos s <? cur_pos e)%nat eqn:El.
- apply Nat.ltb_lt in El. inversion En; subst cur'. lia.
- destruct (advance e) as [[ch e']|] eqn:Ea; [|discriminate].
  simpl in En. inversion En; subst cur'.
  apply advance_shorter in Ea. lia.
Qed.

(** Likewise for the bound of [finditer]. *)
Lemma finditer_fuel_irrelevant (r : regex) :
forall n cur f1 f2,
(length (cur_rest cur) <= n)%nat -> (n < f1)%nat -> (n < f2)%nat ->
finditer_from f1 r cur = finditer_from f2 r cur.
Proof.
induction n as [|n IH]; intros cur f1 f2 Hn H1 H2;
  (destruct f1 as [|f1]; [lia|]); (destruct f2 as [|f2]; [lia|]);
  cbn [finditer_from];
  destruct (scan r (cur_prev cur) (cur_rest cur) (cur_pos cur))
    as [[s e]|] eqn:Es; try reflexivity;
  match goal with
  | |- match ?next with _ => _ end = _ => destruct next as [cur'|] eqn:En
  end; try reflexivity; f_equal;
  pose proof (finditer_next_shorter _ _ _ _ _ Es En) as Hlt.
- lia.
- apply IH; lia.
Qed.

Lemma finditer_any_fuel (r : regex) (text : str) (fuel : nat) :
(length text < fuel)%nat ->
finditer_from fuel r (start_cursor text) = finditer r text.
Proof.
intros H. unfold finditer.
apply (finditer_fuel_irrelevant r (length text)); simpl; lia.
Qed.
End Fuel.

(* ================================================================== *)
(** * The matcher finds a match whenever there is one *)
(* ================================================================== *)

Section MatcherComplete.
Context {U : Unicode}.

Lemma orelse_not_none {A} (a b : option A) :
a <> None \/ b <> None -> orelse a b <> None.
Proof. destruct a; simpl; [discriminate | tauto]. Qed.

Lemma either_order_not_none {A} (g : bool) (a b : option A) :
a <> None \/ b <> None ->
(if g then orelse a b else orelse b a) <> None.
Proof. intros H. destruct g; apply orelse_not_none; tauto. Qed.

(** A match never moves the cursor back, and one that reads nothing
    leaves it where it was. *)
Lemma matches_shrinks (r : regex) (c1 c2 : cursor) :
matches r c1 c2 ->
(length (cur_rest c2) <= length (cur_rest c1))%nat /\
(length (cur_rest c2) = length (cur_rest c1) -> c2 = c1).
Proof.
induction 1;
  repeat match goal with H : _ /\ _ |- _ => destruct H end;
  try (split; [lia | reflexivity]);
  try (split; [lia | intros E;
       repeat match goal with
              | H : length _ = length _ -> _ = _ |- _ =>
                  rewrite H in * by lia; clear H
              end; reflexivity]);
  try (split; assumption).
apply advance_shorter in H. split; lia.
Qed.

Lemma upto_stop (m : kont -> kont) (g : bool) (n : nat) (k : kont)
  (c : cursor) :
k c <> None -> upto m g n k c <> None.
Proof.
intros H. destruct n; cbn [upto]; [assumption|].
apply either_order_not_none. now right.
Qed.

Lemma rmatch_complete (r : regex) (c mid : cursor) :
matches r c mid -> forall k, k mid <> None -> rmatch r k c <> None.
Proof.
induction 1 as [ c | cl ch c c' Ha Hc | a b c1 c2 c3 _ IH1 _ IH2
               | a b c1 c2 _ IH | a b c1 c2 _ IH | g a c
               | g a c1 c2 c3 H1 IH1 H2 IH2 | g n a c
               | g n a c1 c2 c3 _ IH1 _ IH2 | a c
               | n a c1 c2 c3 _ IH1 _ IH2 | c Hb ];
  intros k Hk; cbn [rmatch].
- assumption.
- now rewrite Ha, Hc.
- apply IH1. now apply IH2.
- apply orelse_not_none. left. now apply IH.
- apply orelse_not_none. right. now apply IH.
- cbn [star]. apply either_order_not_none. now right.
- destruct (matches_shrinks _ _ _ H1) as [Hle Heq].
  destruct (Nat.eq_dec (length (cur_rest c2)) (length (cur_rest c1)))
    as [E | Hne].
  + rewrite (Heq E) in IH2. specialize (IH2 k Hk).
    cbn [rmatch] in IH2. exact IH2.
  + cbn [star]. apply either_order_not_none. left. apply IH1.
    replace (length (cur_rest c2) <? length (cur_rest c1))%nat with true
      by (symmetry; apply Nat.ltb_lt; lia).
    rewrite (rmatch_star_fuel g a k c2) by lia.
    now apply IH2.
- now apply upto_stop.
- cbn [upto]. apply either_order_not_none. left. apply IH1.
  specialize (IH2 k Hk). cbn [rmatch] in IH2. exact IH2.
- assumption.
- cbn [times]. apply IH1.
  specialize (IH2 k Hk). cbn [rmatch] in IH2. exact IH2.
- now rewrite Hb.
Qed.

Lemma match_here_complete (r : regex) (c mid : cursor) :
matches r c mid -> match_here r c <> None.
Proof.
intros H. unfold match_here. apply (rmatch_complete r c mid H).
discriminate.
Qed.

Lemma scan_complete (r : regex) (pre : str) :
forall prev pos rest,
match_here r (cursor_after prev pos pre rest) <> None ->
scan r prev (pre ++ rest) pos <> None.
Proof.
induction pre as [|c pre IH]; intros prev pos rest H.
- unfold cursor_after in H. cbn [fold_left length app] in *.
  rewrite Nat.add_0_r in H.
  destruct rest as [|x rest]; cbn [scan];
    destruct (match_here r _); congruence.
- cbn [app scan].
  destruct (match_here r (mkCursor prev (c :: pre ++ rest) pos));
    [discriminate|].
  apply IH. unfold cursor_after in *. cbn [fold_left length] in H.
  now replace (S pos + length pre)%nat with (pos + S (length pre))%nat
    by lia.
Qed.

Lemma scan_start (r : regex) (rest0 : str) :
forall prev pos s e,
scan r prev rest0 pos = Some (s, e) ->
exists pre rest, rest0 = pre ++ rest /\ s = cursor_after prev pos pre rest.
Proof.
induction rest0 as [|c rest0 IH]; intros prev pos s e H; cbn [scan] in H.
- destruct (match_here r (mkCursor prev [] pos)); [|discriminate].
  inversion H; subst. exists [], []. split; [reflexivity|].
  unfold cursor_after. cbn. now rewrite Nat.add_0_r.
- destruct (match_here r (mkCursor prev (c :: rest0) pos)).
  + inversion H; subst. exists [], (c :: rest0). split; [reflexivity|].
    unfold cursor_after. cbn. now rewrite Nat.add_0_r.
  + apply IH in H. destruct H as (pre & rest & -> & ->).
    exists (c :: pre), rest. split; [reflexivity|].
    unfold cursor_after. cbn [fold_left length]. f_equal. lia.
Qed.

(** [pattern.search(text)] is truthy exactly when the pattern has a match
    somewhere in the text. *)
Lemma re_search_spec (r : regex) (text : str) :
re_search r text = true <-> occurs_in r text.
Proof.
unfold re_search, occurs_in. split.
- destruct (scan r None text 0) as [[s e]|] eqn:Es; [|discriminate].
  intros _. destruct (scan_start _ _ _ _ _ _ Es) as (pre & rest & -> & ->).
  apply scan_sound in Es. apply match_here_sound in Es.
  exists pre, rest, e. auto.
- intros (pre & rest & e & -> & Hm).
  apply match_here_complete in Hm.
  apply (scan_complete r pre None 0 rest) in Hm.
  destruct (scan r None (pre ++ rest) 0); [reflexivity | congruence].
Qed.
End MatcherComplete.

(* ================================================================== *)
(** * Ordering of binary64 values *)
(* ================================================================== *)

Ltac sf_cases :=
  repeat match goal with
  | s : bool |- _ => destruct s
  | |- context [(?a ?= ?b)%Z] => destruct (Z.compare_spec a b)
  | H : context [(?a ?= ?b)%Z] |- _ => destruct (Z.compare_spec a b)
  | |- context [PosDef.Pos.compare_cont Eq ?a ?b] =>
      change (PosDef.Pos.compare_cont Eq a b) with (Pos.compare a b);
      destruct (Pos.compare_spec a b)
  | H : context [PosDef.Pos.compare_cont Eq ?a ?b] |- _ =>
      change (PosDef.Pos.compare_cont Eq a b) with (Pos.compare a b) in H;
      destruct (Pos.compare_spec a b)
  end; simpl in *; try congruence; try lia.

Lemma SFcompare_refl x : x <> S754_nan -> SFcompare x x = Some Eq.
Proof.
  destruct x as [s|s| |s m e]; simpl; intros Hn; try congruence.
  - destruct s; reflexivity.
  - rewrite Z.compare_refl.
    change (PosDef.Pos.compare_cont Eq m m) with (Pos.compare m m).
    rewrite Pos.compare_refl. destruct s; reflexivity.
Qed.

Lemma SFcompare_Lt_not_nan a b :
  SFcompare a b = Some Lt -> a <> S754_nan /\ b <> S754_nan.
Proof. destruct a, b; simpl; split; congruence. Qed.

Lemma SFcompare_Lt_Gt a b :
  SFcompare a b = Some Lt -> SFcompare b a = Some Gt.
Proof.
  destruct a as [s|s| |s m e], b as [s'|s'| |s' m' e']; simpl; intros H;
    try congruence; f_equal; injection H as H; revert H; sf_cases.
Qed.

Lemma SFcompare_Lt_trans a b c :
  SFcompare a b = Some Lt -> SFcompare b c = Some Lt ->
  SFcompare a c = Some Lt.
Proof.
  destruct a as [s|s| |s m e], b as [s'|s'| |s' m' e'],
           c as [s''|s''| |s'' m'' e''];
    simpl; intros H1 H2; try congruence; f_equal;
    injection H1 as H1; injection H2 as H2; revert H1 H2; sf_cases.
Qed.

Lemma ltb_compare (a b : float) :
  (a <? b)%float = true <-> SFcompare (Prim2SF a) (Prim2SF b) = Some Lt.
Proof.
  rewrite ltb_spec. unfold SFltb.
  destruct (SFcompare (Prim2SF a) (Prim2SF b)) as [[ | | ]|];
    split; congruence.
Qed.

(** A value that is below (or above) another one equals itself. *)
Lemma float_leb_refl_l (a b : float) :
  (a <? b)%float = true -> (a <=? a)%float = true.
Proof.
  rewrite ltb_compare, leb_spec. intros H. unfold SFleb.
  rewrite SFcompare_refl; [reflexivity|].
  apply (SFcompare_Lt_not_nan _ _ H).
Qed.

Lemma float_leb_refl_r (a b : float) :
  (a <? b)%float = true -> (b <=? b)%float = true.
Proof.
  rewrite ltb_compare, leb_spec. intros H. unfold SFleb.
  rewrite SFcompare_refl; [reflexivity|].
  apply (SFcompare_Lt_not_nan _ _ H).
Qed.

Lemma float_ltb_not_leb (a b : float) :
  (a <? b)%float = true -> (b <=? a)%float = false.
Proof.
  rewrite ltb_compare, leb_spec. intros H. unfold SFleb.
  rewrite (SFcompare_Lt_Gt _ _ H). reflexivity.
Qed.

Lemma float_ltb_trans (a b c : float) :
  (a <? b)%float = true -> (b <? c)%float = true -> (a <? c)%float = true.
Proof. rewrite !ltb_compare. apply SFcompare_Lt_trans. Qed.

(* ================================================================== *)
(** * Override rules *)
(* ================================================================== *)

Section OverrideFacts.
Context {U : Unicode}.

Lemma any_match_true patterns text :
  any_match patterns text = true <-> matches_some patterns text.
Proof.
  unfold matches_some. induction patterns as [|r rest IH]; simpl.
  - split; [discriminate | intros H; inversion H].
  - destruct (re_search r text) eqn:E.
    + split; auto.
    + rewrite IH. split; intros H.
      * now apply Exists_cons_tl.
      * inversion H; subst; [congruence | assumption].
Qed.

Lemma any_match_false patterns text :
  any_match patterns text = false <-> ~ matches_some patterns text.
Proof.
  rewrite <- any_match_true. destruct (any_match patterns text);
    split; congruence.
Qed.

(** A pattern of the list is found by [search] exactly when one of them
    has a match somewhere in the text. *)
Lemma matches_some_spec patterns text :
matches_some patterns text <->
Exists (fun pattern => occurs_in pattern text) patterns.
Proof.
unfold matches_some. rewrite !Exists_exists.
split; intros (r & Hin & H); exists r; (split; [assumption|]);
  now apply re_search_spec.
Qed.

(** C1. A text in which a meta-discussion pattern is found is forced to
    [(0.01, OVERRIDE_SAFE)], whatever probability and tier came in and
    whether or not a blocklist pattern is found in it as well. *)
Theorem meta_safelist_wins (text : str) (prob : float) (t : tier) :
  matches_some META_PATTERNS text ->
  apply_overrides text prob t = (0.01%float, "OVERRIDE_SAFE"%string).
Proof.
  intros H. apply any_match_true in H.
  unfold apply_overrides. rewrite H. reflexivity.
Qed.

(** C2. A text in which no meta-discussion pattern but some blocklist
    pattern (of any of the nine categories) is found is forced to
    [(0.99, OVERRIDE_TOXIC)], whatever probability and tier came in and
    whether or not a general-safelist pattern is found in it as well. *)
Theorem blocklist_wins (text : str) (prob : float) (t : tier) :
  ~ matches_some META_PATTERNS text ->
  matches_some
    (THREAT_PATTERNS ++ OBSCENE_PATTERNS ++ INSULT_PATTERNS ++
     PASSIVE_AGGRESSIVE_PATTERNS ++ DOG_WHISTLE_PATTERNS ++
     GLORIFICATION_PATTERNS ++ SUBTLE_THREAT_PATTERNS ++
     IDENTITY_ATTACK_PATTERNS ++ SPAM_PATTERNS) text ->
  apply_overrides text prob t = (0.99%float, "OVERRIDE_TOXIC"%string).
Proof.
  intros Hm Hb. apply any_match_false in Hm.
  change (matches_some BLOCKLIST_PATTERNS text) in Hb.
  apply any_match_true in Hb.
  unfold apply_overrides. rewrite Hm, Hb. reflexivity.
Qed.

(** C3. For a text in which neither a meta-discussion nor a blocklist
    pattern is found: a LOW or VERY_LOW incoming tier is returned
    unchanged with its probability even when a general-safelist pattern
    is found; a MEDIUM or HIGH incoming tier with a general-safelist
    pattern found gives [(0.01, OVERRIDE_SAFE)]; and when no
    general-safelist pattern is found either, probability and tier are
    returned unchanged. *)
Theorem general_safelist_scope (text : str) (prob : float) (t : tier) :
  ~ matches_some META_PATTERNS text ->
  ~ matches_some BLOCKLIST_PATTERNS text ->
  (t = "LOW"%string \/ t = "VERY_LOW"%string ->
     apply_overrides text prob t = (prob, t)) /\
  (t = "MEDIUM"%string \/ t = "HIGH"%string ->
   matches_some GENERAL_SAFELIST_PATTERNS text ->
     apply_overrides text prob t = (0.01%float, "OVERRIDE_SAFE"%string)) /\
  (~ matches_some GENERAL_SAFELIST_PATTERNS text ->
     apply_overrides text prob t = (prob, t)).
Proof.
  intros Hm Hb. apply any_match_false in Hm. apply any_match_false in Hb.
  unfold apply_overrides. rewrite Hm, Hb.
  repeat split.
  - intros [-> | ->]; reflexivity.
  - intros Ht Hg. apply any_match_true in Hg. rewrite Hg.
    destruct Ht as [-> | ->]; reflexivity.
  - intros Hg. apply any_match_false in Hg. rewrite Hg.
    rewrite andb_false_r. reflexivity.
Qed.
End OverrideFacts.

(** "the word bitch is used too much" matches a blocklist pattern as well,
    and is still forced safe. *)
Lemma meta_safelist_wins_witness :
  @matches_some ascii_only BLOCKLIST_PATTERNS text_meta_and_insult /\
  @apply_overrides ascii_only text_meta_and_insult 0.97%float "HIGH"%string
  = (0.01%float, "OVERRIDE_SAFE"%string).
Proof.
  split.
  - apply any_match_true. vm_compute. reflexivity.
  - apply (@meta_safelist_wins ascii_only).
    apply any_match_true. vm_compute. reflexivity.
Defined.

(** "you killed my plant, idiot" matches a general-safelist pattern as
    well, and is still forced toxic. *)
Lemma blocklist_wins_witness :
  @matches_some ascii_only GENERAL_SAFELIST_PATTERNS text_insult_and_safelist /\
  @apply_overrides ascii_only text_insult_and_safelist 0.55%float "MEDIUM"%string
  = (0.99%float, "OVERRIDE_TOXIC"%string).
Proof.
  split.
  - apply any_match_true. vm_compute. reflexivity.
  - apply (@blocklist_wins ascii_only).
    + apply any_match_false. vm_compute. reflexivity.
    + apply any_match_true. vm_compute. reflexivity.
Defined.

Lemma general_safelist_scope_witness :
  @apply_overrides ascii_only text_safelist_only 0.05%float "VERY_LOW"%string
  = (0.05%float, "VERY_LOW"%string) /\
  @apply_overrides ascii_only text_safelist_only 0.9%float "HIGH"%string
  = (0.01%float, "OVERRIDE_SAFE"%string).
Proof.
  assert (Hm : ~ @matches_some ascii_only META_PATTERNS text_safelist_only)
    by (apply any_match_false; vm_compute; reflexivity).
  assert (Hb : ~ @matches_some ascii_only BLOCKLIST_PATTERNS text_safelist_only)
    by (apply any_match_false; vm_compute; reflexivity).
  split.
  - apply (proj1 (@general_safelist_scope ascii_only text_safelist_only
                    0.05%float "VERY_LOW"%string Hm Hb)).
    right. reflexivity.
  - apply (proj1 (proj2 (@general_safelist_scope ascii_only text_safelist_only
                           0.9%float "HIGH"%string Hm Hb))).
    + right. reflexivity.
    + apply any_match_true. vm_compute. reflexivity.
Defined.

(* ================================================================== *)
(** * Escalation gate and tier policy *)
(* ================================================================== *)

Section CascadeFacts.
Context {U : Unicode} {L : TextLibs}.
Context (phonenumbers : option (str -> option str)).
Context (A : artifacts).

Lemma cascade_probability_cases (text_norm : str) :
  let p_base := calibrated_lr A text_norm in
  (gate_open A p_base /\
   exists stage, bert A = Some stage /\
     cascade_probability A text_norm =
     (bert_calibrator stage (bert_model stage text_norm), true,
      [BaselineCall text_norm; SecondaryCall text_norm;
       CalibratorCall (bert_model stage text_norm)])) \/
  (~ gate_open A p_base /\
   cascade_probability A text_norm =
   (p_base, false, [BaselineCall text_norm])).
Proof.
  unfold gate_open, cascade_probability, has_bert.
  destruct (bert A) as [stage|]; simpl.
  - destruct (LR_GRAY_LOW <=? calibrated_lr A text_norm)%float eqn:E1;
      destruct (calibrated_lr A text_norm <? LR_GRAY_HIGH)%float eqn:E2;
      simpl.
    + left. split; [auto|]. exists stage. auto.
    + right. split; [|reflexivity]. intros (_ & _ & H). discriminate.
    + right. split; [|reflexivity]. intros (_ & H & _). discriminate.
    + right. split; [|reflexivity]. intros (_ & H & _). discriminate.
  - right. split; [|reflexivity]. intros (H & _). discriminate.
Qed.

Lemma score_comment_cascade_unfold (raw : str) :
  is_blank raw = false ->
  let text_norm := normalize_text (PyStr raw) in
  let c := cascade_probability A text_norm in
  let p := fst (fst c) in
  let r := score_comment_cascade phonenumbers A (PyStr raw) in
  snd r = snd c /\
  escalated_to_bert (fst r) = snd (fst c) /\
  (prob_final (fst r), score_tier (fst r))
  = apply_overrides raw p (initial_tier A p).
Proof.
  intros Hb. unfold score_comment_cascade. rewrite Hb.
  destruct (cascade_probability A (normalize_text (PyStr raw)))
    as [[p e] calls] eqn:Ec.
  destruct (apply_overrides raw p (initial_tier A p)) as [p' t'] eqn:Eo.
  simpl. rewrite Eo. auto.
Qed.


(** C5. With thresholds [high > medium > low], the tier of a final
    probability [p] is HIGH when [p >= high], otherwise MEDIUM when
    [p >= medium], otherwise LOW when [p >= low], otherwise VERY_LOW;
    and a probability equal to a threshold gets the tier that
    threshold opens. *)
Theorem tier_policy_inclusive (p : float) :
  let P := POLICY A in
  (medium P <? high P)%float = true ->
  (low P <? medium P)%float = true ->
  ((high P <=? p)%float = true -> initial_tier A p = "HIGH"%string) /\
  ((high P <=? p)%float = false -> (medium P <=? p)%float = true ->
     initial_tier A p = "MEDIUM"%string) /\
  ((high P <=? p)%float = false -> (medium P <=? p)%float = false ->
   (low P <=? p)%float = true -> initial_tier A p = "LOW"%string) /\
  ((high P <=? p)%float = false -> (medium P <=? p)%float = false ->
   (low P <=? p)%float = false -> initial_tier A p = "VERY_LOW"%string) /\
  initial_tier A (high P) = "HIGH"%string /\
  initial_tier A (medium P) = "MEDIUM"%string /\
  initial_tier A (low P) = "LOW"%string.
Proof.
  intros P Hmh Hlm. unfold initial_tier. fold P.
  split; [|split; [|split; [|split; [|split; [|split]]]]].
  - intros ->. reflexivity.
  - intros -> ->. reflexivity.
  - intros -> -> ->. reflexivity.
  - intros -> -> ->. reflexivity.
  - rewrite (float_leb_refl_r _ _ Hmh). reflexivity.
  - rewrite (float_ltb_not_leb _ _ Hmh), (float_leb_refl_l _ _ Hmh).
    reflexivity.
  - rewrite (float_ltb_not_leb _ _ (float_ltb_trans _ _ _ Hlm Hmh)).
    rewrite (float_ltb_not_leb _ _ Hlm), (float_leb_refl_l _ _ Hlm).
    reflexivity.
Qed.
End CascadeFacts.


Lemma tier_policy_inclusive_witness :
  initial_tier (fixture_artifacts 0.5%float) 0.8%float = "HIGH"%string /\
  initial_tier (fixture_artifacts 0.5%float) 0.5%float = "MEDIUM"%string /\
  initial_tier (fixture_artifacts 0.5%float) 0.2%float = "LOW"%string.
Proof.
  apply (proj2 (proj2 (proj2 (proj2
    (tier_policy_inclusive (fixture_artifacts 0.5%float) 0.5%float
       eq_refl eq_refl))))).
Defined.

(* ================================================================== *)
(** * Input that is not a string *)
(* ================================================================== *)

Section NonStringInput.
Context {U : Unicode} {L : TextLibs}.
Context (phonenumbers : option (str -> option str)).
Context (A : artifacts).

(** C10, as the code has it.  The scoring entry point does not coerce:
    on any value that is not a string it returns the fixed result
    (probability 0.0, VERY_LOW, no hits, the value itself as
    [redacted], not escalated) and calls neither the normaliser nor a
    classifier, so it does not fail.  [normalize_text] on such a value
    is [normalize_text] on its [str()], and [detect_pii] returns no
    hit. *)
Theorem non_string_input_short_circuits (v : pyval) :
  isinstance_str v = false ->
  score_comment_cascade phonenumbers A v
  = (mkScore 0.0%float "VERY_LOW"%string [] v false, []) /\
  normalize_text v = normalize_text (PyStr (py_str v)) /\
  detect_pii phonenumbers v = [].
Proof.
  destruct v; simpl; intros H; try discriminate; repeat split.
Qed.
End NonStringInput.

Lemma non_string_input_short_circuits_witness :
  @score_comment_cascade ascii_only plain_ascii_libs None
    (fixture_artifacts 0.9%float) (PyInt 42)
  = (mkScore 0.0%float "VERY_LOW"%string [] (PyInt 42) false, []) /\
  @normalize_text plain_ascii_libs (PyInt 42) = codes "a2".
Proof.
  destruct (@non_string_input_short_circuits ascii_only plain_ascii_libs
              None (fixture_artifacts 0.9%float) (PyInt 42) eq_refl)
    as (H1 & H2 & _).
  split; [exact H1 | rewrite H2; reflexivity].
Defined.

(** C10 as stated does not hold: the integer 42 is not scored as the
    comment "42" would be (which reaches the baseline classifier). *)
Lemma non_string_input_not_coerced :
  @score_comment_cascade ascii_only plain_ascii_libs None
    (fixture_artifacts 0.9%float) (PyInt 42)
  <> @score_comment_cascade ascii_only plain_ascii_libs None
       (fixture_artifacts 0.9%float) (PyStr (py_str (PyInt 42))).
Proof.
  intros H. apply (f_equal snd) in H. vm_compute in H. discriminate.
Qed.

(* ================================================================== *)
(** * Normaliser *)
(* ================================================================== *)

(** ** Whitespace splitting and joining *)

Lemma split_ws_aux_word (w word rest : str) :
forallb (fun c => negb (is_space c)) w = true ->
split_ws_aux word (w ++ rest) = split_ws_aux (rev w ++ word) rest.
Proof.
revert word. induction w as [|c w IH]; intros word Hw; simpl in *.
- reflexivity.
- apply andb_prop in Hw. destruct Hw as [Hc Hw].
  destruct (is_space c); [discriminate|].
  rewrite IH by assumption. rewrite <- app_assoc. reflexivity.
Qed.

Lemma split_ws_join (l : list str) :
words_ok l -> split_ws (join (codes " ") l) = l.
Proof.
unfold split_ws. induction l as [|w l IH]; intros Hl.
- reflexivity.
- inversion Hl as [|? ? [Hne Hw] Hl']; subst.
  destruct l as [|w' l].
  + simpl. rewrite <- (app_nil_r w) at 1.
    rewrite split_ws_aux_word by assumption. simpl.
    rewrite app_nil_r.
    destruct (rev w) eqn:E.
    * apply (f_equal (@rev _)) in E. rewrite rev_involutive in E. now elim Hne.
    * rewrite <- E, rev_involutive. reflexivity.
  + change (join (codes " ") (w :: w' :: l))
      with (w ++ 32 :: join (codes " ") (w' :: l)).
    rewrite split_ws_aux_word by assumption.
    cbn [split_ws_aux]. change (is_space 32) with true. cbv iota.
    rewrite app_nil_r.
    destruct (rev w) eqn:E.
    * apply (f_equal (@rev _)) in E. rewrite rev_involutive in E. now elim Hne.
    * rewrite <- E, rev_involutive. rewrite IH by assumption. reflexivity.
Qed.

Lemma split_ws_aux_ok (P : char -> bool) (s word : str) :
(forall c, In c s -> is_space c = true \/ P c = true) ->
(forall c, In c word -> is_space c = false /\ P c = true) ->
Forall (fun w => (w <> [] /\ forallb (fun c => negb (is_space c)) w = true)
                 /\ forallb P w = true)
       (split_ws_aux word s).
Proof.
revert word. induction s as [|c s IH]; intros word Hs Hword.
- simpl. destruct word as [|a word]; [constructor|].
  constructor; [|constructor].
  assert (Hrev : forall x, In x (rev (a :: word)) ->
                           is_space x = false /\ P x = true).
  { intros x Hx. apply Hword. now apply in_rev. }
  split; [split|].
  + intros E. apply (f_equal (@length _)) in E.
    rewrite length_rev in E. discriminate.
  + apply forallb_forall. intros x Hx.
    destruct (Hrev x Hx) as [-> _]. reflexivity.
  + apply forallb_forall. intros x Hx. apply (Hrev x Hx).
- simpl. destruct (is_space c) eqn:Ec.
  + assert (Hrec : Forall
                (fun w => (w <> [] /\
                           forallb (fun c => negb (is_space c)) w = true)
                          /\ forallb P w = true)
                (split_ws_aux [] s)).
    { apply IH; [intros x Hx; apply Hs; now right | intros x []]. }
    destruct word as [|a word]; [exact Hrec|].
    constructor; [|exact Hrec].
    assert (Hrev : forall x, In x (rev (a :: word)) ->
                             is_space x = false /\ P x = true).
    { intros x Hx. apply Hword. now apply in_rev. }
    split; [split|].
    * intros E. apply (f_equal (@length _)) in E.
      rewrite length_rev in E. discriminate.
    * apply forallb_forall. intros x Hx.
      destruct (Hrev x Hx) as [-> _]. reflexivity.
    * apply forallb_forall. intros x Hx. apply (Hrev x Hx).
  + apply IH.
    * intros x Hx. apply Hs. now right.
    * intros x [<- | Hx]; [|now apply Hword].
      split; [assumption|].
      destruct (Hs c (or_introl eq_refl)) as [H | H]; [congruence | exact H].
Qed.

Lemma join_forallb (P : char -> bool) (l : list str) :
P 32 = true -> Forall (fun w => forallb P w = true) l ->
forallb P (join (codes " ") l) = true.
Proof.
intros H32. induction l as [|w l IH]; intros Hl; [reflexivity|].
inversion Hl; subst. destruct l as [|w' l]; [assumption|].
change (join (codes " ") (w :: w' :: l))
  with (w ++ 32 :: join (codes " ") (w' :: l)).
rewrite forallb_app. cbn [forallb]. rewrite H32. rewrite IH by assumption.
rewrite andb_true_r. assumption.
Qed.

(** ** The last three steps *)

Lemma translate_fixed (table : list (char * option char)) (s : str) :
forallb (fun c => match table_get table c with
                  | None => true | Some _ => false end) s = true ->
translate table s = s.
Proof.
unfold translate. induction s as [|c s IH]; simpl; intros H; [reflexivity|].
apply andb_prop in H. destruct H as [Hc Hs].
destruct (table_get table c); [discriminate|].
simpl. now rewrite IH.
Qed.

Lemma leet_image_not_source (c : char) (r : option char) :
table_get LEET_MAP c = Some r ->
exists x, r = Some x /\ is_leet_source x = false /\ allowed_char x = true
          /\ is_space x = false.
Proof.
unfold LEET_MAP. simpl.
repeat match goal with
| |- context [if ?b then _ else _] => destruct b
end; intros H; inversion H; subst; eexists; repeat split; reflexivity.
Qed.

Lemma tail_steps_chars (s : str) (c : char) :
In c (blank_disallowed (translate LEET_MAP s)) ->
is_space c = true \/ word_char c = true.
Proof.
unfold blank_disallowed, translate. intros H.
apply in_map_iff in H. destruct H as (x & Hx & Hin).
apply in_flat_map in Hin. destruct Hin as (y & _ & Hy).
assert (Hsrc : is_leet_source x = false).
{ destruct (table_get LEET_MAP y) as [r|] eqn:E.
  - destruct (leet_image_not_source _ _ E) as (z & -> & Hz & _).
    destruct Hy as [<- | []]. exact Hz.
  - destruct Hy as [<- | []]. unfold is_leet_source. now rewrite E. }
destruct (allowed_char x) eqn:Ea.
- subst c. destruct (is_space x) eqn:Es; [now left|].
  right. unfold word_char. now rewrite Ea, Es, Hsrc.
- subst c. left. reflexivity.
Qed.

(** ** Shape of a normalised text *)

Section NormalizeFacts.
Context {L : TextLibs}.

(** Whatever the libraries do, the result is a sequence of words of word
    characters separated by single spaces. *)
Lemma normalize_text_shape (x : pyval) :
exists l, normalize_text x = join (codes " ") l /\ words_ok l /\
          Forall (fun w => forallb word_char w = true) l.
Proof.
unfold normalize_text.
set (s := blank_disallowed _).
exists (split_ws s). split; [reflexivity|].
assert (H := split_ws_aux_ok word_char s []
               (tail_steps_chars _) (fun c (F : In c []) => match F with end)).
fold (split_ws s) in H. unfold words_ok. split.
- eapply Forall_impl; [|exact H]. intros w [Hw _]. exact Hw.
- eapply Forall_impl; [|exact H]. intros w [_ Hw]. exact Hw.
Qed.

Lemma normalize_text_plain (x : pyval) :
forallb plain_char (normalize_text x) = true.
Proof.
destruct (normalize_text_shape x) as (l & -> & _ & Hl).
apply join_forallb; [reflexivity|].
eapply Forall_impl; [|exact Hl]. intros w Hw.
apply forallb_forall. intros c Hc. unfold plain_char.
rewrite (proj1 (forallb_forall _ _) Hw c Hc). reflexivity.
Qed.

Lemma normalize_text_rejoin (x : pyval) :
join (codes " ") (split_ws (normalize_text x)) = normalize_text x.
Proof.
destruct (normalize_text_shape x) as (l & -> & Hl & _).
now rewrite split_ws_join.
Qed.
End NormalizeFacts.

(** ** Steps that leave a plain text alone *)

Lemma plain_char_cases (c : char) :
plain_char c = true ->
table_get ZERO_WIDTH c = None /\ table_get LEET_MAP c = None /\
allowed_char c = true.
Proof.
unfold plain_char, word_char, is_leet_source. intros H.
apply orb_prop in H. destruct H as [H | H].
- apply andb_prop in H. destruct H as [H Hl].
  apply andb_prop in H. destruct H as [Ha Hs].
  split; [|split; [|assumption]].
  + unfold ZERO_WIDTH. simpl.
    unfold allowed_char, is_ascii_lower, is_ascii_digit, in_range in Ha.
    destruct (c =? 8203) eqn:E1; [apply N.eqb_eq in E1; subst; discriminate|].
    destruct (c =? 8204) eqn:E2; [apply N.eqb_eq in E2; subst; discriminate|].
    destruct (c =? 8205) eqn:E3; [apply N.eqb_eq in E3; subst; discriminate|].
    destruct (c =? 65279) eqn:E4; [apply N.eqb_eq in E4; subst; discriminate|].
    reflexivity.
  + destruct (table_get LEET_MAP c); [discriminate | reflexivity].
- apply N.eqb_eq in H. subst. repeat split.
Qed.

Lemma blank_disallowed_plain (s : str) :
forallb plain_char s = true -> blank_disallowed s = s.
Proof.
unfold blank_disallowed. induction s as [|c s IH]; simpl; intros H.
- reflexivity.
- apply andb_prop in H. destruct H as [Hc Hs].
  destruct (plain_char_cases c Hc) as (_ & _ & ->). now rewrite IH.
Qed.

Lemma translate_plain (s : str) :
forallb plain_char s = true ->
translate ZERO_WIDTH s = s /\ translate LEET_MAP s = s.
Proof.
intros H. split; apply translate_fixed; apply forallb_forall; intros c Hc;
  destruct (plain_char_cases c (proj1 (forallb_forall _ _) H c Hc))
    as (Hz & Hl & _); [now rewrite Hz | now rewrite Hl].
Qed.

(** ** Collapsing runs *)

Lemma has_triple_tail (a : char) (s : str) :
has_triple (a :: s) = false -> has_triple s = false.
Proof.
destruct s as [|b [|c s]]; try reflexivity.
cbn [has_triple]. intros H. apply orb_false_elim in H. apply H.
Qed.

Lemma collapse_runs_no_triple (s : str) (p : char) (n : nat) :
has_triple (repeat p (Nat.min n 2) ++ s) = false ->
collapse_runs (Some p) n s = s.
Proof.
revert p n. induction s as [|c s IH]; intros p n H; [reflexivity|].
cbn [collapse_runs]. destruct (c =? p) eqn:Ecp.
- apply N.eqb_eq in Ecp. subst c.
  destruct n as [|[|n]].
  + simpl. f_equal. apply IH. exact H.
  + simpl. f_equal. apply IH. exact H.
  + exfalso. replace (Nat.min (S (S n)) 2) with 2%nat in H by lia.
    cbn [repeat app has_triple] in H. rewrite N.eqb_refl in H.
    discriminate.
- f_equal. apply IH. cbn [Nat.min repeat app].
  clear IH Ecp. induction (Nat.min n 2) as [|k IHk]; [exact H|].
  apply IHk. cbn [repeat app] in H. now apply has_triple_tail in H.
Qed.

Lemma collapse_repeats_no_triple (s : str) :
has_triple s = false -> collapse_repeats s = s.
Proof.
unfold collapse_repeats. destruct s as [|c s]; [reflexivity|].
intros H. cbn [collapse_runs]. f_equal.
apply collapse_runs_no_triple. exact H.
Qed.

(** ** Idempotence *)

Section Idempotence.
Context {L : TextLibs}.

(** C6, as the code has it.  When the libraries leave plain text alone,
    normalising a normalised text gives it back whenever that text holds
    no run of three or more equal characters.  (Leetspeak substitution
    and character filtering run after the run-collapsing step and can
    put such a run into the result.) *)
Theorem normalize_text_idempotent_without_runs (x : pyval) :
plain_stable L ->
has_triple (normalize_text x) = false ->
normalize_text (PyStr (normalize_text x)) = normalize_text x.
Proof.
intros HL Hrun.
pose proof (normalize_text_plain x) as Hplain.
pose proof (normalize_text_rejoin x) as Hjoin.
set (y := normalize_text x) in *.
unfold normalize_text at 1. cbn [py_str].
rewrite (fix_text_plain L HL y Hplain).
rewrite (nfkc_plain L HL y Hplain).
rewrite (proj1 (translate_plain y Hplain)).
rewrite (lower_plain L HL y Hplain).
rewrite (collapse_repeats_no_triple y Hrun).
rewrite (replace_emoji_plain L HL y Hplain).
rewrite (proj2 (translate_plain y Hplain)).
rewrite (blank_disallowed_plain y Hplain).
exact Hjoin.
Qed.
End Idempotence.

Lemma ascii_lower_plain (y : str) :
forallb plain_char y = true -> map ascii_lower y = y.
Proof.
induction y as [|c y IH]; simpl; intros H; [reflexivity|].
apply andb_prop in H. destruct H as [Hc Hy]. rewrite IH by assumption.
f_equal. unfold ascii_lower.
destruct (is_ascii_upper c) eqn:E; [|reflexivity].
exfalso. unfold is_ascii_upper, in_range in E.
apply andb_prop in E. destruct E as [E1 E2].
apply N.leb_le in E1, E2.
unfold plain_char, word_char, allowed_char, is_ascii_lower, is_ascii_digit,
  is_space, in_range in Hc.
assert (Hlo : (c <=? 57) = false) by (apply N.leb_gt; lia).
assert (Hhi : (97 <=? c) = false) by (apply N.leb_gt; lia).
rewrite Hlo, Hhi in Hc.
assert (Hne : forall k, (k < 65 \/ 90 < k) -> (c =? k) = false)
  by (intros k Hk; apply N.eqb_neq; lia).
simpl in Hc.
rewrite ?andb_false_r, ?andb_false_l, ?orb_false_l in Hc.
repeat (rewrite Hne in Hc by lia).
assert (H1 : (c <=? 13) = false) by (apply N.leb_gt; lia).
assert (H2 : (c <=? 32) = false) by (apply N.leb_gt; lia).
assert (H3 : (8192 <=? c) = false) by (apply N.leb_gt; lia).
rewrite H1, H2, H3 in Hc.
rewrite ?andb_false_r, ?andb_false_l, ?orb_false_l in Hc.
simpl in Hc. discriminate.
Qed.

Lemma plain_ascii_libs_stable : plain_stable plain_ascii_libs.
Proof.
constructor; simpl; intros y Hy; try reflexivity.
now apply ascii_lower_plain.
Qed.

Lemma normalize_text_idempotent_without_runs_witness :
@normalize_text plain_ascii_libs
  (PyStr (@normalize_text plain_ascii_libs (PyStr text_stretched)))
= @normalize_text plain_ascii_libs (PyStr text_stretched).
Proof.
apply (@normalize_text_idempotent_without_runs plain_ascii_libs
         (PyStr text_stretched) plain_ascii_libs_stable).
vm_compute. reflexivity.
Defined.

(** C6 as stated does not hold: "i1i" normalises to "iii" (the leetspeak
    step runs after the run-collapsing step), and "iii" normalises to
    "ii". *)
Lemma normalize_text_not_idempotent :
@normalize_text plain_ascii_libs
  (PyStr (@normalize_text plain_ascii_libs (PyStr text_leet_run)))
<> @normalize_text plain_ascii_libs (PyStr text_leet_run).
Proof. vm_compute. discriminate. Qed.

(* ================================================================== *)
(** * Redaction *)
(* ================================================================== *)

(** ** Slices *)

Lemma clamp_index_inside (len i : Z) :
(0 <= i <= len)%Z -> clamp_index len i = i.
Proof.
intros H. unfold clamp_index.
destruct (i <? 0)%Z eqn:E; [apply Z.ltb_lt in E; lia | lia].
Qed.

Lemma slice_from_zero {A} (s : list A) : slice_from s 0 = s.
Proof.
unfold slice_from. rewrite clamp_index_inside by lia. reflexivity.
Qed.

Lemma slice_as_skipn {A} (s : list A) (a b : Z) :
(0 <= a <= Z.of_nat (length s))%Z -> (0 <= b <= Z.of_nat (length s))%Z ->
slice s a b = firstn (Z.to_nat (b - a)) (skipn (Z.to_nat a) s).
Proof.
intros Ha Hb. unfold slice. now rewrite !clamp_index_inside.
Qed.

Lemma slice_from_split {A} (s : list A) (a b : Z) :
(0 <= a <= b)%Z -> (b <= Z.of_nat (length s))%Z ->
slice_from s a = slice s a b ++ slice_from s b.
Proof.
intros Hab Hb. rewrite slice_as_skipn by lia.
unfold slice_from. rewrite !clamp_index_inside by lia.
replace (Z.to_nat b) with (Z.to_nat (b - a) + Z.to_nat a)%nat by lia.
rewrite <- skipn_skipn. now rewrite firstn_skipn.
Qed.

Lemma firstn_plus {A} (m n : nat) (l : list A) :
firstn (m + n) l = firstn m l ++ firstn n (skipn m l).
Proof.
revert l. induction m as [|m IH]; intros l; [reflexivity|].
destruct l as [|x l]; simpl.
- now rewrite firstn_nil.
- now rewrite IH.
Qed.

Lemma slice_split {A} (s : list A) (a b c : Z) :
(0 <= a <= b)%Z -> (b <= c <= Z.of_nat (length s))%Z ->
slice s a c = slice s a b ++ slice s b c.
Proof.
intros Hab Hbc. rewrite !slice_as_skipn by lia.
replace (Z.to_nat (c - a)) with (Z.to_nat (b - a) + Z.to_nat (c - b))%nat
  by lia.
rewrite firstn_plus. f_equal. rewrite skipn_skipn.
now replace (Z.to_nat (b - a) + Z.to_nat a)%nat with (Z.to_nat b) by lia.
Qed.

Lemma slice_length {A} (s : list A) (a b : Z) :
(0 <= a <= b)%Z -> (b <= Z.of_nat (length s))%Z ->
Z.of_nat (length (slice s a b)) = (b - a)%Z.
Proof.
intros Hab Hb. rewrite slice_as_skipn by lia.
rewrite length_firstn, length_skipn. lia.
Qed.

(** ** Sorting by start offset *)

Lemma insert_by_start_perm (h : hit) (l : list hit) :
Permutation (insert_by_start h l) (h :: l).
Proof.
induction l as [|x l IH]; simpl; [reflexivity|].
destruct (fst (hit_span h) <=? fst (hit_span x))%Z; [reflexivity|].
rewrite IH. apply perm_swap.
Qed.

Lemma sorted_by_start_perm (hits : list hit) :
Permutation (sorted_by_start hits) hits.
Proof.
induction hits as [|h l IH]; simpl; [reflexivity|].
rewrite insert_by_start_perm. now constructor.
Qed.

Lemma insert_by_start_sorted (h : hit) (l : list hit) :
StronglySorted (fun a b => (hit_start a <= hit_start b)%Z) l ->
StronglySorted (fun a b => (hit_start a <= hit_start b)%Z)
               (insert_by_start h l).
Proof.
induction l as [|x l IH]; simpl; intros Hs.
- constructor; constructor.
- inversion Hs as [|? ? Hl Hx]; subst.
  destruct (fst (hit_span h) <=? fst (hit_span x))%Z eqn:E.
  + apply Z.leb_le in E. constructor; [assumption|].
    constructor; [exact E|].
    eapply Forall_impl; [|exact Hx]. intros a Ha.
    unfold hit_start in *. lia.
  + apply Z.leb_gt in E. constructor; [now apply IH|].
    eapply Permutation_Forall;
      [symmetry; apply insert_by_start_perm|].
    constructor; [unfold hit_start; lia | assumption].
Qed.

Lemma sorted_by_start_sorted (hits : list hit) :
StronglySorted (fun a b => (hit_start a <= hit_start b)%Z)
               (sorted_by_start hits).
Proof.
induction hits as [|h l IH]; simpl; [constructor|].
now apply insert_by_start_sorted.
Qed.

(** Hits with equal start offsets keep their input order. *)
Lemma insert_by_start_stable (k : Z) (h : hit) (l : list hit) :
StronglySorted (fun a b => (hit_start a <= hit_start b)%Z) l ->
filter (fun x => (hit_start x =? k)%Z) (insert_by_start h l)
= filter (fun x => (hit_start x =? k)%Z) (h :: l).
Proof.
induction l as [|x l IH]; intros Hs; [reflexivity|].
inversion Hs as [|? ? Hl Hx]; subst.
cbn [insert_by_start].
destruct (fst (hit_span h) <=? fst (hit_span x))%Z eqn:E; [reflexivity|].
apply Z.leb_gt in E. cbn [filter]. rewrite IH by assumption. cbn [filter].
destruct (hit_start x =? k)%Z eqn:Ex; [|reflexivity].
destruct (hit_start h =? k)%Z eqn:Eh; [|reflexivity].
apply Z.eqb_eq in Ex, Eh. unfold hit_start in *. lia.
Qed.

Lemma sorted_by_start_stable (k : Z) (hits : list hit) :
filter (fun x => (hit_start x =? k)%Z) (sorted_by_start hits)
= filter (fun x => (hit_start x =? k)%Z) hits.
Proof.
induction hits as [|h l IH]; [reflexivity|].
cbn [sorted_by_start].
rewrite insert_by_start_stable by apply sorted_by_start_sorted.
cbn [filter]. now rewrite IH.
Qed.

(** ** Overlap *)

Lemma _overlaps_false (h : hit) (l : list hit) :
_overlaps (hit_span h) (map hit_span l) = false <->
Forall (disjoint_hits h) l.
Proof.
unfold disjoint_hits, hit_start, hit_end.
destruct (hit_span h) as [s e]. cbn [fst snd].
induction l as [|x l IH]; cbn [map _overlaps].
- split; [constructor | reflexivity].
- destruct (hit_span x) as [s' e'] eqn:Ex.
  destruct (e <=? s')%Z eqn:E1; destruct (s >=? e')%Z eqn:E2; cbn [orb negb];
    rewrite ?IH; (split; [intros H | intros H; inversion H; subst]);
    try (constructor; [rewrite Ex; cbn [fst snd]; lia | assumption]);
    try assumption; try discriminate;
    rewrite Ex in *; cbn [fst snd] in *; lia.
Qed.

Lemma non_overlapping_pairs (l : list hit) :
non_overlapping l = true <-> ForallOrdPairs disjoint_hits l.
Proof.
induction l as [|h l IH]; cbn [non_overlapping].
- split; [constructor | reflexivity].
- rewrite andb_true_iff, negb_true_iff, _overlaps_false, IH.
  split; [intros [H1 H2]; now constructor | intros H; inversion H; auto].
Qed.

Lemma disjoint_hits_sym (a b : hit) : disjoint_hits a b -> disjoint_hits b a.
Proof. unfold disjoint_hits. lia. Qed.

Lemma insert_by_start_pairs (h : hit) (l : list hit) :
Forall (disjoint_hits h) l -> ForallOrdPairs disjoint_hits l ->
ForallOrdPairs disjoint_hits (insert_by_start h l).
Proof.
induction l as [|x l IH]; cbn [insert_by_start]; intros Hh Hl.
- constructor; constructor.
- destruct (fst (hit_span h) <=? fst (hit_span x))%Z.
  + now constructor.
  + inversion Hh; subst. inversion Hl; subst.
    constructor; [|now apply IH].
    eapply Permutation_Forall; [symmetry; apply insert_by_start_perm|].
    constructor; [now apply disjoint_hits_sym | assumption].
Qed.

Lemma sorted_by_start_pairs (l : list hit) :
ForallOrdPairs disjoint_hits l ->
ForallOrdPairs disjoint_hits (sorted_by_start l).
Proof.
induction l as [|h l IH]; cbn [sorted_by_start]; intros H;
  [constructor|].
inversion H; subst. apply insert_by_start_pairs; [|now apply IH].
eapply Permutation_Forall; [symmetry; apply sorted_by_start_perm|].
assumption.
Qed.

(** ** Subsequences *)

Lemma subseq_refl {A} (l : list A) : subseq l l.
Proof. induction l; constructor; assumption. Qed.

Lemma subseq_app {A} (a b c d : list A) :
subseq a b -> subseq c d -> subseq (a ++ c) (b ++ d).
Proof.
intros Hab Hcd. induction Hab; simpl; try assumption; constructor; assumption.
Qed.

Lemma subseq_prefix {A} (x a b : list A) : subseq a b -> subseq a (x ++ b).
Proof. intros H. induction x; simpl; [assumption | now constructor]. Qed.

(** ** Characters outside the spans *)

Lemma keep_outside_app (H : list hit) (i : Z) (u v : str) :
keep_outside H i (u ++ v)
= keep_outside H i u ++ keep_outside H (i + Z.of_nat (length u)) v.
Proof.
revert i. induction u as [|c u IH]; intros i.
- simpl. now rewrite Z.add_0_r.
- cbn [app keep_outside length]. rewrite IH.
  replace (i + 1 + Z.of_nat (length u))%Z
    with (i + Z.of_nat (S (length u)))%Z by lia.
  destruct (covered H i); reflexivity.
Qed.

Lemma keep_outside_subseq (H : list hit) (i : Z) (u : str) :
subseq (keep_outside H i u) u.
Proof.
revert i. induction u as [|c u IH]; intros i; cbn [keep_outside].
- constructor.
- destruct (covered H i); constructor; apply IH.
Qed.

Lemma keep_outside_covered (H : list hit) (i : Z) (u : str) :
(forall j, (i <= j < i + Z.of_nat (length u))%Z -> covered H j = true) ->
keep_outside H i u = [].
Proof.
revert i. induction u as [|c u IH]; intros i Hc; [reflexivity|].
cbn [keep_outside]. rewrite Hc by (cbn [length]; lia).
apply IH. intros j Hj. apply Hc. cbn [length]. lia.
Qed.

Lemma keep_outside_uncovered (H : list hit) (i : Z) (u : str) :
(forall j, (i <= j < i + Z.of_nat (length u))%Z -> covered H j = false) ->
keep_outside H i u = u.
Proof.
revert i. induction u as [|c u IH]; intros i Hc; [reflexivity|].
cbn [keep_outside]. rewrite Hc by (cbn [length]; lia).
f_equal. apply IH. intros j Hj. apply Hc. cbn [length]. lia.
Qed.

Lemma keep_outside_ext (H H' : list hit) (i : Z) (u : str) :
(forall j, covered H j = covered H' j) ->
keep_outside H i u = keep_outside H' i u.
Proof.
intros E. revert i. induction u as [|c u IH]; intros i; [reflexivity|].
cbn [keep_outside]. now rewrite E, IH.
Qed.

Lemma covered_true (H : list hit) (j : Z) :
covered H j = true <->
exists h, In h H /\ (hit_start h <= j < hit_end h)%Z.
Proof.
unfold covered. rewrite existsb_exists.
split; intros (h & Hin & Hj); exists h; (split; [assumption|]).
- apply andb_prop in Hj. destruct Hj as [H1 H2].
  apply Z.leb_le in H1. apply Z.ltb_lt in H2. lia.
- apply andb_true_intro. split; [apply Z.leb_le | apply Z.ltb_lt]; lia.
Qed.

Lemma covered_false (H : list hit) (j : Z) :
covered H j = false <->
forall h, In h H -> (j < hit_start h \/ hit_end h <= j)%Z.
Proof.
split.
- intros Hc h Hin.
  destruct (Z_lt_dec j (hit_start h)) as [|Hn]; [now left|].
  destruct (Z_le_dec (hit_end h) j) as [|Hm]; [now right|].
  assert (covered H j = true) by (apply covered_true; exists h; split; [assumption | lia]).
  congruence.
- intros Hall. destruct (covered H j) eqn:E; [|reflexivity].
  apply covered_true in E. destruct E as (h & Hin & Hj).
  destruct (Hall h Hin); lia.
Qed.

Lemma covered_perm (H H' : list hit) (j : Z) :
Permutation H H' -> covered H j = covered H' j.
Proof.
intros HP.
destruct (covered H j) eqn:E; symmetry.
- apply covered_true in E. destruct E as (h & Hin & Hj).
  apply covered_true. exists h. split; [|assumption].
  now apply (Permutation_in _ HP).
- apply covered_false. intros h Hin.
  apply (proj1 (covered_false H j) E).
  now apply (Permutation_in _ (Permutation_sym HP)).
Qed.

(** The text from offset [a] on, split at [b]. *)
Lemma keep_outside_split (H : list hit) (text : str) (a b : Z) :
(0 <= a <= b)%Z -> (b <= Z.of_nat (length text))%Z ->
keep_outside H a (slice_from text a)
= keep_outside H a (slice text a b) ++ keep_outside H b (slice_from text b).
Proof.
intros Hab Hb. rewrite (slice_from_split text a b) by assumption.
rewrite keep_outside_app. rewrite slice_length by assumption.
now replace (a + (b - a))%Z with b by lia.
Qed.

Lemma keep_outside_skip (H : list hit) (text : str) (h : hit) (a : Z) :
In h H -> (0 <= a)%Z -> (hit_start h <= a <= hit_end h)%Z ->
(hit_end h <= Z.of_nat (length text))%Z ->
keep_outside H a (slice_from text a)
= keep_outside H (hit_end h) (slice_from text (hit_end h)).
Proof.
intros Hin Ha Hs He.
rewrite (keep_outside_split H text a (hit_end h)) by lia.
rewrite keep_outside_covered; [reflexivity|].
intros j Hj. rewrite slice_length in Hj by lia.
apply covered_true. exists h. split; [assumption | lia].
Qed.

Section RedactFacts.
Context {U : Unicode}.

Lemma in_bounds_spec (text : str) (h : hit) :
in_bounds text h = true <->
(0 <= hit_start h <= hit_end h)%Z /\ (hit_end h <= Z.of_nat (length text))%Z.
Proof.
unfold in_bounds. rewrite !andb_true_iff, !Z.leb_le. lia.
Qed.

Lemma redact_parts_weave (text : str) (last_index : Z) (hits : list hit) :
concat (redact_parts text last_index hits)
= weave (gaps_between text last_index hits) (map mask_of hits).
Proof.
revert last_index. induction hits as [|h rest IH]; intros last_index.
- simpl. apply app_nil_r.
- cbn [redact_parts gaps_between map weave].
  unfold hit_start, hit_end. destruct (hit_span h) as [s e]. cbn [fst snd].
  cbn [concat]. rewrite concat_app, IH. reflexivity.
Qed.

(** The characters outside every span survive, in order, whatever the
    hits are. *)
Lemma redact_parts_keeps_outside (text : str) (H hits : list hit) :
forall last_index lb,
incl hits H -> forallb (in_bounds text) hits = true ->
(0 <= last_index <= lb)%Z -> (lb <= Z.of_nat (length text))%Z ->
subseq (keep_outside H lb (slice_from text lb))
       (concat (redact_parts text last_index hits)).
Proof.
induction hits as [|h rest IH]; intros last_index lb Hin Hb Hl Hlen.
- cbn [redact_parts concat]. rewrite app_nil_r.
  rewrite (slice_from_split text last_index lb) by lia.
  apply subseq_prefix. apply keep_outside_subseq.
- cbn [forallb] in Hb. apply andb_prop in Hb. destruct Hb as [Hh Hb].
  apply in_bounds_spec in Hh.
  assert (HinH : In h H) by (apply Hin; now left).
  assert (Hrest : incl rest H) by (intros x Hx; apply Hin; now right).
  cbn [redact_parts]. unfold hit_start, hit_end in *.
  destruct (hit_span h) as [s e] eqn:Esp. cbn [fst snd] in *.
  cbn [concat]. rewrite concat_app.
  destruct (Z_lt_dec lb s) as [Hlt | Hge].
  + rewrite (keep_outside_split H text lb s) by lia.
    rewrite (keep_outside_skip H text h s HinH) by
      (unfold hit_start, hit_end; rewrite ?Esp; cbn [fst snd]; lia).
    unfold hit_end. rewrite Esp. cbn [snd].
    apply subseq_app.
    * rewrite (slice_split text last_index lb s) by lia.
      apply subseq_prefix. apply keep_outside_subseq.
    * apply subseq_prefix. apply IH; try assumption; lia.
  + apply subseq_prefix. apply subseq_prefix.
    destruct (Z_le_dec e lb) as [Hle | Hgt].
    * apply IH; try assumption; lia.
    * rewrite (keep_outside_skip H text h lb HinH) by
        (unfold hit_start, hit_end; rewrite ?Esp; cbn [fst snd]; lia).
      unfold hit_end. rewrite Esp. cbn [snd].
      apply IH; try assumption; lia.
Qed.

Lemma chained_starts (text : str) (last_index : Z) (hits : list hit) :
chained text last_index hits ->
Forall (fun h => (last_index <= hit_start h)%Z) hits.
Proof.
revert last_index. induction hits as [|h rest IH]; intros last_index Hc.
- constructor.
- destruct Hc as (H1 & H2 & H3 & Hc). constructor; [assumption|].
  eapply Forall_impl; [|apply (IH _ Hc)]. intros x Hx. simpl in Hx. lia.
Qed.

(** Chained hits cut the text into the gaps the loop copies and the
    spans themselves. *)
Lemma chained_text_weave (text : str) (last_index : Z) (hits : list hit) :
(0 <= last_index)%Z -> chained text last_index hits ->
slice_from text last_index
= weave (gaps_between text last_index hits) (map (span_text text) hits).
Proof.
revert last_index. induction hits as [|h rest IH]; intros last_index H0 Hc.
- reflexivity.
- destruct Hc as (H1 & H2 & H3 & Hc).
  cbn [gaps_between map weave]. unfold span_text at 1.
  rewrite <- IH by (assumption || lia).
  rewrite (slice_from_split text last_index (hit_start h)) by lia.
  f_equal. apply slice_from_split; lia.
Qed.

Lemma chained_gaps_outside (text : str) (prev hits : list hit) :
forall last_index,
(0 <= last_index)%Z -> chained text last_index hits ->
(last_index <= Z.of_nat (length text))%Z ->
Forall (fun h => (hit_end h <= last_index)%Z) prev ->
concat (gaps_between text last_index hits)
= keep_outside (prev ++ hits) last_index (slice_from text last_index).
Proof.
revert prev. induction hits as [|h rest IH]; intros prev last_index H0 Hc Hlen Hprev.
- cbn [gaps_between concat]. rewrite !app_nil_r.
  symmetry. apply keep_outside_uncovered. intros j Hj.
  apply covered_false. intros x Hx. right.
  rewrite Forall_forall in Hprev. specialize (Hprev x Hx). lia.
- pose proof (chained_starts _ _ _ Hc) as Hst.
  destruct Hc as (H1 & H2 & H3 & Hc).
  cbn [gaps_between concat].
  rewrite (keep_outside_split (prev ++ h :: rest) text last_index (hit_start h))
    by lia.
  rewrite (keep_outside_skip (prev ++ h :: rest) text h (hit_start h))
    by (try lia; apply in_or_app; right; now left).
  f_equal.
  + symmetry. apply keep_outside_uncovered. intros j Hj.
    rewrite slice_length in Hj by lia.
    apply covered_false. intros x Hx. apply in_app_or in Hx.
    destruct Hx as [Hx | Hx].
    * right. rewrite Forall_forall in Hprev. specialize (Hprev x Hx). lia.
    * left. rewrite Forall_forall in Hst. specialize (Hst x Hx). 
      destruct Hx as [<- | Hx]; [lia|].
      pose proof (chained_starts _ _ _ Hc) as Hst'.
      rewrite Forall_forall in Hst'. specialize (Hst' x Hx). lia.
  + replace (prev ++ h :: rest) with ((prev ++ [h]) ++ rest)
      by (rewrite <- app_assoc; reflexivity).
    apply IH; try assumption; try lia.
    apply Forall_app. split.
    * eapply Forall_impl; [|exact Hprev]. intros x Hx. simpl in Hx. lia.
    * constructor; [lia | constructor].
Qed.

(** Sorted, pairwise disjoint, non-empty, in-bounds hits are chained. *)
Lemma sorted_disjoint_chained (text : str) (hits : list hit) :
forall last_index,
StronglySorted (fun a b => (hit_start a <= hit_start b)%Z) hits ->
ForallOrdPairs disjoint_hits hits ->
forallb (in_bounds text) hits = true ->
forallb nonempty_span hits = true ->
Forall (fun h => (last_index <= hit_start h)%Z) hits ->
chained text last_index hits.
Proof.
induction hits as [|h rest IH]; intros last_index Hs Hd Hb Hn Hl;
  [exact I|].
inversion Hs as [|? ? Hs' Hle]; subst.
inversion Hd as [|? ? Hdh Hd']; subst.
inversion Hl as [|? ? Hlh Hl']; subst.
cbn [forallb] in Hb, Hn.
apply andb_prop in Hb. destruct Hb as [Hbh Hb].
apply andb_prop in Hn. destruct Hn as [Hnh Hn].
apply in_bounds_spec in Hbh.
cbn [chained]. repeat (split; [lia|]).
apply IH; try assumption.
rewrite Forall_forall in *. intros x Hx.
specialize (Hle x Hx). specialize (Hdh x Hx).
assert (Hxn : nonempty_span x = true)
  by (apply (proj1 (forallb_forall _ _) Hn x Hx)).
unfold nonempty_span in Hxn. apply Z.ltb_lt in Hxn.
unfold disjoint_hits in Hdh. lia.
Qed.
End RedactFacts.

Section RedactTheorems.
Context {U : Unicode}.

Lemma redact_weave (text : str) (hits : list hit) :
redact text hits
= weave (gaps_between text 0 (sorted_by_start hits))
        (map mask_of (sorted_by_start hits)).
Proof.
unfold redact. destruct hits as [|h rest].
- simpl. symmetry. apply slice_from_zero.
- apply redact_parts_weave.
Qed.

(** C8, as the code has it.  [redact(text, [])] is [text].  For hits
    whose spans lie inside the text, the characters outside every span
    appear in the output verbatim and in their original order.  When
    moreover the spans are non-empty and no two overlap, the output is
    the text with each span, and nothing else, replaced by the mask of
    its hit: text and output are woven from the same unmatched slices,
    which together are exactly the characters outside the spans. *)
Theorem redact_keeps_unmatched_text :
(forall text, redact text [] = text) /\
(forall text hits,
   forallb (in_bounds text) hits = true ->
   subseq (outside text hits) (redact text hits)) /\
(forall text hits,
   forallb (in_bounds text) hits = true ->
   forallb nonempty_span hits = true ->
   non_overlapping hits = true ->
   let hs := sorted_by_start hits in
   let gaps := gaps_between text 0 hs in
   text = weave gaps (map (span_text text) hs) /\
   redact text hits = weave gaps (map mask_of hs) /\
   concat gaps = outside text hits).
Proof.
split; [reflexivity | split].
- intros text hits Hb. unfold outside, redact.
  destruct hits as [|h rest]; [apply keep_outside_subseq|].
  rewrite <- (slice_from_zero text) at 1.
  apply redact_parts_keeps_outside.
  + intros x Hx. apply (Permutation_in _ (sorted_by_start_perm _) Hx).
  + apply forallb_forall. intros x Hx.
    apply (proj1 (forallb_forall _ _) Hb).
    apply (Permutation_in _ (sorted_by_start_perm _) Hx).
  + lia.
  + lia.
- intros text hits Hb Hn Hd hs gaps.
  assert (HP : Permutation hs hits) by apply sorted_by_start_perm.
  assert (Hc : chained text 0 hs).
  { apply sorted_disjoint_chained.
    - apply sorted_by_start_sorted.
    - apply sorted_by_start_pairs. now apply non_overlapping_pairs.
    - apply forallb_forall. intros x Hx.
      apply (proj1 (forallb_forall _ _) Hb). apply (Permutation_in _ HP Hx).
    - apply forallb_forall. intros x Hx.
      apply (proj1 (forallb_forall _ _) Hn). apply (Permutation_in _ HP Hx).
    - apply Forall_forall. intros x Hx.
      assert (Hx' : in_bounds text x = true)
        by (apply (proj1 (forallb_forall _ _) Hb);
            apply (Permutation_in _ HP Hx)).
      apply in_bounds_spec in Hx'. lia. }
  split; [|split].
  + rewrite <- (slice_from_zero text) at 1.
    apply chained_text_weave; [lia | exact Hc].
  + apply redact_weave.
  + unfold gaps, outside.
    rewrite (chained_gaps_outside text [] hs 0) by (lia || auto).
    rewrite slice_from_zero. cbn [app].
    apply keep_outside_ext. intros j. now apply covered_perm.
Qed.

(** C9, as the code has it.  [redact] neither rejects nor deduplicates:
    it puts the hits in ascending order of start offset, hits with equal
    starts staying in their input order (the kind name plays no part),
    and writes the mask of every one of them, each after the slice of
    text that runs from the end of the hit before it to its own start. *)
Theorem redact_applies_every_hit (text : str) (hits : list hit) :
let hs := sorted_by_start hits in
redact text hits = weave (gaps_between text 0 hs) (map mask_of hs) /\
Permutation hs hits /\
StronglySorted (fun a b => (hit_start a <= hit_start b)%Z) hs /\
(forall k, filter (fun h => (hit_start h =? k)%Z) hs
           = filter (fun h => (hit_start h =? k)%Z) hits).
Proof.
intros hs. split; [apply redact_weave | split; [|split]].
- apply sorted_by_start_perm.
- apply sorted_by_start_sorted.
- intros k. apply sorted_by_start_stable.
Qed.
End RedactTheorems.

Lemma redact_keeps_unmatched_text_witness :
@redact ascii_only text_email_card hits_email_card
= weave [codes "mail "; codes " card "; codes " ok"]
        [codes "bo***@example.com"; codes "**** **** **** 1111"] /\
text_email_card
= weave [codes "mail "; codes " card "; codes " ok"]
        [codes "bob.smith@example.com"; codes "4111-1111 1111 1111"].
Proof.
destruct (proj2 (proj2 (@redact_keeps_unmatched_text ascii_only))
            text_email_card hits_email_card eq_refl eq_refl eq_refl)
  as (Htext & Hout & _).
split; [rewrite Hout | rewrite Htext at 1]; reflexivity.
Defined.

(** C8 as stated does not hold: for in-bounds hits no two of which
    overlap, the matched spans need not be what the masks replace.  With
    an empty span at the start of a hit given before it, the loop steps
    back to that offset, and the text of the longer span is copied after
    the two masks: text and output are not woven from the same unmatched
    slices, and those slices are more than the characters outside the
    spans. *)
Lemma redact_empty_span_copies_span_text :
forallb (in_bounds text_hello) hits_with_empty_span = true /\
non_overlapping hits_with_empty_span = true /\
@redact ascii_only text_hello hits_with_empty_span
= codes "**** **** **** 1111a***@b.cohello world" /\
outside text_hello hits_with_empty_span = codes " world" /\
text_hello
<> weave (gaps_between text_hello 0 (sorted_by_start hits_with_empty_span))
         (map (span_text text_hello) (sorted_by_start hits_with_empty_span)) /\
concat (gaps_between text_hello 0 (sorted_by_start hits_with_empty_span))
<> outside text_hello hits_with_empty_span.
Proof.
repeat split; try (vm_compute; reflexivity); vm_compute; discriminate.
Qed.

(** Two hits on one span with different kinds: the order in which they
    were given decides the order of their masks. *)
Remark redact_ties_follow_input_order :
@redact ascii_only text_two_kinds [hit_as_phone; hit_as_card]
<> @redact ascii_only text_two_kinds [hit_as_card; hit_as_phone].
Proof. vm_compute. discriminate. Qed.

(** C9 as stated does not hold: on two overlapping hits the output is not
    what dropping the later hit would give; both masks are written. *)
Lemma redact_does_not_deduplicate :
non_overlapping hits_phone_in_email = false /\
@redact ascii_only text_phone_in_email hits_phone_in_email
<> @redact ascii_only text_phone_in_email
     (deduplicated_spec hits_phone_in_email).
Proof. split; [reflexivity | vm_compute; discriminate]. Qed.

(* ================================================================== *)
(** * Card detection *)
(* ================================================================== *)

Section CardFacts.
Context {U : Unicode}.

Lemma digits_only_app (u v : str) :
digits_only (u ++ v) = digits_only u ++ digits_only v.
Proof. unfold digits_only. apply filter_app. Qed.

Lemma digits_only_idem (s : str) : digits_only (digits_only s) = digits_only s.
Proof.
unfold digits_only. induction s as [|c s IH]; [reflexivity|].
cbn [filter]. destruct (is_digit c) eqn:E; [|assumption].
cbn [filter]. now rewrite E, IH.
Qed.

Lemma luhn_loop_sum (digits : list Z) (checksum : Z) (is_alt : bool) :
luhn_loop digits checksum is_alt = (checksum + luhn_sum digits is_alt)%Z.
Proof.
revert checksum is_alt. induction digits as [|d rest IH];
  intros checksum is_alt; cbn [luhn_loop luhn_sum]; [lia|].
rewrite IH. replace (d * 2)%Z with (2 * d)%Z by lia.
destruct is_alt; [destruct (2 * d >? 9)%Z|]; lia.
Qed.

(** On 13 to 19 digits [_luhn_ok] is the mod-10 check. *)
Lemma _luhn_ok_spec (s : str) :
_luhn_ok s
= (13 <=? length (digits_only s))%nat && (length (digits_only s) <=? 19)%nat
  && luhn_passes (digits_only s).
Proof.
unfold _luhn_ok, luhn_passes. rewrite length_map, luhn_loop_sum.
destruct ((13 <=? length (digits_only s))%nat
          && (length (digits_only s) <=? 19)%nat); reflexivity.
Qed.

(** ** The digits of a candidate *)

Lemma matches_Cat_inv (a b : regex) (c1 c3 : cursor) :
matches (Cat a b) c1 c3 -> exists c2, matches a c1 c2 /\ matches b c2 c3.
Proof. intros H. inversion H; subst. eauto. Qed.

Lemma matches_WordB_inv (c1 c2 : cursor) : matches WordB c1 c2 -> c1 = c2.
Proof. intros H. now inversion H. Qed.






End CardFacts.

(** ** Cursors stay inside the text *)

Section CursorFacts.
Context {U : Unicode}.




End CursorFacts.

(** ** The hits of the card pass *)

Section CardHits.
Context {U : Unicode}.
Context (phonenumbers : option (str -> option str)).

Lemma email_hits_kind (text : str) (g : list span) (h : hit) :
In h (email_hits text g) -> hit_kind h = "EMAIL"%string.
Proof.
unfold email_hits. intros H. apply in_flat_map in H.
destruct H as (m & _ & H).
destruct (negb (_overlaps (m_span m) g)); [|destruct H].
destruct H as [<- | []]. reflexivity.
Qed.

Lemma phone_hits_kind (text : str) (g : list span) (h : hit) :
In h (phone_hits phonenumbers text g) -> hit_kind h = "PHONE"%string.
Proof.
unfold phone_hits. destruct phonenumbers as [f|]; [|intros []].
intros H. apply in_flat_map in H. destruct H as (m & _ & H).
destruct (_overlaps (m_span m) g); [destruct H|].
destruct (f (m_group m)); [|destruct H].
destruct H as [<- | []]. reflexivity.
Qed.



End CardHits.

(** ** A fenced block is a guarded span *)

Section FenceFacts.
Context {U : Unicode}.









End FenceFacts.

(** ** Card hits *)

Section CardTheorem.
Context {U : Unicode}.
Context (phonenumbers : option (str -> option str)).




End CardTheorem.



(* ================================================================== *)
(** * Further properties of the tier policy *)
(* ================================================================== *)

Lemma SFcompare_le_trans a b c :
(SFcompare a b = Some Lt \/ SFcompare a b = Some Eq) ->
(SFcompare b c = Some Lt \/ SFcompare b c = Some Eq) ->
(SFcompare a c = Some Lt \/ SFcompare a c = Some Eq).
Proof.
destruct a as [s|s| |s m e], b as [s'|s'| |s' m' e'],
         c as [s''|s''| |s'' m'' e''];
  simpl; intros [H1 | H1] [H2 | H2]; try congruence;
  apply (f_equal (fun o => match o with Some x => x | None => Eq end)) in H1;
  apply (f_equal (fun o => match o with Some x => x | None => Eq end)) in H2;
  cbv beta iota in H1, H2; revert H1 H2;
  repeat match goal with
  | s : bool |- _ => destruct s
  end; simpl; try congruence; auto;
  repeat match goal with
  | |- context [(?a ?= ?b)%Z] => destruct (Z.compare_spec a b)
  | |- context [PosDef.Pos.compare_cont Eq ?a ?b] =>
      change (PosDef.Pos.compare_cont Eq a b) with (Pos.compare a b);
      destruct (Pos.compare_spec a b)
  end; simpl; try congruence; auto; try lia.
Qed.

Lemma leb_compare (a b : float) :
(a <=? b)%float = true <->
(SFcompare (Prim2SF a) (Prim2SF b) = Some Lt \/
 SFcompare (Prim2SF a) (Prim2SF b) = Some Eq).
Proof.
rewrite leb_spec. unfold SFleb.
destruct (SFcompare (Prim2SF a) (Prim2SF b)) as [[ | | ]|];
  split; try tauto; try congruence; intros [H | H]; congruence.
Qed.

Lemma float_leb_trans (a b c : float) :
(a <=? b)%float = true -> (b <=? c)%float = true -> (a <=? c)%float = true.
Proof. rewrite !leb_compare. apply SFcompare_le_trans. Qed.

(** X1.  The tier policy is monotone: a probability that is at least as
    large gets a tier that is at least as high, whatever the three
    thresholds are. *)
Theorem initial_tier_monotone (A : artifacts) (p q : float) :
(p <=? q)%float = true ->
(tier_rank (initial_tier A p) <= tier_rank (initial_tier A q))%nat.
Proof.
intros Hpq. unfold initial_tier.
destruct (high (POLICY A) <=? p)%float eqn:Hh.
- rewrite (float_leb_trans _ _ _ Hh Hpq). apply Nat.le_refl.
- destruct (medium (POLICY A) <=? p)%float eqn:Hm.
  + rewrite (float_leb_trans _ _ _ Hm Hpq).
    destruct (high (POLICY A) <=? q)%float; cbn; lia.
  + destruct (low (POLICY A) <=? p)%float eqn:Hl.
    * rewrite (float_leb_trans _ _ _ Hl Hpq).
      destruct (high (POLICY A) <=? q)%float;
        [|destruct (medium (POLICY A) <=? q)%float]; cbn; lia.
    * cbn. lia.
Qed.

Lemma initial_tier_monotone_witness :
(tier_rank (initial_tier (fixture_artifacts 0.5%float) 0.3%float)
 <= tier_rank (initial_tier (fixture_artifacts 0.5%float) 0.7%float))%nat.
Proof.
apply (initial_tier_monotone (fixture_artifacts 0.5%float)
         0.3%float 0.7%float).
reflexivity.
Defined.

(* ================================================================== *)
(** * Further properties of the override rules *)
(* ================================================================== *)

Section OverrideMore.
Context {U : Unicode}.

(** X2.  The override engine returns one of three things: the forced safe
    pair, the forced toxic pair, or its input; and running it again on
    its own output changes nothing. *)
Theorem apply_overrides_idempotent (text : str) (prob : float) (t : tier) :
(apply_overrides text prob t = (0.01%float, "OVERRIDE_SAFE"%string) \/
 apply_overrides text prob t = (0.99%float, "OVERRIDE_TOXIC"%string) \/
 apply_overrides text prob t = (prob, t)) /\
apply_overrides text (fst (apply_overrides text prob t))
                (snd (apply_overrides text prob t))
= apply_overrides text prob t.
Proof.
unfold apply_overrides.
destruct (any_match META_PATTERNS text); [split; [auto | reflexivity]|].
destruct (any_match BLOCKLIST_PATTERNS text); [split; [auto | reflexivity]|].
destruct (existsb (String.eqb t) ["MEDIUM"%string; "HIGH"%string]
          && any_match GENERAL_SAFELIST_PATTERNS text) eqn:E.
- split; [auto | reflexivity].
- split; [auto|]. cbn [fst snd]. now rewrite E.
Qed.

(** X3.  The engine never forces a tier without a rule behind it: a
    result OVERRIDE_TOXIC that was not the incoming tier means a
    blocklist pattern is found and no meta-discussion pattern is; a
    result OVERRIDE_SAFE that was not the incoming tier means a
    meta-discussion pattern is found, or the incoming tier was MEDIUM or
    HIGH and a general-safelist pattern is found and no blocklist pattern
    is. *)
Theorem forced_tier_has_a_rule (text : str) (prob : float) (t : tier) :
(snd (apply_overrides text prob t) = "OVERRIDE_TOXIC"%string ->
 t <> "OVERRIDE_TOXIC"%string ->
 matches_some BLOCKLIST_PATTERNS text /\ ~ matches_some META_PATTERNS text) /\
(snd (apply_overrides text prob t) = "OVERRIDE_SAFE"%string ->
 t <> "OVERRIDE_SAFE"%string ->
 matches_some META_PATTERNS text \/
 ((t = "MEDIUM"%string \/ t = "HIGH"%string) /\
  matches_some GENERAL_SAFELIST_PATTERNS text /\
  ~ matches_some BLOCKLIST_PATTERNS text)).
Proof.
unfold apply_overrides.
destruct (any_match META_PATTERNS text) eqn:Em.
{ split; [discriminate|]. intros _ _. left. now apply any_match_true. }
destruct (any_match BLOCKLIST_PATTERNS text) eqn:Eb.
{ split; [|discriminate]. intros _ _.
  split; [now apply any_match_true | now apply any_match_false]. }
destruct (existsb (String.eqb t) ["MEDIUM"%string; "HIGH"%string]) eqn:Et;
  cbn [andb].
- destruct (any_match GENERAL_SAFELIST_PATTERNS text) eqn:Eg; cbn [snd].
  + split; [discriminate|]. intros _ _. right.
    split; [|split; [now apply any_match_true | now apply any_match_false]].
    cbn [existsb] in Et. rewrite orb_false_r in Et.
    apply orb_prop in Et.
    destruct Et as [Et | Et]; apply String.eqb_eq in Et; auto.
  + split; intros H Hn; congruence.
- cbn [snd]. split; intros H Hn; congruence.
Qed.
End OverrideMore.

Lemma forced_tier_has_a_rule_witness :
@matches_some ascii_only BLOCKLIST_PATTERNS text_insult_and_safelist /\
~ @matches_some ascii_only META_PATTERNS text_insult_and_safelist.
Proof.
apply (proj1 (@forced_tier_has_a_rule ascii_only text_insult_and_safelist
                0.3%float "LOW"%string)).
- vm_compute. reflexivity.
- discriminate.
Defined.

(** ** Letter case *)

Lemma same_letter_cases (a b : char) :
same_letter a b ->
a = b \/
(in_range 65 90 a = true /\ b = a + 32) \/
(in_range 65 90 b = true /\ a = b + 32).
Proof.
unfold same_letter, ascii_lower, is_ascii_upper, in_range.
destruct (N.leb_spec 65 a), (N.leb_spec a 90), (N.leb_spec 65 b),
         (N.leb_spec b 90); cbn [andb]; intros Hab;
  try (left; lia); try (right; left; split; [reflexivity | lia]);
  try (right; right; split; [reflexivity | lia]).
Qed.

Lemma same_letter_sym (a b : char) : same_letter a b -> same_letter b a.
Proof. unfold same_letter. congruence. Qed.

Lemma same_modulo_case_sym (s t : str) :
same_modulo_case s t -> same_modulo_case t s.
Proof.
induction 1; constructor; [now apply same_letter_sym | assumption].
Qed.

Lemma upper_letter_facts (a : char) :
in_range 65 90 a = true ->
case_closure a = [a; a + 32; a] /\
case_closure (a + 32) = [a + 32; a + 32; a] /\
is_space a = false /\ is_space (a + 32) = false /\
(a <? 128) = true /\ (a + 32 <? 128) = true /\
is_ascii_alnum a = true /\ is_ascii_alnum (a + 32) = true /\
is_ascii_digit a = false /\ is_ascii_digit (a + 32) = false /\
in_range 97 122 (a + 32) = true.
Proof.
unfold in_range. intros H. apply andb_prop in H. destruct H as [H1 H2].
apply N.leb_le in H1, H2.
assert (Hleb : forall x y : N, x <= y -> (x <=? y) = true)
  by (intros; now apply N.leb_le).
assert (Hgtb : forall x y : N, y < x -> (x <=? y) = false)
  by (intros; now apply N.leb_gt).
assert (Hneq : forall x y : N, x <> y -> (x =? y) = false)
  by (intros; now apply N.eqb_neq).
assert (Hltb : forall x y : N, x < y -> (x <? y) = true)
  by (intros; now apply N.ltb_lt).
unfold case_closure, ascii_lower, ascii_upper, is_ascii_alnum, is_ascii_upper,
  is_ascii_lower, is_ascii_digit, is_space, in_range.
repeat match goal with
| |- context [?x <=? ?y] =>
    first [ rewrite (Hleb x y) by lia | rewrite (Hgtb x y) by lia ]
| |- context [?x =? ?y] => rewrite (Hneq x y) by lia
| |- context [?x <? ?y] => rewrite (Hltb x y) by lia
end.
cbn [andb orb].
replace (a + 32 - 32) with a by lia.
repeat split; reflexivity.
Qed.

Section CaseBlind.
Context {U : Unicode}.

Lemma class_matches_blind (cl : cclass) (a b : char) :
case_blind_class cl = true -> same_letter a b ->
class_matches cl a = class_matches cl b.
Proof.
intros Hcl Hab.
assert (Hcases := same_letter_cases a b Hab).
destruct Hcases as [-> | Hcases]; [reflexivity|].
assert (Hpair : exists u, in_range 65 90 u = true /\
                 ((a = u /\ b = u + 32) \/ (a = u + 32 /\ b = u))).
{ destruct Hcases as [[H ->] | [H ->]]; eauto 6. }
clear Hcases Hab. destruct Hpair as (u & Hu & Hpair).
destruct (upper_letter_facts u Hu)
  as (C1 & C2 & S1 & S2 & L1 & L2 & A1 & A2 & D1 & D2 & R2).
assert (Hsym : class_matches cl u = class_matches cl (u + 32)).
{ clear Hpair. induction cl as [ | c | lo hi | | | x IH | x IHx y IHy | x IH];
    cbn [class_matches case_blind_class] in *.
  - reflexivity.
  - apply negb_true_iff, orb_false_elim in Hcl. destruct Hcl as [Hl Hup].
    unfold is_ascii_lower, is_ascii_upper in *.
    destruct (N.eqb_spec u c) as [E|], (N.eqb_spec (u + 32) c) as [E'|];
      try reflexivity.
    + rewrite <- E in Hup. congruence.
    + rewrite <- E' in Hl. congruence.
  - unfold in_range in *. apply andb_prop in Hu. destruct Hu as [U1 U2].
    apply N.leb_le in U1, U2.
    apply orb_prop in Hcl. destruct Hcl as [H | H]; apply N.ltb_lt in H.
    + replace (u <=? hi) with false by (symmetry; apply N.leb_gt; lia).
      replace (u + 32 <=? hi) with false by (symmetry; apply N.leb_gt; lia).
      now rewrite !andb_false_r.
    + replace (lo <=? u) with false by (symmetry; apply N.leb_gt; lia).
      replace (lo <=? u + 32) with false by (symmetry; apply N.leb_gt; lia).
      reflexivity.
  - now rewrite S1, S2.
  - unfold is_digit, digit_value. now rewrite L1, L2, D1, D2.
  - now rewrite IH.
  - apply andb_prop in Hcl. destruct Hcl. now rewrite IHx, IHy.
  - rewrite C1, C2. cbn [existsb].
    destruct (class_matches x u), (class_matches x (u + 32)); reflexivity. }
destruct Hpair as [[-> ->] | [-> ->]]; [exact Hsym | now symmetry].
Qed.

Lemma is_word_blind (a b : char) : same_letter a b -> is_word a = is_word b.
Proof.
intros Hab. destruct (same_letter_cases a b Hab) as [-> | H];
  [reflexivity|].
unfold is_word.
destruct H as [[H ->] | [H ->]];
  destruct (upper_letter_facts _ H)
    as (_ & _ & _ & _ & L1 & L2 & A1 & A2 & _);
  now rewrite L1, L2, A1, A2.
Qed.

Lemma same_cursor_boundary (c c' : cursor) :
same_cursor c c' ->
word_before c = word_before c' /\ word_after c = word_after c'.
Proof.
intros (Hp & Hr & _). unfold word_before, word_after. split.
- destruct (cur_prev c), (cur_prev c'); try tauto. now apply is_word_blind.
- inversion Hr; [reflexivity|]. now apply is_word_blind.
Qed.

Lemma matches_blind (r : regex) (c1 c2 : cursor) :
matches r c1 c2 -> case_blind r = true ->
forall c1', same_cursor c1 c1' ->
exists c2', same_cursor c2 c2' /\ matches r c1' c2'.
Proof.
induction 1 as [ c | cl ch c c' Ha Hc | a b c1 c2 c3 _ IH1 _ IH2
               | a b c1 c2 _ IH | a b c1 c2 _ IH | g a c
               | g a c1 c2 c3 _ IH1 _ IH2 | g n a c
               | g n a c1 c2 c3 _ IH1 _ IH2 | a c
               | n a c1 c2 c3 _ IH1 _ IH2 | c Hb ];
  intros Hr d1 Hd; cbn [case_blind] in Hr.
- exists d1. split; [assumption | constructor].
- destruct Hd as (Hp & Hrest & Hpos). unfold advance in Ha.
  destruct (cur_rest c) as [|x rest] eqn:Ec; [discriminate|].
  inversion Ha; subst ch c'. clear Ha.
  inversion Hrest as [|x0 y rest0 rest' Hxy Hrr E1 E2]; subst.
  exists (mkCursor (Some y) rest' (S (cur_pos d1))). split.
  + repeat split; cbn; [assumption | assumption | congruence].
  + apply (M_Chr cl y).
    * unfold advance. now rewrite <- E2.
    * now rewrite <- (class_matches_blind cl x y Hr Hxy).
- apply andb_prop in Hr. destruct Hr as [Hra Hrb].
  destruct (IH1 Hra d1 Hd) as (d2 & Hd2 & M1).
  destruct (IH2 Hrb d2 Hd2) as (d3 & Hd3 & M2).
  exists d3. split; [assumption | econstructor; eassumption].
- apply andb_prop in Hr. destruct Hr as [Hra Hrb].
  destruct (IH Hra d1 Hd) as (d2 & Hd2 & M). exists d2.
  split; [assumption | now apply M_AltL].
- apply andb_prop in Hr. destruct Hr as [Hra Hrb].
  destruct (IH Hrb d1 Hd) as (d2 & Hd2 & M). exists d2.
  split; [assumption | now apply M_AltR].
- exists d1. split; [assumption | constructor].
- destruct (IH1 Hr d1 Hd) as (d2 & Hd2 & M1).
  destruct (IH2 Hr d2 Hd2) as (d3 & Hd3 & M2).
  exists d3. split; [assumption | econstructor; eassumption].
- exists d1. split; [assumption | constructor].
- destruct (IH1 Hr d1 Hd) as (d2 & Hd2 & M1).
  destruct (IH2 Hr d2 Hd2) as (d3 & Hd3 & M2).
  exists d3. split; [assumption | econstructor; eassumption].
- exists d1. split; [assumption | constructor].
- destruct (IH1 Hr d1 Hd) as (d2 & Hd2 & M1).
  destruct (IH2 Hr d2 Hd2) as (d3 & Hd3 & M2).
  exists d3. split; [assumption | econstructor; eassumption].
- exists d1. split; [assumption|]. constructor.
  destruct (same_cursor_boundary _ _ Hd) as [<- <-]. assumption.
Qed.

Lemma cursor_after_blind (pre pre' rest rest' : str) :
same_modulo_case pre pre' -> same_modulo_case rest rest' ->
forall prev prev' pos,
match prev, prev' with
| Some a, Some b => same_letter a b
| None, None => True
| _, _ => False
end ->
same_cursor (cursor_after prev pos pre rest)
            (cursor_after prev' pos pre' rest').
Proof.
intros Hpre Hrest. induction Hpre as [|x y pre pre' Hxy Hpre IH];
  intros prev prev' pos Hp.
- repeat split; assumption.
- specialize (IH (Some x) (Some y) (S pos) Hxy).
  unfold cursor_after in *. cbn [fold_left length] in *.
  destruct IH as (H1 & H2 & H3). cbn in H1, H2, H3.
  repeat split; cbn; [assumption | assumption | lia].
Qed.

Lemma occurs_in_blind (r : regex) (text text' : str) :
case_blind r = true -> same_modulo_case text text' ->
occurs_in r text -> occurs_in r text'.
Proof.
intros Hr Ht (pre & rest & e & -> & Hm).
apply Forall2_app_inv_l in Ht.
destruct Ht as (pre' & rest' & Hpre & Hrest & ->).
destruct (matches_blind r _ _ Hm Hr (cursor_after None 0 pre' rest'))
  as (e' & _ & Hm').
{ now apply cursor_after_blind. }
exists pre', rest', e'. auto.
Qed.

Lemma re_search_blind (r : regex) (text text' : str) :
case_blind r = true -> same_modulo_case text text' ->
re_search r text = re_search r text'.
Proof.
intros Hr Ht.
destruct (re_search r text) eqn:E, (re_search r text') eqn:E';
  try reflexivity.
- apply re_search_spec in E.
  apply (occurs_in_blind r text text' Hr Ht), re_search_spec in E.
  congruence.
- apply re_search_spec in E'.
  apply (occurs_in_blind r text' text Hr (same_modulo_case_sym _ _ Ht)),
    re_search_spec in E'.
  congruence.
Qed.

Lemma any_match_blind (patterns : list regex) (text text' : str) :
forallb case_blind patterns = true -> same_modulo_case text text' ->
any_match patterns text = any_match patterns text'.
Proof.
intros Hp Ht. induction patterns as [|r rest IH]; [reflexivity|].
cbn [forallb] in Hp. apply andb_prop in Hp. destruct Hp as [Hr Hp].
cbn [any_match]. rewrite (re_search_blind r text text' Hr Ht).
now rewrite IH.
Qed.

(** X4.  The override rules do not look at the case of ASCII letters:
    two comments that differ only in the case of their letters get the
    same probability and tier.  (Every pattern is compiled with
    IGNORECASE except the one for 13/52 and 13/90, which has no letter.) *)
Theorem apply_overrides_ignores_case (text text' : str) (prob : float)
  (t : tier) :
same_modulo_case text text' ->
apply_overrides text prob t = apply_overrides text' prob t.
Proof.
intros Ht. unfold apply_overrides.
rewrite (any_match_blind META_PATTERNS text text') by (reflexivity || assumption).
rewrite (any_match_blind BLOCKLIST_PATTERNS text text')
  by (reflexivity || assumption).
rewrite (any_match_blind GENERAL_SAFELIST_PATTERNS text text')
  by (reflexivity || assumption).
reflexivity.
Qed.
End CaseBlind.

Lemma apply_overrides_ignores_case_witness :
same_modulo_case text_shouting text_whisper /\
@apply_overrides ascii_only text_shouting 0.2%float "LOW"%string =
@apply_overrides ascii_only text_whisper 0.2%float "LOW"%string.
Proof.
assert (H : same_modulo_case text_shouting text_whisper).
{ unfold text_shouting, text_whisper. cbn.
  repeat (constructor; [reflexivity|]). constructor. }
split; [exact H|].
apply (@apply_overrides_ignores_case ascii_only text_shouting text_whisper
         0.2%float "LOW"%string H).
Defined.

(* ================================================================== *)
(** * Further properties of the PII detector *)
(* ================================================================== *)

(** ** Overlap of spans *)

(** X5.  For spans that hold at least one character, [_overlaps] answers
    whether the span shares an offset of the text with one of the spans
    of the list. *)
Theorem _overlaps_shares_offset (s e : Z) (spans : list span) :
(s < e)%Z -> Forall (fun sp => (fst sp < snd sp)%Z) spans ->
(_overlaps (s, e) spans = true <->
 exists a b i, In (a, b) spans /\ (s <= i < e)%Z /\ (a <= i < b)%Z).
Proof.
intros Hse Hne. induction spans as [|[a b] rest IH].
- cbn. split; [discriminate | intros (a & b & i & [] & _)].
- apply Forall_cons_iff in Hne. destruct Hne as [Hab Hrest].
  cbn [fst snd] in Hab. specialize (IH Hrest).
  cbn [_overlaps].
  destruct (Z.leb_spec e a) as [Hea | Hea]; cbn [orb negb].
  + destruct (Z.geb_spec s b) as [Hsb | Hsb]; cbn [negb];
    rewrite IH; split.
    * intros (a' & b' & i & Hin & Hi); exists a', b', i; split;
        [now right | exact Hi].
    * intros (a' & b' & i & [Heq | Hin] & Hi1 & Hi2);
        [inversion Heq; subst; lia | exists a', b', i; auto].
    * intros (a' & b' & i & Hin & Hi); exists a', b', i; split;
        [now right | exact Hi].
    * intros (a' & b' & i & [Heq | Hin] & Hi1 & Hi2);
        [inversion Heq; subst; lia | exists a', b', i; auto].
  + destruct (Z.geb_spec s b) as [Hsb | Hsb]; cbn [negb].
    * rewrite IH; split.
      -- intros (a' & b' & i & Hin & Hi); exists a', b', i; split;
           [now right | exact Hi].
      -- intros (a' & b' & i & [Heq | Hin] & Hi1 & Hi2);
           [inversion Heq; subst; lia | exists a', b', i; auto].
    * split; [intros _ | reflexivity].
      exists a, b, (Z.max s a). split; [now left | lia].
Qed.

Lemma _overlaps_shares_offset_witness :
_overlaps (0, 5)%Z [(7, 9)%Z; (3, 8)%Z] = true <->
exists a b i, In (a, b) [(7, 9)%Z; (3, 8)%Z] /\ (0 <= i < 5)%Z /\
              (a <= i < b)%Z.
Proof.
apply (_overlaps_shares_offset 0 5 [(7, 9)%Z; (3, 8)%Z]).
- lia.
- repeat constructor.
Defined.

(** ** The checksum *)

Lemma luhn_sum_app (l1 l2 : list Z) (second : bool) :
luhn_sum (l1 ++ l2) second
= (luhn_sum l1 second
   + luhn_sum l2 (if Nat.even (length l1) then second else negb second))%Z.
Proof.
revert second. induction l1 as [|d l1 IH]; intros second.
- cbn. reflexivity.
- cbn [app luhn_sum length]. rewrite IH.
  rewrite Nat.even_succ, <- Nat.negb_even.
  destruct (Nat.even (length l1)); cbn [negb];
    rewrite ?negb_involutive; lia.
Qed.

Section LuhnFacts.
Context {U : Unicode}.

Lemma digits_only_insert (u v : str) (c : char) :
is_digit c = true ->
digits_only (u ++ c :: v) = digits_only u ++ c :: digits_only v.
Proof.
intros H. unfold digits_only. rewrite filter_app. cbn [filter].
now rewrite H.
Qed.

Lemma digit_value_range (c : char) :
decimal_values U -> is_digit c = true -> (0 <= int_of_digit c <= 9)%Z.
Proof.
intros HU. unfold is_digit, int_of_digit, digit_value.
destruct (c <? 128).
- unfold is_ascii_digit, in_range.
  destruct (N.leb_spec 48 c), (N.leb_spec c 57); cbn [andb];
    try discriminate. intros _. lia.
- destruct (uni_decimal c) as [d|] eqn:E; [|discriminate].
  intros _. specialize (HU c d E). lia.
Qed.

(** X6.  The checksum catches every single mistyped digit: when a number
    is accepted, the number obtained by replacing one of its digits with
    a digit of a different value is rejected.  The digits are the
    decimal digits of any script, as [\D] and [int] read them. *)
Theorem _luhn_ok_rejects_one_wrong_digit (u v : str) (a b : char) :
decimal_values U -> is_digit a = true -> is_digit b = true ->
int_of_digit a <> int_of_digit b ->
_luhn_ok (u ++ a :: v) = true -> _luhn_ok (u ++ b :: v) = false.
Proof.
intros HU Da Db Hne.
pose proof (digit_value_range a HU Da) as Ra.
pose proof (digit_value_range b HU Db) as Rb.
rewrite !_luhn_ok_spec, !digits_only_insert by assumption.
rewrite !length_app. cbn [length].
destruct ((13 <=? length (digits_only u) + S (length (digits_only v)))%nat
          && (length (digits_only u) + S (length (digits_only v)) <=? 19)%nat);
  cbn [andb]; [|discriminate].
unfold luhn_passes. rewrite !map_app. cbn [map]. rewrite !rev_app_distr.
cbn [rev]. rewrite <- !app_assoc. cbn [app].
rewrite !luhn_sum_app. cbn [luhn_sum].
set (x := luhn_sum (rev (map int_of_digit (digits_only v))) false).
set (par := if Nat.even (length (rev (map int_of_digit (digits_only v))))
            then false else negb false).
set (y := luhn_sum (rev (map int_of_digit (digits_only u))) (negb par)).
intros H1. apply Z.eqb_eq in H1. apply Z.eqb_neq. intros H2.
apply Z.mod_divide in H1; [|lia]. apply Z.mod_divide in H2; [|lia].
destruct H1 as [q1 H1], H2 as [q2 H2].
destruct par;
  destruct (Z.gtb_spec (2 * int_of_digit a) 9),
           (Z.gtb_spec (2 * int_of_digit b) 9); lia.
Qed.
End LuhnFacts.

Lemma arabic_indic_decimal_values : decimal_values ascii_and_arabic_indic.
Proof.
intros c d. cbn [uni_decimal ascii_and_arabic_indic]. unfold in_range.
destruct (N.leb_spec 1632 c), (N.leb_spec c 1641); cbn [andb];
  try discriminate.
intros Hd. inversion Hd. lia.
Qed.

Lemma _luhn_ok_rejects_one_wrong_digit_witness :
@_luhn_ok ascii_and_arabic_indic (codes "411111111111" ++ 49 :: codes "111")
= true /\
@_luhn_ok ascii_and_arabic_indic (codes "411111111111" ++ 1634 :: codes "111")
= false.
Proof.
split; [vm_compute; reflexivity|].
apply (@_luhn_ok_rejects_one_wrong_digit ascii_and_arabic_indic
         (codes "411111111111") (codes "111") 49 1634).
- exact arabic_indic_decimal_values.
- reflexivity.
- reflexivity.
- vm_compute. discriminate.
- vm_compute. reflexivity.
Defined.

(** A digit replaced by the digit of the same value in another script
    leaves the number accepted: [1] and U+0661 both count as one. *)
Remark _luhn_ok_same_value_other_script :
@_luhn_ok ascii_and_arabic_indic (codes "411111111111" ++ 1633 :: codes "111")
= true.
Proof. vm_compute. reflexivity. Qed.

(** ** Where the matches of [finditer] lie *)

Section FinditerFacts.
Context {U : Unicode}.

Lemma min_len_matches (r : regex) (c1 c2 : cursor) :
matches r c1 c2 -> (cur_pos c1 + min_len r <= cur_pos c2)%nat.
Proof.
induction 1; cbn [min_len] in *; try lia.
unfold advance in H. destruct (cur_rest c); [discriminate|].
inversion H; subst. cbn. lia.
Qed.

Lemma at_text_start (text : str) : at_text text (start_cursor text).
Proof. split; cbn; [lia | reflexivity]. Qed.

Lemma between_at_text (text : str) (c1 c2 : cursor) (w : str) :
between c1 c2 w -> at_text text c1 ->
at_text text c2 /\
w = slice text (Z.of_nat (cur_pos c1)) (Z.of_nat (cur_pos c2)).
Proof.
intros [Hr Hp] [Hle Hrest].
assert (Hlen : (length (cur_rest c1) = length text - cur_pos c1)%nat)
  by (rewrite Hrest; apply length_skipn).
assert (Hw : (cur_pos c1 + length w + length (cur_rest c2)
              = length text)%nat).
{ rewrite Hr, length_app in Hlen. lia. }
split; [split|].
- lia.
- rewrite Hp, Nat.add_comm, <- skipn_skipn, <- Hrest, Hr.
  now rewrite skipn_app, skipn_all, Nat.sub_diag.
- rewrite slice_as_skipn by lia.
  rewrite Nat2Z.id, <- Hrest, Hr, Hp.
  replace (Z.to_nat (Z.of_nat (cur_pos c1 + length w) - Z.of_nat (cur_pos c1)))
    with (length w + 0)%nat by lia.
  rewrite firstn_app_2. cbn. now rewrite app_nil_r.
Qed.

Lemma scan_at_text (r : regex) (text : str) (rest : str) :
forall prev pos s e,
at_text text (mkCursor prev rest pos) ->
scan r prev rest pos = Some (s, e) ->
at_text text s /\ (pos <= cur_pos s)%nat.
Proof.
induction rest as [|c rest IH]; intros prev pos s e Hat H; cbn [scan] in H.
- destruct (match_here r (mkCursor prev [] pos)); [|discriminate].
  inversion H; subst. split; [assumption | cbn; lia].
- destruct (match_here r (mkCursor prev (c :: rest) pos)).
  + inversion H; subst. split; [assumption | cbn; lia].
  + apply IH in H.
    * destruct H. split; [assumption | lia].
    * destruct (between_at_text text (mkCursor prev (c :: rest) pos)
                  (mkCursor (Some c) rest (S pos)) [c]) as [Hn _];
        [split; cbn; [reflexivity | lia] | assumption | exact Hn].
Qed.

(** Every match [finditer] reports is a match of the pattern that lies
    in the text at its span, and the matches come one after the other. *)
Lemma finditer_from_successive (r : regex) (text : str) (fuel : nat) :
forall cur, at_text text cur ->
successive (Z.of_nat (cur_pos cur)) (finditer_from fuel r cur) /\
Forall (fun m =>
          (exists s e, matches r s e /\ between s e (m_group m) /\
             m_span m = (Z.of_nat (cur_pos s), Z.of_nat (cur_pos e))) /\
          (snd (m_span m) <= Z.of_nat (length text))%Z /\
          m_group m = slice text (fst (m_span m)) (snd (m_span m)))
       (finditer_from fuel r cur).
Proof.
induction fuel as [|fuel IH]; intros cur Hat; cbn [finditer_from].
- split; constructor.
- destruct (scan r (cur_prev cur) (cur_rest cur) (cur_pos cur))
    as [[s e]|] eqn:Es; [|split; constructor].
  assert (Hat0 : at_text text
            (mkCursor (cur_prev cur) (cur_rest cur) (cur_pos cur)))
    by (destruct cur; exact Hat).
  destruct (scan_at_text r text _ _ _ s e Hat0 Es) as [Hs Hpos].
  apply scan_sound in Es. apply match_here_sound in Es.
  destruct (matches_between _ _ _ Es) as (w & Hw).
  destruct (between_at_text text s e w Hw Hs) as [He Hslice].
  assert (Hse : (cur_pos s <= cur_pos e)%nat) by (destruct Hw; lia).
  assert (Hfound :
    (exists s0 e0, matches r s0 e0 /\
        between s0 e0 (firstn (cur_pos e - cur_pos s) (cur_rest s)) /\
        (Z.of_nat (cur_pos s), Z.of_nat (cur_pos e))
        = (Z.of_nat (cur_pos s0), Z.of_nat (cur_pos e0))) /\
    (Z.of_nat (cur_pos e) <= Z.of_nat (length text))%Z /\
    firstn (cur_pos e - cur_pos s) (cur_rest s)
    = slice text (Z.of_nat (cur_pos s)) (Z.of_nat (cur_pos e))).
  { rewrite (between_group _ _ _ Hw). split; [|split].
    - exists s, e. auto.
    - destruct He. lia.
    - exact Hslice. }
  match goal with
  | |- context [match ?next with _ => _ end] => destruct next as [cur'|] eqn:En
  end.
  + assert (Hnext : at_text text cur' /\ (cur_pos e <= cur_pos cur')%nat).
    { destruct (cur_pos s <? cur_pos e)%nat.
      - inversion En; subst. split; [assumption | lia].
      - destruct (advance e) as [[ch e']|] eqn:Ea; [|discriminate].
        simpl in En. inversion En; subst.
        destruct (between_at_text text e cur' [ch]
                    (advance_between _ _ _ Ea) He) as [Hn _].
        split; [assumption|].
        destruct (advance_between _ _ _ Ea) as [_ Hp]. cbn in Hp. lia. }
    destruct Hnext as [Hat' Hle'].
    destruct (IH cur' Hat') as [Hsucc Hall].
    split.
    * cbn [successive m_span fst snd]. split; [lia | split; [lia|]].
      destruct (finditer_from fuel r cur') as [|m' rest']; [exact I|].
      cbn [successive] in *. destruct Hsucc as (H1 & H2 & H3).
      split; [lia | split; assumption].
    * constructor; [exact Hfound | exact Hall].
  + split.
    * cbn [successive m_span fst snd]. split; [lia | split; [lia | exact I]].
    * constructor; [exact Hfound | constructor].
Qed.

Lemma finditer_successive (r : regex) (text : str) :
successive 0 (finditer r text) /\
Forall (fun m =>
          (exists s e, matches r s e /\ between s e (m_group m) /\
             m_span m = (Z.of_nat (cur_pos s), Z.of_nat (cur_pos e))) /\
          (snd (m_span m) <= Z.of_nat (length text))%Z /\
          m_group m = slice text (fst (m_span m)) (snd (m_span m)))
       (finditer r text).
Proof.
apply (finditer_from_successive r text (S (length text))
         (start_cursor text) (at_text_start text)).
Qed.

(** A match reported by [finditer] lies in the text at its span and holds
    at least [min_len] characters. *)
Lemma finditer_span (r : regex) (text : str) (m : rmatch_result) :
In m (finditer r text) ->
(0 <= fst (m_span m))%Z /\
(fst (m_span m) + Z.of_nat (min_len r) <= snd (m_span m))%Z /\
(snd (m_span m) <= Z.of_nat (length text))%Z /\
m_group m = slice text (fst (m_span m)) (snd (m_span m)) /\
exists s e, matches r s e /\ between s e (m_group m).
Proof.
intros H. destruct (finditer_successive r text) as [_ Hall].
rewrite Forall_forall in Hall. destruct (Hall m H) as (Hm & Hend & Hg).
destruct Hm as (s & e & Hm & Hw & Hsp). rewrite Hsp in *. cbn [fst snd] in *.
assert (Hmin := min_len_matches r s e Hm).
repeat split; try lia; try assumption. eauto.
Qed.

Lemma successive_weaken (a b : Z) (l : list rmatch_result) :
(a <= b)%Z -> successive b l -> successive a l.
Proof.
intros Hab. destruct l as [|m rest]; [trivial|].
cbn [successive]. intros (H1 & H2 & H3). repeat split; try assumption. lia.
Qed.
End FinditerFacts.

(** ** The hits of [detect_pii] *)

Lemma flat_map_successive (f : rmatch_result -> list hit) :
(forall m, f m = [] \/ exists h, f m = [h] /\ hit_span h = m_span m) ->
forall l from, successive from l -> successive_hits from (flat_map f l).
Proof.
intros Hf. induction l as [|m rest IH]; intros from H; [exact I|].
cbn [successive] in H. destruct H as (H1 & H2 & H3).
cbn [flat_map]. destruct (Hf m) as [-> | (h & -> & Hh)].
- cbn [app]. apply IH. destruct rest as [|m' rest']; [exact I|].
  cbn [successive] in *. destruct H3 as (H4 & H5 & H6).
  split; [lia | split; assumption].
- cbn [app successive_hits]. unfold hit_start, hit_end. rewrite Hh.
  split; [assumption | split; [assumption|]].
  specialize (IH _ H3). unfold hit_end in IH. exact IH.
Qed.

Lemma successive_hits_weaken (a b : Z) (l : list hit) :
(a <= b)%Z -> successive_hits b l -> successive_hits a l.
Proof.
intros Hab. destruct l as [|h rest]; [trivial|].
cbn [successive_hits]. intros (H1 & H2 & H3).
repeat split; try assumption. lia.
Qed.

Lemma hits_of_kind_all (kind k : string) (l : list hit) :
Forall (fun h => hit_kind h = k) l ->
hits_of_kind kind l = if String.eqb k kind then l else [].
Proof.
intros H. unfold hits_of_kind. induction H as [|h l Hh _ IH].
- now destruct (String.eqb k kind).
- cbn [filter]. rewrite IH, Hh. now destruct (String.eqb k kind).
Qed.

Section DetectFacts.
Context {U : Unicode}.
Context (phonenumbers : option (str -> option str)).

Lemma email_hits_in (text : str) (g : list span) (h : hit) :
In h (email_hits text g) <->
exists m, In m (finditer EMAIL_RE text) /\ _overlaps (m_span m) g = false /\
          h = mkHit "EMAIL" (m_span m) (m_group m).
Proof.
unfold email_hits. rewrite in_flat_map. split.
- intros (m & Hm & Hh). exists m. split; [assumption|].
  destruct (_overlaps (m_span m) g); cbn [negb] in Hh.
  + destruct Hh.
  + destruct Hh as [<- | []]. auto.
- intros (m & Hm & Ho & ->). exists m. split; [assumption|].
  rewrite Ho. now left.
Qed.

Lemma phone_hits_in (text : str) (g : list span) (h : hit) :
In h (phone_hits phonenumbers text g) <->
exists parse m value,
  phonenumbers = Some parse /\ In m (finditer PHONE_CANDIDATE_RE text) /\
  _overlaps (m_span m) g = false /\ parse (m_group m) = Some value /\
  h = mkHit "PHONE" (m_span m) value.
Proof.
unfold phone_hits. destruct phonenumbers as [parse|].
- rewrite in_flat_map. split.
  + intros (m & Hm & Hh). exists parse, m.
    destruct (_overlaps (m_span m) g); [destruct Hh|].
    destruct (parse (m_group m)) as [value|] eqn:Ep; [|destruct Hh].
    destruct Hh as [<- | []]. exists value. auto.
  + intros (parse' & m & value & Hp & Hm & Ho & Hv & ->).
    inversion Hp; subst parse'. exists m. split; [assumption|].
    rewrite Ho, Hv. now left.
- split; [intros [] | intros (parse & m & value & Hp & _); discriminate].
Qed.

Lemma card_hits_in (text : str) (g : list span) (h : hit) :
In h (card_hits text g) <->
exists m, In m (finditer CARD_RE text) /\ _overlaps (m_span m) g = false /\
          _luhn_ok (digits_only (m_group m)) = true /\
          h = mkHit "CARD" (m_span m) (digits_only (m_group m)).
Proof.
unfold card_hits. rewrite in_flat_map. split.
- intros (m & Hm & Hh). exists m. split; [assumption|].
  destruct (_overlaps (m_span m) g); [destruct Hh|].
  destruct (_luhn_ok (digits_only (m_group m))); [|destruct Hh].
  destruct Hh as [<- | []]. auto.
- intros (m & Hm & Ho & Hl & ->). exists m. split; [assumption|].
  rewrite Ho, Hl. now left.
Qed.

Lemma detect_pii_in (text : str) (h : hit) :
In h (detect_pii phonenumbers (PyStr text)) <->
In h (email_hits text (guarded_spans_of text)) \/
In h (phone_hits phonenumbers text (guarded_spans_of text)) \/
In h (card_hits text (guarded_spans_of text)).
Proof. cbn [detect_pii]. now rewrite !in_app_iff. Qed.

(** X7.  Every hit lies inside the text, outside every guarded region
    (URL, code block, ID-like reference), is of one of the three kinds,
    and spans at least 6 characters for an e-mail address, 7 for a phone
    number and 13 for a card number. *)
Theorem detect_pii_hits_lie_in_text (text : str) (h : hit) :
In h (detect_pii phonenumbers (PyStr text)) ->
(hit_kind h = "EMAIL"%string /\ (hit_start h + 6 <= hit_end h)%Z \/
 hit_kind h = "PHONE"%string /\ (hit_start h + 7 <= hit_end h)%Z \/
 hit_kind h = "CARD"%string /\ (hit_start h + 13 <= hit_end h)%Z) /\
(0 <= hit_start h)%Z /\ (hit_end h <= Z.of_nat (length text))%Z /\
_overlaps (hit_span h) (guarded_spans_of text) = false.
Proof.
intros H. apply detect_pii_in in H. destruct H as [H | [H | H]].
- apply email_hits_in in H. destruct H as (m & Hm & Ho & ->).
  destruct (finditer_span _ _ _ Hm) as (H0 & Hmin & Hend & _).
  change (min_len EMAIL_RE) with 6%nat in Hmin.
  unfold hit_start, hit_end. cbn [hit_kind hit_span].
  split; [left; split; [reflexivity | lia] | auto].
- apply phone_hits_in in H.
  destruct H as (parse & m & value & _ & Hm & Ho & _ & ->).
  destruct (finditer_span _ _ _ Hm) as (H0 & Hmin & Hend & _).
  change (min_len PHONE_CANDIDATE_RE) with 7%nat in Hmin.
  unfold hit_start, hit_end. cbn [hit_kind hit_span].
  split; [right; left; split; [reflexivity | lia] | auto].
- apply card_hits_in in H. destruct H as (m & Hm & Ho & _ & ->).
  destruct (finditer_span _ _ _ Hm) as (H0 & Hmin & Hend & _).
  change (min_len CARD_RE) with 13%nat in Hmin.
  unfold hit_start, hit_end. cbn [hit_kind hit_span].
  split; [right; right; split; [reflexivity | lia] | auto].
Qed.

(** X8.  The value of a hit is read off the text at its span: an e-mail
    hit carries the matched text itself, a card hit its digits, and a
    phone hit what [phonenumbers] made of the matched text. *)
Theorem detect_pii_values_come_from_spans (text : str) (h : hit) :
In h (detect_pii phonenumbers (PyStr text)) ->
(hit_kind h = "EMAIL"%string -> hit_value h = span_text text h) /\
(hit_kind h = "CARD"%string ->
 hit_value h = digits_only (span_text text h)) /\
(hit_kind h = "PHONE"%string ->
 exists parse, phonenumbers = Some parse /\
               parse (span_text text h) = Some (hit_value h)).
Proof.
intros H. apply detect_pii_in in H. destruct H as [H | [H | H]].
- apply email_hits_in in H. destruct H as (m & Hm & Ho & ->).
  destruct (finditer_span _ _ _ Hm) as (_ & _ & _ & Hg & _).
  unfold span_text, hit_start, hit_end. cbn [hit_kind hit_span hit_value].
  split; [intros _; exact Hg | split; discriminate].
- apply phone_hits_in in H.
  destruct H as (parse & m & value & Hp & Hm & Ho & Hv & ->).
  destruct (finditer_span _ _ _ Hm) as (_ & _ & _ & Hg & _).
  unfold span_text, hit_start, hit_end. cbn [hit_kind hit_span hit_value].
  split; [discriminate | split; [discriminate|]].
  intros _. exists parse. rewrite <- Hg. auto.
- apply card_hits_in in H. destruct H as (m & Hm & Ho & _ & ->).
  destruct (finditer_span _ _ _ Hm) as (_ & _ & _ & Hg & _).
  unfold span_text, hit_start, hit_end. cbn [hit_kind hit_span hit_value].
  split; [discriminate | split; [|discriminate]].
  intros _. now rewrite <- Hg.
Qed.

Lemma email_hits_successive (text : str) (g : list span) :
successive_hits 0 (email_hits text g).
Proof.
apply flat_map_successive; [|apply finditer_successive].
intros m. destruct (negb (_overlaps (m_span m) g)); [right | now left].
eexists. split; reflexivity.
Qed.

Lemma phone_hits_successive (text : str) (g : list span) :
successive_hits 0 (phone_hits phonenumbers text g).
Proof.
unfold phone_hits. destruct phonenumbers as [parse|]; [|exact I].
apply flat_map_successive; [|apply finditer_successive].
intros m. destruct (_overlaps (m_span m) g); [now left|].
destruct (parse (m_group m)); [right | now left].
eexists. split; reflexivity.
Qed.

Lemma card_hits_successive (text : str) (g : list span) :
successive_hits 0 (card_hits text g).
Proof.
apply flat_map_successive; [|apply finditer_successive].
intros m. cbv beta zeta. destruct (_overlaps (m_span m) g); [now left|].
destruct (_luhn_ok (digits_only (m_group m))); [right | now left].
eexists. split; reflexivity.
Qed.

Lemma card_hits_kind (text : str) (g : list span) (h : hit) :
In h (card_hits text g) -> hit_kind h = "CARD"%string.
Proof. intros H. apply card_hits_in in H. now destruct H as (m & _ & _ & _ & ->). Qed.

(** X9.  Hits of one kind never overlap: taken in the order of the
    result, each starts at or after the end of the one before it. *)
Theorem detect_pii_same_kind_in_order (text : str) (kind : string) :
successive_hits 0 (hits_of_kind kind (detect_pii phonenumbers (PyStr text))).
Proof.
cbn [detect_pii]. unfold hits_of_kind. rewrite !filter_app.
fold (hits_of_kind kind (email_hits text (guarded_spans_of text))).
fold (hits_of_kind kind
        (phone_hits phonenumbers text (guarded_spans_of text))).
fold (hits_of_kind kind (card_hits text (guarded_spans_of text))).
rewrite (hits_of_kind_all kind "EMAIL")
  by (apply Forall_forall; intros h Hh;
      now apply email_hits_kind in Hh).
rewrite (hits_of_kind_all kind "PHONE")
  by (apply Forall_forall; intros h Hh; now apply phone_hits_kind in Hh).
rewrite (hits_of_kind_all kind "CARD")
  by (apply Forall_forall; intros h Hh; now apply card_hits_kind in Hh).
destruct (String.eqb_spec "EMAIL" kind) as [<- | _].
- cbn. rewrite app_nil_r. apply email_hits_successive.
- destruct (String.eqb_spec "PHONE" kind) as [<- | _].
  + cbn. rewrite app_nil_r. apply phone_hits_successive.
  + destruct (String.eqb_spec "CARD" kind) as [<- | _].
    * cbn. apply card_hits_successive.
    * exact I.
Qed.

(** X10.  The e-mail and card hits do not depend on the optional
    [phonenumbers] module: without it the result is the same list with
    the phone hits left out. *)
Theorem detect_pii_without_phonenumbers (text : pyval) :
detect_pii None text
= filter (fun h => negb (String.eqb (hit_kind h) "PHONE"))
         (detect_pii phonenumbers text).
Proof.
destruct text as [text | | |]; try reflexivity.
cbn [detect_pii phone_hits app]. rewrite !filter_app.
assert (Hkeep : forall l k, k <> "PHONE"%string ->
          Forall (fun h => hit_kind h = k) l ->
          filter (fun h => negb (String.eqb (hit_kind h) "PHONE")) l = l).
{ intros l k Hk Hl. induction Hl as [|h l Hh _ IH]; [reflexivity|].
  cbn [filter]. rewrite IH, Hh.
  destruct (String.eqb_spec k "PHONE"); [contradiction | reflexivity]. }
assert (Hdrop : forall l, Forall (fun h => hit_kind h = "PHONE"%string) l ->
          filter (fun h => negb (String.eqb (hit_kind h) "PHONE")) l = []).
{ intros l Hl. induction Hl as [|h l Hh _ IH]; [reflexivity|].
  cbn [filter]. now rewrite IH, Hh. }
rewrite (Hkeep (email_hits text (guarded_spans_of text)) "EMAIL"%string),
  (Hkeep (card_hits text (guarded_spans_of text)) "CARD"%string),
  (Hdrop (phone_hits phonenumbers text (guarded_spans_of text))).
- reflexivity.
- apply Forall_forall; intros h Hh; now apply phone_hits_kind in Hh.
- discriminate.
- apply Forall_forall; intros h Hh; now apply card_hits_kind in Hh.
- discriminate.
- apply Forall_forall; intros h Hh; now apply email_hits_kind in Hh.
Qed.
End DetectFacts.

Lemma detect_pii_hits_lie_in_text_witness :
(0 <= hit_start hit_email_found)%Z /\
(hit_end hit_email_found <= Z.of_nat (length text_email_card))%Z.
Proof.
assert (H : In hit_email_found
              (@detect_pii ascii_only None (PyStr text_email_card))).
{ vm_compute. left. reflexivity. }
destruct (@detect_pii_hits_lie_in_text ascii_only None text_email_card
            hit_email_found H) as (_ & H1 & H2 & _).
split; [exact H1 | exact H2].
Defined.

Lemma detect_pii_values_come_from_spans_witness :
hit_value hit_card_found = @digits_only ascii_only
                             (span_text text_email_card hit_card_found).
Proof.
assert (H : In hit_card_found
              (@detect_pii ascii_only None (PyStr text_email_card))).
{ vm_compute. right. left. reflexivity. }
apply (proj1 (proj2 (@detect_pii_values_come_from_spans ascii_only None
                       text_email_card hit_card_found H))).
reflexivity.
Defined.

(* ================================================================== *)
(** * Further properties of the redactor *)
(* ================================================================== *)

Lemma slice_to_firstn {A} (s : list A) (n : Z) :
(0 <= n)%Z -> slice_to s n = firstn (Z.to_nat n) s.
Proof.
intros Hn. unfold slice_to, clamp_index.
destruct (Z.ltb_spec n 0); [lia|].
destruct (Z.le_gt_cases n (Z.of_nat (length s))).
- now rewrite Z.min_l.
- rewrite Z.min_r by lia. rewrite Nat2Z.id, firstn_all.
  symmetry. apply firstn_all2. lia.
Qed.

Lemma slice_from_last {A} (s : list A) (n : nat) :
(0 < n <= length s)%nat ->
slice_from s (- Z.of_nat n) = skipn (length s - n) s.
Proof.
intros Hn. unfold slice_from, clamp_index.
destruct (Z.ltb_spec (- Z.of_nat n) 0); [|lia].
f_equal. lia.
Qed.

Lemma partition_at_first (sep : char) (u v : str) :
~ In sep u -> partition_at sep (u ++ sep :: v) = (u, true, v).
Proof.
induction u as [|c u IH]; intros Hn; cbn [app partition_at].
- now rewrite N.eqb_refl.
- destruct (N.eqb_spec c sep) as [-> | _]; [exfalso; apply Hn; now left|].
  rewrite IH; [reflexivity|]. intros Hin. apply Hn. now right.
Qed.

Section MaskFacts.
Context {U : Unicode}.
Context (phonenumbers : option (str -> option str)).

Lemma matches_Chr_inv (cl : cclass) (c1 c2 : cursor) :
matches (Chr cl) c1 c2 ->
exists ch, between c1 c2 [ch] /\ class_matches cl ch = true.
Proof.
intros H. inversion H; subst. exists ch. split; [|assumption].
eapply advance_between; eassumption.
Qed.

Lemma matches_star_class (g : bool) (cl : cclass) (c1 c2 : cursor) :
matches (Star g (Chr cl)) c1 c2 ->
exists w, between c1 c2 w /\ forallb (class_matches cl) w = true.
Proof.
intros H. remember (Star g (Chr cl)) as r eqn:Er.
induction H; try discriminate.
- exists []. split; [apply between_refl | reflexivity].
- inversion Er; subst. clear IHmatches1.
  destruct (IHmatches2 eq_refl) as (w & Hw & Hc).
  apply matches_Chr_inv in H. destruct H as (ch & Hb & Hch).
  exists ([ch] ++ w). split.
  + eapply between_trans; eassumption.
  + cbn [app forallb]. now rewrite Hch, Hc.
Qed.

Lemma matches_times_class (n : nat) (cl : cclass) (c1 c2 : cursor) :
matches (Times n (Chr cl)) c1 c2 ->
exists w, between c1 c2 w /\ length w = n /\
          forallb (class_matches cl) w = true.
Proof.
intros H. remember (Times n (Chr cl)) as r eqn:Er. revert n Er.
induction H; intros n' Er; try discriminate.
- inversion Er; subst. exists []. split; [apply between_refl | auto].
- inversion Er; subst. clear IHmatches1.
  destruct (IHmatches2 _ eq_refl) as (w & Hw & Hl & Hc).
  apply matches_Chr_inv in H. destruct H as (ch & Hb & Hch).
  exists ([ch] ++ w). split; [|split].
  + eapply between_trans; eassumption.
  + cbn. now rewrite Hl.
  + cbn [app forallb]. now rewrite Hch, Hc.
Qed.

Lemma matches_at_least_class (g : bool) (n : nat) (cl : cclass)
  (c1 c2 : cursor) :
matches (at_least g n (Chr cl)) c1 c2 ->
exists w, between c1 c2 w /\ (n <= length w)%nat /\
          forallb (class_matches cl) w = true.
Proof.
intros H. apply matches_Cat_inv in H. destruct H as (c & H1 & H2).
apply matches_times_class in H1. destruct H1 as (w1 & B1 & L1 & C1).
apply matches_star_class in H2. destruct H2 as (w2 & B2 & C2).
exists (w1 ++ w2). split; [|split].
- eapply between_trans; eassumption.
- rewrite length_app. lia.
- now rewrite forallb_app, C1, C2.
Qed.

(** The text of a match of [EMAIL_RE]: a local part without [@], the
    [@], and the rest. *)
Lemma email_match_parts (c1 c2 : cursor) (w : str) :
matches EMAIL_RE c1 c2 -> between c1 c2 w ->
exists local_part domain,
  w = local_part ++ 64 :: domain /\ local_part <> [] /\ ~ In 64 local_part.
Proof.
intros H Hw. unfold EMAIL_RE in H. cbn [cat] in H.
apply matches_Cat_inv in H. destruct H as (a & Ha & H).
apply matches_WordB_inv in Ha. subst a.
apply matches_Cat_inv in H. destruct H as (b & Hlocal & H).
apply matches_Cat_inv in H. destruct H as (c & Hat & H).
apply matches_at_least_class in Hlocal.
destruct Hlocal as (l & Bl & Ll & Cl).
change (cs "@") with (Chr (CLit 64)) in Hat.
apply matches_Chr_inv in Hat. destruct Hat as (ch & Bat & Hch).
cbn [class_matches] in Hch. apply N.eqb_eq in Hch. subst ch.
destruct (matches_between _ _ _ H) as (d & Bd).
assert (Hall : between c1 c2 (l ++ [64] ++ d)).
{ eapply between_trans; [eassumption|].
  eapply between_trans; eassumption. }
exists l, d. split; [|split].
- eapply between_unique; eassumption.
- intros ->. cbn in Ll. lia.
- intros Hin. rewrite forallb_forall in Cl. specialize (Cl 64 Hin).
  revert Cl. vm_compute. discriminate.
Qed.

(** X11.  A detected e-mail address is masked as at most the first two
    characters of its local part, three stars, and the [@] and domain in
    full. *)
Theorem detected_email_mask (text : str) (h : hit) :
In h (detect_pii phonenumbers (PyStr text)) ->
hit_kind h = "EMAIL"%string ->
exists local_part domain,
  hit_value h = local_part ++ codes "@" ++ domain /\
  local_part <> [] /\ ~ In 64 local_part /\
  mask_of h = firstn 2 local_part ++ codes "***@" ++ domain.
Proof.
intros H Hk. apply detect_pii_in in H. destruct H as [H | [H | H]].
- apply email_hits_in in H. destruct H as (m & Hm & _ & ->).
  destruct (finditer_span _ _ _ Hm) as (_ & _ & _ & _ & s & e & Hms & Hb).
  destruct (email_match_parts s e _ Hms Hb) as (l & d & Hg & Hne & Hnin).
  exists l, d. cbn [hit_value]. split; [exact Hg|].
  split; [assumption | split; [assumption|]].
  unfold mask_of, mask_parts. cbn [hit_kind hit_value String.eqb Ascii.eqb
    Bool.eqb andb].
  rewrite (eq_trans (f_equal (partition_at 64) Hg)
                     (partition_at_first 64 l d Hnin)).
  cbn [concat]. rewrite app_nil_r, slice_to_firstn by lia. reflexivity.
- apply phone_hits_kind in H. rewrite Hk in H. discriminate.
- apply card_hits_kind in H. rewrite Hk in H. discriminate.
Qed.

(** X12.  A detected card number is masked as three groups of stars and
    its last four digits: 19 characters, whatever the length of the
    number. *)
Theorem detected_card_mask (text : str) (h : hit) :
In h (detect_pii phonenumbers (PyStr text)) ->
hit_kind h = "CARD"%string ->
exists front last4,
  hit_value h = front ++ last4 /\ length last4 = 4%nat /\
  forallb is_digit last4 = true /\
  mask_of h = codes "**** **** **** " ++ last4 /\
  length (mask_of h) = 19%nat.
Proof.
intros H Hk. apply detect_pii_in in H. destruct H as [H | [H | H]].
- apply email_hits_kind in H. rewrite Hk in H. discriminate.
- apply phone_hits_kind in H. rewrite Hk in H. discriminate.
- apply card_hits_in in H. destruct H as (m & Hm & _ & Hl & ->).
  rewrite _luhn_ok_spec, digits_only_idem in Hl.
  apply andb_prop in Hl. destruct Hl as [Hl _].
  apply andb_prop in Hl. destruct Hl as [Hl _]. apply Nat.leb_le in Hl.
  set (v := digits_only (m_group m)) in *.
  exists (firstn (length v - 4) v), (skipn (length v - 4) v).
  cbn [hit_value].
  assert (Hmask : mask_of (mkHit "CARD" (m_span m) v)
                  = codes "**** **** **** " ++ skipn (length v - 4) v).
  { unfold mask_of, mask_parts. cbn [hit_kind hit_value String.eqb Ascii.eqb
      Bool.eqb andb concat].
    rewrite app_nil_r. f_equal.
    change (-4)%Z with (- Z.of_nat 4)%Z. apply slice_from_last. lia. }
  split; [symmetry; apply firstn_skipn|].
  split; [rewrite length_skipn; lia|].
  split; [|split; [exact Hmask|]].
  + apply forallb_forall. intros c Hc.
    assert (Hin : In c v).
    { rewrite <- (firstn_skipn (length v - 4) v). apply in_or_app. now right. }
    unfold v, digits_only in Hin. apply filter_In in Hin. tauto.
  + rewrite Hmask, length_app, length_skipn.
    change (length (codes "**** **** **** ")) with 15%nat. lia.
Qed.
End MaskFacts.

Lemma detected_email_mask_witness :
exists local_part domain,
  hit_value hit_email_found = local_part ++ codes "@" ++ domain /\
  local_part <> [] /\ ~ In 64 local_part /\
  @mask_of ascii_only hit_email_found
  = firstn 2 local_part ++ codes "***@" ++ domain.
Proof.
apply (@detected_email_mask ascii_only None text_email_card hit_email_found).
- vm_compute. left. reflexivity.
- reflexivity.
Defined.

Lemma detected_card_mask_witness :
exists front last4,
  hit_value hit_card_found = front ++ last4 /\ length last4 = 4%nat /\
  forallb (@is_digit ascii_only) last4 = true /\
  @mask_of ascii_only hit_card_found = codes "**** **** **** " ++ last4 /\
  length (@mask_of ascii_only hit_card_found) = 19%nat.
Proof.
apply (@detected_card_mask ascii_only None text_email_card hit_card_found).
- vm_compute. right. left. reflexivity.
- reflexivity.
Defined.

Section UnknownKind.
Context {U : Unicode}.

(** X13.  A hit whose kind is not exactly EMAIL, PHONE or CARD gets no
    mask at all: the text of its span is removed and nothing is written
    in its place. *)
Theorem redact_unknown_kind_removes_span (text : str) (h : hit) :
hit_kind h <> "EMAIL"%string -> hit_kind h <> "PHONE"%string ->
hit_kind h <> "CARD"%string -> in_bounds text h = true ->
redact text [h]
= slice_to text (hit_start h) ++ slice_from text (hit_end h) /\
Z.of_nat (length (redact text [h]))
= (Z.of_nat (length text) - (hit_end h - hit_start h))%Z.
Proof.
intros He Hp Hc Hb. apply in_bounds_spec in Hb.
assert (Hr : redact text [h]
             = slice_to text (hit_start h) ++ slice_from text (hit_end h)).
{ unfold redact. cbn [sorted_by_start insert_by_start redact_parts].
  unfold hit_start, hit_end in *. destruct (hit_span h) as [s e].
  cbn [fst snd] in *.
  assert (Hm : mask_parts h = []).
  { unfold mask_parts.
    destruct (String.eqb_spec (hit_kind h) "EMAIL"); [contradiction|].
    destruct (String.eqb_spec (hit_kind h) "PHONE"); [contradiction|].
    destruct (String.eqb_spec (hit_kind h) "CARD"); [contradiction|].
    reflexivity. }
  rewrite Hm. cbn [app concat]. rewrite app_nil_r. f_equal.
  rewrite slice_as_skipn by lia. rewrite slice_to_firstn by lia.
  cbn [Z.to_nat skipn]. now rewrite Z.sub_0_r. }
split; [exact Hr|].
rewrite Hr, length_app, slice_to_firstn by lia.
unfold slice_from. rewrite clamp_index_inside by lia.
rewrite length_firstn, length_skipn. lia.
Qed.
End UnknownKind.

Lemma redact_unknown_kind_removes_span_witness :
@redact ascii_only text_email_card [hit_lowercase_kind]
= codes "mail  card 4111-1111 1111 1111 ok".
Proof.
destruct (@redact_unknown_kind_removes_span ascii_only text_email_card
            hit_lowercase_kind) as [H _].
- discriminate.
- discriminate.
- discriminate.
- reflexivity.
- rewrite H. reflexivity.
Defined.

(* ================================================================== *)
(** * Further properties of the normaliser *)
(* ================================================================== *)

(** ** The alphabet of a normalised text *)

Lemma plain_char_alphabet (c : char) :
plain_char c = true -> existsb (N.eqb c) NORMAL_ALPHABET = true.
Proof.
intros H. destruct (N.ltb_spec c 128) as [Hc | Hc].
- assert (Hall : forallb (fun n => implb (plain_char (N.of_nat n))
                   (existsb (N.eqb (N.of_nat n)) NORMAL_ALPHABET))
                   (seq 0 128) = true) by (vm_compute; reflexivity).
  rewrite forallb_forall in Hall.
  specialize (Hall (N.to_nat c)). rewrite N2Nat.id, H in Hall.
  apply Hall. apply in_seq. lia.
- exfalso. revert H. unfold plain_char, word_char, allowed_char.
  change (codes ":,_-.!?@#$%") with [58; 44; 95; 45; 46; 33; 63; 64; 35; 36; 37].
  unfold is_ascii_lower, is_ascii_digit, in_range. cbn [existsb].
  set (sp := is_space c). set (lt := is_leet_source c).
  assert (Hgtb : forall y : N, y < 128 -> (c <=? y) = false)
    by (intros; apply N.leb_gt; lia).
  assert (Hneq : forall y : N, y < 128 -> (c =? y) = false)
    by (intros; apply N.eqb_neq; lia).
  rewrite !Hgtb, !Hneq by lia. rewrite !andb_false_r. cbn [orb].
  rewrite orb_false_r. destruct sp; discriminate.
Qed.

(** ** Single spaces *)

Lemma single_spaced_from_word (w s : str) (b : bool) :
forallb (fun c => negb (is_space c)) w = true -> w <> [] ->
single_spaced_from b (w ++ s) = single_spaced_from false s.
Proof.
revert b. induction w as [|a w IH]; intros b Hw Hne; [contradiction|].
cbn [forallb] in Hw. apply andb_prop in Hw. destruct Hw as [Ha Hw].
cbn [app single_spaced_from].
destruct (N.eqb_spec a 32) as [-> | _]; [discriminate|].
destruct w as [|a' w']; [reflexivity|].
apply IH; [assumption | discriminate].
Qed.

Lemma join_single_spaced (l : list str) :
words_ok l -> l <> [] -> single_spaced_from true (join (codes " ") l) = true.
Proof.
intros Hl. induction Hl as [|w l [Hne Hw] Hl IH]; intros Hnn;
  [now contradiction Hnn|]. clear Hnn.
destruct l as [|w2 rest].
- cbn [join]. rewrite <- (app_nil_r w).
  now rewrite single_spaced_from_word.
- change (join (codes " ") (w :: w2 :: rest))
    with (w ++ 32 :: join (codes " ") (w2 :: rest)).
  rewrite single_spaced_from_word by assumption.
  cbn [single_spaced_from N.eqb Pos.eqb negb andb].
  apply IH. discriminate.
Qed.

Section NormalizeMore.
Context {L : TextLibs}.

(** X14.  Whatever the input and whatever the text libraries do, the
    result holds only the characters [a-z 2 6 8 9 : , _ - . ? # %] and the
    space (never a capital, never one of [0 1 3 4 5 7 ! $ @]), has no
    space at either end and no two spaces in a row. *)
Theorem normalize_text_output_shape (x : pyval) :
forallb (fun c => existsb (N.eqb c) NORMAL_ALPHABET) (normalize_text x) = true
/\ single_spaced (normalize_text x) = true.
Proof.
split.
- apply forallb_forall. intros c Hc. apply plain_char_alphabet.
  exact (proj1 (forallb_forall _ _) (normalize_text_plain x) c Hc).
- destruct (normalize_text_shape x) as (l & -> & Hl & _).
  unfold single_spaced. destruct l as [|w rest]; [reflexivity|].
  destruct (join (codes " ") (w :: rest)) eqn:E; [reflexivity|].
  rewrite <- E. apply join_single_spaced; [assumption | discriminate].
Qed.
End NormalizeMore.

(** ** Collapsing runs, word by word *)

Lemma collapse_runs_in (s : str) (prev : option char) (n : nat) (c : char) :
In c (collapse_runs prev n s) -> In c s.
Proof.
revert prev n. induction s as [|a s IH]; intros prev n H; [exact H|].
cbn [collapse_runs] in H. destruct prev as [p|].
- destruct (a =? p).
  + destruct ((2 <=? n)%nat && negb (a =? 10)).
    * right. eapply IH. exact H.
    * destruct H as [<- | H]; [now left | right; eapply IH; exact H].
  + destruct H as [<- | H]; [now left | right; eapply IH; exact H].
- destruct H as [<- | H]; [now left | right; eapply IH; exact H].
Qed.

Lemma collapse_runs_word_break (w s : str) (c : char) :
forallb (fun c => negb (is_space c)) w = true -> is_space c = false ->
forall prev n, (forall p, prev = Some p -> is_space p = false) ->
collapse_runs prev n (w ++ 32 :: c :: s)
= collapse_runs prev n w ++ 32 :: collapse_repeats (c :: s).
Proof.
intros Hw Hc. induction w as [|a w IH]; intros prev n Hprev.
- cbn [app collapse_runs]. unfold collapse_repeats. cbn [collapse_runs].
  assert (Hc32 : (c =? 32) = false).
  { apply N.eqb_neq. intros ->. discriminate. }
  destruct prev as [p|].
  + assert (H32 : (32 =? p) = false).
    { apply N.eqb_neq. intros <-. specialize (Hprev _ eq_refl).
      discriminate. }
    rewrite H32, Hc32. reflexivity.
  + rewrite Hc32. reflexivity.
- cbn [forallb] in Hw. apply andb_prop in Hw. destruct Hw as [Ha Hw].
  apply negb_true_iff in Ha. specialize (IH Hw).
  cbn [app collapse_runs]. destruct prev as [p|].
  + destruct (a =? p) eqn:Eap.
    * destruct ((2 <=? n)%nat && negb (a =? 10));
        rewrite IH by assumption; reflexivity.
    * rewrite IH; [reflexivity|]. intros q Hq. inversion Hq; now subst.
  + rewrite IH; [reflexivity|]. intros q Hq. inversion Hq; now subst.
Qed.

Lemma collapse_repeats_join (l : list str) :
words_ok l ->
collapse_repeats (join (codes " ") l)
= join (codes " ") (map collapse_repeats l).
Proof.
intros Hl. induction Hl as [|w l [Hne Hw] Hl IH]; [reflexivity|].
destruct l as [|w2 rest]; [reflexivity|].
change (join (codes " ") (w :: w2 :: rest))
  with (w ++ 32 :: join (codes " ") (w2 :: rest)).
change (join (codes " ") (map collapse_repeats (w :: w2 :: rest)))
  with (collapse_repeats w ++
        32 :: join (codes " ") (map collapse_repeats (w2 :: rest))).
rewrite <- IH.
inversion Hl as [|? ? [Hne2 Hw2] _]; subst.
destruct w2 as [|c w2']; [contradiction|].
assert (Hs : exists s, join (codes " ") ((c :: w2') :: rest) = c :: s).
{ destruct rest; cbn [join app]; eauto. }
destruct Hs as (s & ->).
cbn [forallb] in Hw2. apply andb_prop in Hw2. destruct Hw2 as [Hc _].
apply negb_true_iff in Hc.
unfold collapse_repeats at 1.
apply collapse_runs_word_break; [assumption | assumption | discriminate].
Qed.

Lemma collapse_repeats_word (P : char -> bool) (w : str) :
w <> [] -> forallb P w = true ->
collapse_repeats w <> [] /\ forallb P (collapse_repeats w) = true.
Proof.
intros Hne Hw. split.
- destruct w; [contradiction | discriminate].
- apply forallb_forall. intros c Hc. apply collapse_runs_in in Hc.
  exact (proj1 (forallb_forall _ _) Hw c Hc).
Qed.

(** ** A collapsed text has no run left *)

Lemma has_triple_other (p c : char) (k : nat) (s : str) :
p <> c -> (k <= 2)%nat ->
has_triple (repeat p k ++ c :: s) = has_triple (c :: s).
Proof.
intros Hpc Hk.
assert (Hcp : (p =? c) = false) by now apply N.eqb_neq.
destruct k as [|[|[|k]]]; [reflexivity | | | lia];
  destruct s as [|d s]; cbn [repeat app has_triple];
  rewrite ?N.eqb_refl, ?Hcp; cbn [andb orb]; reflexivity.
Qed.

Lemma collapse_runs_has_no_triple (s : str) :
~ In 10 s -> forall p n,
has_triple (repeat p (Nat.min n 2) ++ collapse_runs (Some p) n s) = false.
Proof.
induction s as [|c s IH]; intros Hnl p n.
- cbn [collapse_runs]. rewrite app_nil_r.
  destruct n as [|[|n]]; [reflexivity | reflexivity|].
  replace (Nat.min (S (S n)) 2) with 2%nat by lia. reflexivity.
- assert (Hc : (c =? 10) = false).
  { apply N.eqb_neq. intros ->. apply Hnl. now left. }
  assert (Hs : ~ In 10 s) by (intros H; apply Hnl; now right).
  cbn [collapse_runs]. rewrite Hc. cbn [negb]. rewrite andb_true_r.
  destruct (N.eqb_spec c p) as [-> | Hcp].
  + destruct (Nat.leb_spec 2 n) as [Hn | Hn].
    * specialize (IH Hs p (S n)).
      now replace (Nat.min (S n) 2) with (Nat.min n 2) in IH by lia.
    * specialize (IH Hs p (S n)).
      replace (Nat.min (S n) 2) with (S (Nat.min n 2)) in IH by lia.
      rewrite <- IH. f_equal.
      change (p :: collapse_runs (Some p) (S n) s)
        with ([p] ++ collapse_runs (Some p) (S n) s).
      rewrite app_assoc. f_equal.
      change [p] with (repeat p 1). rewrite <- repeat_app.
      now rewrite Nat.add_1_r.
  + rewrite has_triple_other by (try lia; congruence).
    exact (IH Hs c 1%nat).
Qed.

Lemma collapse_repeats_has_no_triple (s : str) :
~ In 10 s -> has_triple (collapse_repeats s) = false.
Proof.
intros Hnl. unfold collapse_repeats. destruct s as [|c s]; [reflexivity|].
cbn [collapse_runs].
apply (collapse_runs_has_no_triple s (fun H => Hnl (or_intror H)) c 1%nat).
Qed.

Section TwoPasses.
Context {L : TextLibs}.

Lemma normalize_text_again (x : pyval) :
plain_stable L ->
normalize_text (PyStr (normalize_text x))
= collapse_repeats (normalize_text x).
Proof.
intros HL.
pose proof (normalize_text_plain x) as Hplain.
destruct (normalize_text_shape x) as (l & Hy & Hl & Hwc).
set (y := normalize_text x) in *.
assert (Hz : collapse_repeats y
             = join (codes " ") (map collapse_repeats l)).
{ rewrite Hy. now apply collapse_repeats_join. }
assert (Hl' : words_ok (map collapse_repeats l) /\
              Forall (fun w => forallb plain_char w = true)
                     (map collapse_repeats l)).
{ clear Hy Hz. unfold words_ok in *.
  induction Hl as [|w l [Hne Hw] Hl IH]; [split; constructor|].
  inversion Hwc as [|? ? Hwc1 Hwc2]; subst.
  destruct (IH Hwc2) as [IH1 IH2]. cbn [map]. split; constructor;
    try assumption.
  - split; [apply (collapse_repeats_word _ w Hne Hw)|].
    apply (collapse_repeats_word _ w Hne Hw).
  - apply (collapse_repeats_word plain_char w Hne).
    apply forallb_forall. intros c Hc. unfold plain_char.
    now rewrite (proj1 (forallb_forall _ _) Hwc1 c Hc). }
destruct Hl' as [Hwords Hplainw].
assert (Hzplain : forallb plain_char (collapse_repeats y) = true).
{ rewrite Hz. apply join_forallb; [reflexivity | assumption]. }
unfold normalize_text at 1. cbn [py_str].
rewrite (fix_text_plain L HL y Hplain).
rewrite (nfkc_plain L HL y Hplain).
rewrite (proj1 (translate_plain y Hplain)).
rewrite (lower_plain L HL y Hplain).
rewrite (replace_emoji_plain L HL _ Hzplain).
rewrite (proj2 (translate_plain _ Hzplain)).
rewrite (blank_disallowed_plain _ Hzplain).
rewrite Hz. now rewrite split_ws_join.
Qed.

Lemma normalize_text_no_newline (x : pyval) : ~ In 10 (normalize_text x).
Proof.
intros H.
pose proof (proj1 (forallb_forall _ _) (normalize_text_plain x) 10 H) as Hp.
discriminate.
Qed.

(** X15.  When the libraries leave plain text alone, a second pass only
    collapses the runs the first pass left behind, and the text is stable
    from then on: normalising settles after at most two passes. *)
Theorem normalize_text_settles_in_two_passes (x : pyval) :
plain_stable L ->
normalize_text (PyStr (normalize_text x))
= collapse_repeats (normalize_text x) /\
normalize_text (PyStr (normalize_text (PyStr (normalize_text x))))
= normalize_text (PyStr (normalize_text x)).
Proof.
intros HL. split; [now apply normalize_text_again|].
rewrite (normalize_text_again (PyStr (normalize_text x)) HL).
apply collapse_repeats_no_triple.
rewrite (normalize_text_again x HL).
apply collapse_repeats_has_no_triple, normalize_text_no_newline.
Qed.
End TwoPasses.

Lemma normalize_text_settles_in_two_passes_witness :
@normalize_text plain_ascii_libs
  (PyStr (@normalize_text plain_ascii_libs (PyStr text_leet_run)))
= collapse_repeats (@normalize_text plain_ascii_libs (PyStr text_leet_run)) /\
@normalize_text plain_ascii_libs
  (PyStr (@normalize_text plain_ascii_libs
     (PyStr (@normalize_text plain_ascii_libs (PyStr text_leet_run)))))
= @normalize_text plain_ascii_libs
    (PyStr (@normalize_text plain_ascii_libs (PyStr text_leet_run))).
Proof.
apply (@normalize_text_settles_in_two_passes plain_ascii_libs
         (PyStr text_leet_run) plain_ascii_libs_stable).
Defined.

(* ================================================================== *)
(** * Further properties of the redactor: order of the hits *)
(* ================================================================== *)

Lemma sorted_perm_unique (l1 l2 : list hit) :
StronglySorted (fun a b => (hit_start a <= hit_start b)%Z) l1 ->
StronglySorted (fun a b => (hit_start a <= hit_start b)%Z) l2 ->
Permutation l1 l2 -> NoDup (map hit_start l1) -> l1 = l2.
Proof.
revert l2. induction l1 as [|a l1 IH]; intros l2 S1 S2 Hp Hn.
- apply Permutation_nil in Hp. now subst.
- destruct l2 as [|b l2].
  + apply Permutation_sym, Permutation_nil in Hp. discriminate.
  + inversion S1 as [|? ? S1' F1]; subst.
    inversion S2 as [|? ? S2' F2]; subst.
    inversion Hn as [|? ? Hnotin Hn']; subst.
    assert (Hab : a = b).
    { assert (Hb : In b (a :: l1)).
      { eapply Permutation_in; [apply Permutation_sym; exact Hp | now left]. }
      destruct Hb as [Hb | Hb]; [assumption|].
      assert (Ha : In a (b :: l2))
        by (eapply Permutation_in; [exact Hp | now left]).
      destruct Ha as [Ha | Ha]; [now symmetry|].
      exfalso. apply Hnotin.
      rewrite Forall_forall in F1, F2.
      specialize (F1 _ Hb). specialize (F2 _ Ha).
      replace (hit_start a) with (hit_start b) by lia.
      now apply in_map. }
    subst b. f_equal. apply IH; try assumption.
    eapply Permutation_cons_inv. exact Hp.
Qed.

Section RedactOrder.
Context {U : Unicode}.

(** X16.  The order in which the hits are given does not matter as long
    as no two of them start at the same offset: the sort by start offset
    puts them in one order. *)
Theorem redact_ignores_order_of_hits (text : str) (hits hits' : list hit) :
Permutation hits hits' -> NoDup (map hit_start hits) ->
redact text hits = redact text hits'.
Proof.
intros Hp Hn. rewrite !redact_weave.
assert (Hs : sorted_by_start hits = sorted_by_start hits').
{ apply sorted_perm_unique; try apply sorted_by_start_sorted.
  - eapply Permutation_trans; [apply sorted_by_start_perm|].
    eapply Permutation_trans; [exact Hp|].
    apply Permutation_sym, sorted_by_start_perm.
  - eapply Permutation_NoDup; [|exact Hn].
    apply Permutation_map, Permutation_sym, sorted_by_start_perm. }
now rewrite Hs.
Qed.
End RedactOrder.

Lemma redact_ignores_order_of_hits_witness :
@redact ascii_only text_email_card hits_email_card
= @redact ascii_only text_email_card (rev hits_email_card).
Proof.
apply (@redact_ignores_order_of_hits ascii_only text_email_card
         hits_email_card (rev hits_email_card)).
- apply Permutation_rev.
- cbn. repeat constructor; cbn; intuition discriminate.
Defined.

(* ================================================================== *)
(** * Further properties of the checksum *)
(* ================================================================== *)

Section LuhnSwap.
Context {U : Unicode}.

(** X17.  The checksum catches two neighbouring digits typed in the
    wrong order, unless their values are equal or are 0 and 9.  The
    digits are the decimal digits of any script. *)
Theorem _luhn_ok_rejects_swapped_neighbours (u v : str) (a b : char) :
decimal_values U -> is_digit a = true -> is_digit b = true ->
int_of_digit a <> int_of_digit b ->
~ (int_of_digit a = 0 /\ int_of_digit b = 9)%Z ->
~ (int_of_digit a = 9 /\ int_of_digit b = 0)%Z ->
_luhn_ok (u ++ a :: b :: v) = true -> _luhn_ok (u ++ b :: a :: v) = false.
Proof.
intros HU Da Db Hne Hn09 Hn90.
pose proof (digit_value_range a HU Da) as Ra.
pose proof (digit_value_range b HU Db) as Rb.
rewrite !_luhn_ok_spec.
change (u ++ a :: b :: v) with (u ++ a :: [b] ++ v).
change (u ++ b :: a :: v) with (u ++ b :: [a] ++ v).
rewrite !digits_only_insert, !digits_only_app by assumption.
assert (E1 : digits_only [a] = [a]) by (unfold digits_only; cbn; now rewrite Da).
assert (E2 : digits_only [b] = [b]) by (unfold digits_only; cbn; now rewrite Db).
rewrite E1, E2. cbn [app].
rewrite !length_app. cbn [length].
destruct ((13 <=? length (digits_only u) + S (S (length (digits_only v))))%nat
          && (length (digits_only u) + S (S (length (digits_only v)))
              <=? 19)%nat);
  cbn [andb]; [|discriminate].
unfold luhn_passes. rewrite !map_app. cbn [map]. rewrite !rev_app_distr.
cbn [rev]. rewrite <- !app_assoc. cbn [app].
rewrite !luhn_sum_app. cbn [luhn_sum].
set (x := luhn_sum (rev (map int_of_digit (digits_only v))) false).
set (par := if Nat.even (length (rev (map int_of_digit (digits_only v))))
            then false else negb false).
set (y := luhn_sum (rev (map int_of_digit (digits_only u)))
            (negb (negb par))).
intros H1. apply Z.eqb_eq in H1. apply Z.eqb_neq. intros H2.
apply Z.mod_divide in H1; [|lia]. apply Z.mod_divide in H2; [|lia].
destruct H1 as [q1 H1], H2 as [q2 H2].
destruct par; cbn [negb] in H1, H2;
  destruct (Z.gtb_spec (2 * int_of_digit a) 9),
           (Z.gtb_spec (2 * int_of_digit b) 9); lia.
Qed.
End LuhnSwap.

Lemma _luhn_ok_rejects_swapped_neighbours_witness :
@_luhn_ok ascii_and_arabic_indic
  (codes "4539" ++ 49 :: 1636 :: codes "8803436467") = true /\
@_luhn_ok ascii_and_arabic_indic
  (codes "4539" ++ 1636 :: 49 :: codes "8803436467") = false.
Proof.
split; [vm_compute; reflexivity|].
apply (@_luhn_ok_rejects_swapped_neighbours ascii_and_arabic_indic
         (codes "4539") (codes "8803436467") 49 1636).
- exact arabic_indic_decimal_values.
- reflexivity.
- reflexivity.
- vm_compute. discriminate.
- vm_compute. intros [H _]. discriminate.
- vm_compute. intros [H _]. discriminate.
- vm_compute. reflexivity.
Defined.

(* ================================================================== *)
(** * Further properties of the scoring function and the results table *)
(* ================================================================== *)

Section OverrideResults.
Context {U : Unicode}.

Lemma apply_overrides_results (text : str) (prob : float) (t : tier) :
apply_overrides text prob t = (0.01%float, "OVERRIDE_SAFE"%string) \/
apply_overrides text prob t = (0.99%float, "OVERRIDE_TOXIC"%string) \/
apply_overrides text prob t = (prob, t).
Proof.
unfold apply_overrides.
destruct (any_match META_PATTERNS text); [auto|].
destruct (any_match BLOCKLIST_PATTERNS text); [auto|].
destruct (existsb (String.eqb t) ["MEDIUM"%string; "HIGH"%string]
          && any_match GENERAL_SAFELIST_PATTERNS text); auto.
Qed.
End OverrideResults.

Lemma initial_tier_names (A : artifacts) (p : float) :
In (initial_tier A p) ["HIGH"; "MEDIUM"; "LOW"; "VERY_LOW"]%string.
Proof.
unfold initial_tier.
destruct (high (POLICY A) <=? p)%float; [cbn; auto|].
destruct (medium (POLICY A) <=? p)%float; [cbn; auto|].
destruct (low (POLICY A) <=? p)%float; cbn; auto.
Qed.

(** ** Stripping and splitting *)

Lemma lstrip_in (s : str) (c : char) : In c (lstrip s) -> In c s.
Proof.
induction s as [|a s IH]; [trivial|]. cbn [lstrip].
destruct (is_space a); [intros H; right; now apply IH | trivial].
Qed.

Lemma lstrip_head (s : str) (a : char) (rest : str) :
lstrip s = a :: rest -> is_space a = false.
Proof.
induction s as [|b s IH]; [discriminate|]. cbn [lstrip].
destruct (is_space b) eqn:E; [exact IH|].
intros H. inversion H; now subst.
Qed.

Lemma strip_in (s : str) (c : char) : In c (strip s) -> In c s.
Proof.
unfold strip, rstrip. intros H. apply in_rev in H.
apply lstrip_in in H. apply in_rev in H. now apply lstrip_in in H.
Qed.

Lemma strip_not_blank (s : str) : strip s <> [] -> is_blank (strip s) = false.
Proof.
unfold strip, rstrip. set (t := lstrip s).
destruct (lstrip (rev t)) as [|a rest] eqn:E; [intros H; now contradiction H|].
intros _. apply lstrip_head in E. cbn [rev]. unfold is_blank.
rewrite forallb_app. cbn [forallb]. rewrite E. apply andb_false_r.
Qed.

(** [strip] is empty exactly on the texts [is_blank] accepts. *)
Lemma strip_blank (s : str) : strip s = [] <-> is_blank s = true.
Proof.
assert (Hl : forall t, lstrip t = [] <-> forallb is_space t = true).
{ induction t as [|a t IH]; cbn [lstrip forallb]; [tauto|].
  destruct (is_space a); cbn [andb]; [exact IH|].
  split; discriminate. }
unfold strip, rstrip, is_blank. split.
- intros H. apply (f_equal (@rev char)) in H.
  rewrite rev_involutive in H. cbn [rev] in H.
  apply Hl in H. rewrite forallb_forall in H.
  destruct (lstrip s) as [|a rest] eqn:E.
  + now apply Hl.
  + exfalso. apply lstrip_head in E.
    specialize (H a). rewrite E in H.
    assert (In a (rev (a :: rest))) by (apply in_rev; rewrite rev_involutive; now left).
    specialize (H H0). discriminate.
- intros H. apply Hl in H. rewrite H. reflexivity.
Qed.

Lemma split_on_no_sep (sep : char) (s w : str) :
In w (split_on sep s) -> ~ In sep w.
Proof.
revert w. induction s as [|c s IH]; intros w H.
- destruct H as [<- | []]. intros [].
- cbn [split_on] in H. destruct (N.eqb_spec c sep) as [-> | Hc].
  + destruct H as [<- | H]; [intros [] | now apply IH].
  + destruct (split_on sep s) as [|w0 ws].
    * destruct H as [<- | []]. intros [H | []]. contradiction.
    * destruct H as [<- | H].
      -- intros [H | H]; [contradiction|].
         revert H. apply IH. now left.
      -- apply IH. now right.
Qed.

Section AppMore.
Context {U : Unicode} {L : TextLibs}.
Context (phonenumbers : option (str -> option str)).
Context (ARTIFACTS : artifacts).

Lemma score_tier_names (v : pyval) :
In (score_tier (fst (score_comment_cascade phonenumbers ARTIFACTS v)))
   (map fst TIER_COLOURS).
Proof.
assert (Hdef : In "VERY_LOW"%string (map fst TIER_COLOURS))
  by (cbn; auto 10).
destruct v as [raw | | |]; try exact Hdef.
destruct (is_blank raw) eqn:Eb.
- unfold score_comment_cascade. rewrite Eb. exact Hdef.
- destruct (score_comment_cascade_unfold phonenumbers ARTIFACTS raw Eb)
    as (_ & _ & H).
  set (p := fst (fst (cascade_probability ARTIFACTS
                        (normalize_text (PyStr raw))))) in H.
  destruct (apply_overrides_results raw p (initial_tier ARTIFACTS p))
    as [E | [E | E]]; rewrite E in H;
    apply (f_equal snd) in H; cbn [snd] in H; rewrite H.
  + cbn; auto 10.
  + cbn; auto 10.
  + pose proof (initial_tier_names ARTIFACTS p) as Hn.
    cbn in Hn |- *. intuition auto.
Qed.

(** X18.  Every tier the scoring function can return is a key of the
    colour table of the results table, so the fallback colour ["grey"]
    is never used. *)
Theorem displayed_tier_has_a_colour (v : pyval) :
exists colour,
  In (score_tier (fst (score_comment_cascade phonenumbers ARTIFACTS v)),
      colour) TIER_COLOURS /\
  style_tier (score_tier (fst (score_comment_cascade phonenumbers
                                 ARTIFACTS v)))
  = style_of_colour colour.
Proof.
pose proof (score_tier_names v) as H.
set (t := score_tier _) in *. unfold style_tier.
cbn [map fst TIER_COLOURS] in H.
repeat (destruct H as [<- | H];
        [eexists; split; [|reflexivity]; cbn; auto 10|]).
destruct H.
Qed.

(** X19.  For a comment that is scored, the tier returned agrees with the
    probability returned: either a rule forced both (0.99 with
    OVERRIDE_TOXIC, 0.01 with OVERRIDE_SAFE), or the tier is the one the
    policy thresholds give to the returned probability. *)
Theorem score_tier_agrees_with_probability (raw : str) :
is_blank raw = false ->
(score_tier (fst (score_comment_cascade phonenumbers ARTIFACTS (PyStr raw)))
 = "OVERRIDE_TOXIC"%string /\
 prob_final (fst (score_comment_cascade phonenumbers ARTIFACTS (PyStr raw)))
 = 0.99%float) \/
(score_tier (fst (score_comment_cascade phonenumbers ARTIFACTS (PyStr raw)))
 = "OVERRIDE_SAFE"%string /\
 prob_final (fst (score_comment_cascade phonenumbers ARTIFACTS (PyStr raw)))
 = 0.01%float) \/
score_tier (fst (score_comment_cascade phonenumbers ARTIFACTS (PyStr raw)))
= initial_tier ARTIFACTS
    (prob_final (fst (score_comment_cascade phonenumbers ARTIFACTS
                        (PyStr raw)))).
Proof.
intros Eb.
destruct (score_comment_cascade_unfold phonenumbers ARTIFACTS raw Eb)
  as (_ & _ & H).
set (p := fst (fst (cascade_probability ARTIFACTS
                      (normalize_text (PyStr raw))))) in H.
destruct (apply_overrides_results raw p (initial_tier ARTIFACTS p))
  as [E | [E | E]]; rewrite E in H;
  pose proof (f_equal fst H) as Hp; pose proof (f_equal snd H) as Ht;
  cbn [fst snd] in Hp, Ht.
- right. left. auto.
- left. auto.
- right. right. rewrite Ht, Hp. reflexivity.
Qed.

(** X20.  Every comment the page hands to the scoring function is a
    line of the input without its surrounding whitespace, holds a
    character that is not whitespace and no newline, so none of them
    takes the blank-input shortcut: each reaches the baseline
    classifier. *)
Theorem ui_comments_are_scored (input_text c : str) :
In c (ui_comments input_text) ->
(exists line, In line (split_on 10 input_text) /\ c = strip line) /\
is_blank c = false /\ ~ In 10 c /\
exists more,
  snd (score_comment_cascade phonenumbers ARTIFACTS (PyStr c))
  = BaselineCall (normalize_text (PyStr c)) :: more.
Proof.
unfold ui_comments. intros H. apply in_flat_map in H.
destruct H as (line & Hline & Hc).
assert (Hs : c = strip line /\ strip line <> []).
{ destruct (strip line) as [|a rest]; [destruct Hc|].
  destruct Hc as [<- | []]. split; [reflexivity | discriminate]. }
destruct Hs as [-> Hne].
assert (Hb : is_blank (strip line) = false) by now apply strip_not_blank.
split; [eauto|]. split; [exact Hb|]. split.
- intros Hin. apply strip_in in Hin.
  exact (split_on_no_sep 10 input_text line Hline Hin).
- destruct (score_comment_cascade_unfold phonenumbers ARTIFACTS _ Hb)
    as (Hcalls & _). rewrite Hcalls.
  destruct (cascade_probability_cases ARTIFACTS
              (normalize_text (PyStr (strip line))))
    as [(_ & stage & _ & ->) | (_ & ->)]; cbn [snd]; eauto.
Qed.
End AppMore.

Lemma score_tier_agrees_with_probability_witness :
score_tier (fst (@score_comment_cascade ascii_only plain_ascii_libs None
                   (fixture_artifacts 0.3%float) (PyStr text_plain)))
= initial_tier (fixture_artifacts 0.3%float)
    (prob_final (fst (@score_comment_cascade ascii_only plain_ascii_libs None
                        (fixture_artifacts 0.3%float) (PyStr text_plain)))).
Proof.
destruct (@score_tier_agrees_with_probability ascii_only plain_ascii_libs
            None (fixture_artifacts 0.3%float) text_plain eq_refl)
  as [[H _] | [[H _] | H]].
- vm_compute in H. discriminate.
- vm_compute in H. discriminate.
- exact H.
Defined.

Lemma ui_comments_are_scored_witness :
ui_comments text_area_input
= [codes "Have a nice day!"; codes "you killed my plant"] /\
is_blank (codes "you killed my plant") = false.
Proof.
split; [vm_compute; reflexivity|].
apply (@ui_comments_are_scored ascii_only plain_ascii_libs None
         (fixture_artifacts 0.3%float) text_area_input
         (codes "you killed my plant")).
vm_compute. right. left. reflexivity.
Defined.

(* ================================================================== *)
(** * The meta-discussion rule and the blocklist *)
(* ================================================================== *)

Section MetaBlocklist.
Context {U : Unicode}.

Lemma matches_cursor_after (r : regex) (c1 c2 : cursor) :
matches r c1 c2 ->
forall prev pos pre rest, c1 = cursor_after prev pos pre rest ->
exists w rest2, rest = w ++ rest2 /\
                c2 = cursor_after prev pos (pre ++ w) rest2.
Proof.
assert (Hstop : forall c prev pos pre rest,
          c = cursor_after prev pos pre rest ->
          exists w rest2, rest = w ++ rest2 /\
                          c = cursor_after prev pos (pre ++ w) rest2).
{ intros c prev pos pre rest ->. exists [], rest.
  now rewrite app_nil_r. }
assert (Hstep : forall a b c : cursor,
  (forall prev pos pre rest, a = cursor_after prev pos pre rest ->
     exists w rest2, rest = w ++ rest2 /\
                     b = cursor_after prev pos (pre ++ w) rest2) ->
  (forall prev pos pre rest, b = cursor_after prev pos pre rest ->
     exists w rest2, rest = w ++ rest2 /\
                     c = cursor_after prev pos (pre ++ w) rest2) ->
  forall prev pos pre rest, a = cursor_after prev pos pre rest ->
  exists w rest2, rest = w ++ rest2 /\
                  c = cursor_after prev pos (pre ++ w) rest2).
{ intros a b c H1 H2 prev pos pre rest E.
  destruct (H1 _ _ _ _ E) as (w1 & r1 & -> & E1).
  destruct (H2 _ _ _ _ E1) as (w2 & r2 & -> & E2).
  exists (w1 ++ w2), r2. now rewrite <- !app_assoc in *. }
induction 1; try (now apply Hstop);
  try (eapply Hstep; eassumption);
  try assumption.
intros prev pos pre rest ->. unfold advance, cursor_after in H.
cbn [cur_rest cur_pos] in H. destruct rest as [|x rest]; [discriminate|].
inversion H; subst. exists [ch], rest. split; [reflexivity|].
unfold cursor_after. rewrite fold_left_app, length_app. cbn.
f_equal. lia.
Qed.

Lemma space_not_word (ch : char) :
unicode_facts U -> is_space ch = true -> is_word ch = false.
Proof.
intros (Hsp & _) H. destruct (N.ltb_spec ch 128) as [Hc | Hc].
- assert (Hall : forallb (fun n => implb (is_space (N.of_nat n))
                                     (negb (is_word (N.of_nat n))))
                   (seq 0 128) = true) by (vm_compute; reflexivity).
  rewrite forallb_forall in Hall. specialize (Hall (N.to_nat ch)).
  rewrite N2Nat.id, H in Hall. apply negb_true_iff, Hall, in_seq. lia.
- unfold is_word. replace (ch <? 128) with false
    by (symmetry; apply N.ltb_ge; lia).
  now apply Hsp.
Qed.

Lemma folded_initial_is_word (x ch : char) :
unicode_facts U -> In x [98; 102; 105; 115] ->
class_matches (CFold (CLit x)) ch = true -> is_word ch = true.
Proof.
intros (_ & H304 & H305 & H383) Hx H.
destruct (N.ltb_spec ch 128) as [Hc | Hc].
- assert (Hall : forallb (fun n => forallb (fun y =>
                     implb (class_matches (CFold (CLit y)) (N.of_nat n))
                           (is_word (N.of_nat n))) [98; 102; 105; 115])
                   (seq 0 128) = true) by (vm_compute; reflexivity).
  rewrite forallb_forall in Hall. specialize (Hall (N.to_nat ch)).
  rewrite N2Nat.id in Hall.
  assert (Hin : In (N.to_nat ch) (seq 0 128)) by (apply in_seq; lia).
  specialize (Hall Hin). rewrite forallb_forall in Hall.
  specialize (Hall x Hx). now rewrite H in Hall.
- unfold is_word. replace (ch <? 128) with false
    by (symmetry; apply N.ltb_ge; lia).
  cbn [class_matches] in H. unfold case_closure, ascii_lower, ascii_upper,
    is_ascii_upper, is_ascii_lower, in_range in H.
  replace (ch <=? 90) with false in H by (symmetry; apply N.leb_gt; lia).
  replace (ch <=? 122) with false in H by (symmetry; apply N.leb_gt; lia).
  rewrite !andb_false_r in H.
  assert (Hne : (ch =? x) = false).
  { apply N.eqb_neq. intros ->. cbn in Hx.
    destruct Hx as [<- | [<- | [<- | [<- | []]]]]; lia. }
  cbn [existsb class_matches] in H. rewrite Hne in H. cbn [orb] in H.
  destruct (N.eqb_spec ch 304) as [-> | _]; [exact H304|].
  destruct (N.eqb_spec ch 305) as [-> | _]; [exact H305|].
  cbn [orb] in H.
  destruct (N.eqb_spec ch 383) as [-> | _]; [exact H383|].
  destruct (N.eqb_spec ch 8490) as [-> | _]; cbn [existsb class_matches] in H.
  + exfalso. cbn in Hx.
    destruct Hx as [<- | [<- | [<- | [<- | []]]]]; discriminate.
  + discriminate.
Qed.

Lemma ci_initial (x : char) (r : regex) (c2 c3 : cursor) :
unicode_facts U -> In x [98; 102; 105; 115] ->
matches (Cat (Chr (CFold (CLit x))) r) c2 c3 -> word_after c2 = true.
Proof.
intros HU Hx H. apply matches_Cat_inv in H. destruct H as (c & H & _).
inversion H; subst. unfold advance in *. unfold word_after.
destruct (cur_rest c2) as [|y rest]; [discriminate|].
match goal with E : Some _ = Some _ |- _ => inversion E; subst end.
eapply folded_initial_is_word; eassumption.
Qed.

Lemma profanity_in_blocklist : In PROFANITY_PATTERN BLOCKLIST_PATTERNS.
Proof.
unfold BLOCKLIST_PATTERNS. apply in_or_app. right.
apply in_or_app. right. apply in_or_app. left.
right. left. reflexivity.
Qed.

(** X21.  The meta-discussion rule is purely an exception to the
    blocklist: every text it matches is a text the blocklist matches
    too (the four words of the rule are all in the profanity pattern), so
    the rule never marks as safe a comment that the blocklist would not
    otherwise have marked as toxic. *)
Theorem meta_match_is_a_blocklist_match (text : str) :
unicode_facts U ->
matches_some META_PATTERNS text -> matches_some BLOCKLIST_PATTERNS text.
Proof.
intros HU Hm. apply matches_some_spec in Hm. apply matches_some_spec.
apply Exists_exists. exists PROFANITY_PATTERN.
split; [exact profanity_in_blocklist|].
unfold META_PATTERNS in Hm.
inversion Hm as [r l Hocc | r l Hex]; subst; [|inversion Hex].
destruct Hocc as (pre & rest & e & Ht & Hmatch).
cbn [cat] in Hmatch.
apply matches_Cat_inv in Hmatch. destruct Hmatch as (c0 & Hw0 & H).
apply matches_WordB_inv in Hw0. subst c0.
apply matches_Cat_inv in H. destruct H as (c1 & Hintro & H).
apply matches_Cat_inv in H. destruct H as (c2 & Hws & H).
apply matches_Cat_inv in H. destruct H as (c3 & Hslur & Hend).
assert (Hbefore : word_before c2 = false).
{ inversion Hws; subst. unfold advance in *.
  destruct (cur_rest c1) as [|y r1]; [discriminate|].
  match goal with E : Some _ = Some _ |- _ => inversion E; subst end.
  unfold word_before. cbn [cur_prev]. apply space_not_word; assumption. }
assert (Hafter : word_after c2 = true).
{ cbn [alt] in Hslur.
  inversion Hslur as [| | |a b x1 x2 Hb| a b x1 x2 Hr| | | | | | |]; subst.
  - let r := eval vm_compute in (ci "bitch") in
      change (ci "bitch") with r in Hb.
    eapply (ci_initial 98); [assumption | cbn; auto | exact Hb].
  - inversion Hr as [| | |a b x1 x2 Hf| a b x1 x2 Hr2| | | | | | |]; subst.
    + let r := eval vm_compute in (ci "fuck") in
        change (ci "fuck") with r in Hf.
      eapply (ci_initial 102); [assumption | cbn; auto | exact Hf].
    + inversion Hr2 as [| | |a b x1 x2 Hi| a b x1 x2 Hs| | | | | | |]; subst.
      * let r := eval vm_compute in (ci "idiot") in
          change (ci "idiot") with r in Hi.
        eapply (ci_initial 105); [assumption | cbn; auto | exact Hi].
      * let r := eval vm_compute in (ci "stupid") in
          change (ci "stupid") with r in Hs.
        eapply (ci_initial 115); [assumption | cbn; auto 6 | exact Hs]. }
assert (Hprof : matches PROFANITY_PATTERN c2 e).
{ unfold PROFANITY_PATTERN. cbn [cat].
  apply (M_Cat _ _ c2 c2 e).
  - constructor. now rewrite Hbefore, Hafter.
  - apply (M_Cat _ _ c2 c3 e); [|exact Hend].
    cbn [alt] in Hslur |- *.
    inversion Hslur as [| | |a b x1 x2 Hb| a b x1 x2 Hr| | | | | | |]; subst.
    + do 6 apply M_AltR. now apply M_AltL.
    + inversion Hr as [| | |a b x1 x2 Hf| a b x1 x2 Hr2| | | | | | |]; subst.
      * do 7 apply M_AltR. exact Hf.
      * inversion Hr2 as [| | |a b x1 x2 Hi| a b x1 x2 Hs| | | | | | |]; subst.
        -- now apply M_AltL.
        -- do 2 apply M_AltR. now apply M_AltL. }
destruct (matches_cursor_after _ _ _ (M_Cat _ _ _ _ _ Hintro Hws)
            None 0%nat pre rest eq_refl) as (w & rest2 & Hrest & Ec2).
exists (pre ++ w), rest2, e. split.
- rewrite Ht, Hrest. now rewrite <- app_assoc.
- rewrite <- Ec2. exact Hprof.
Qed.
End MetaBlocklist.

Lemma meta_match_is_a_blocklist_match_witness :
@matches_some ascii_and_folded_letters BLOCKLIST_PATTERNS
  text_meta_and_insult.
Proof.
apply (@meta_match_is_a_blocklist_match ascii_and_folded_letters
         text_meta_and_insult).
- split; [|repeat split].
  intros c Hc. cbn [uni_isalnum ascii_and_folded_letters existsb].
  destruct (N.eqb_spec c 304) as [-> | _]; [discriminate|].
  destruct (N.eqb_spec c 305) as [-> | _]; [discriminate|].
  destruct (N.eqb_spec c 383) as [-> | _]; [discriminate|].
  destruct (N.eqb_spec c 8490) as [-> | _]; [discriminate|].
  reflexivity.
- apply any_match_true. vm_compute. reflexivity.
Defined.

(* ================================================================== *)
(** * What a hit needs to be in the text *)
(* ================================================================== *)

Lemma slice_in {A} (s : list A) (a b : Z) (x : A) :
In x (slice s a b) -> In x s.
Proof.
unfold slice. intros H.
set (n := Z.to_nat (clamp_index (Z.of_nat (length s)) a)) in *.
set (k := Z.to_nat (clamp_index (Z.of_nat (length s)) b
                    - clamp_index (Z.of_nat (length s)) a)) in *.
rewrite <- (firstn_skipn n s). apply in_or_app. right.
rewrite <- (firstn_skipn k (skipn n s)). apply in_or_app. now left.
Qed.

Lemma filter_slice_length {A} (f : A -> bool) (s : list A) (a b : Z) :
(length (filter f (slice s a b)) <= length (filter f s))%nat.
Proof.
unfold slice.
set (n := Z.to_nat (clamp_index (Z.of_nat (length s)) a)).
set (k := Z.to_nat (clamp_index (Z.of_nat (length s)) b
                    - clamp_index (Z.of_nat (length s)) a)).
rewrite <- (firstn_skipn n s) at 2.
rewrite <- (firstn_skipn k (skipn n s)) at 2.
rewrite !filter_app, !length_app. lia.
Qed.

Section Evidence.
Context {U : Unicode}.
Context (phonenumbers : option (str -> option str)).

(** X22.  No hit without something to show for it in the text: an e-mail
    hit needs an [@] in the text, a card hit at least 13 digits, and a
    phone hit the [phonenumbers] module and a text of at least 7
    characters. *)
Theorem detect_pii_hits_need_evidence (text : str) (h : hit) :
In h (detect_pii phonenumbers (PyStr text)) ->
(hit_kind h = "EMAIL"%string -> In 64 text) /\
(hit_kind h = "CARD"%string -> (13 <= length (digits_only text))%nat) /\
(hit_kind h = "PHONE"%string ->
 phonenumbers <> None /\ (7 <= length text)%nat).
Proof.
intros H. apply detect_pii_in in H. destruct H as [H | [H | H]].
- apply email_hits_in in H. destruct H as (m & Hm & _ & ->).
  cbn [hit_kind]. split; [intros _ | split; discriminate].
  destruct (finditer_span _ _ _ Hm) as (_ & _ & _ & Hg & s & e & Hms & Hb).
  destruct (email_match_parts s e _ Hms Hb) as (l & d & Hparts & _).
  apply (slice_in text (fst (m_span m)) (snd (m_span m))).
  rewrite <- Hg, Hparts. apply in_or_app. right. now left.
- apply phone_hits_in in H.
  destruct H as (parse & m & value & Hp & Hm & _ & _ & ->).
  cbn [hit_kind]. split; [discriminate | split; [discriminate|]].
  intros _. split; [rewrite Hp; discriminate|].
  destruct (finditer_span _ _ _ Hm) as (H0 & Hmin & Hend & _).
  change (min_len PHONE_CANDIDATE_RE) with 7%nat in Hmin. lia.
- apply card_hits_in in H. destruct H as (m & Hm & _ & Hl & ->).
  cbn [hit_kind]. split; [discriminate | split; [|discriminate]].
  intros _. rewrite _luhn_ok_spec, digits_only_idem in Hl.
  apply andb_prop in Hl. destruct Hl as [Hl _].
  apply andb_prop in Hl. destruct Hl as [Hl _]. apply Nat.leb_le in Hl.
  destruct (finditer_span _ _ _ Hm) as (_ & _ & _ & Hg & _).
  rewrite Hg in Hl. unfold digits_only in *.
  pose proof (filter_slice_length is_digit text (fst (m_span m))
                (snd (m_span m))). lia.
Qed.
End Evidence.

Lemma detect_pii_hits_need_evidence_witness :
In 64 text_email_card /\
(13 <= length (@digits_only ascii_only text_email_card))%nat.
Proof.
split.
- apply (proj1 (@detect_pii_hits_need_evidence ascii_only None
                  text_email_card hit_email_found
                  ltac:(vm_compute; left; reflexivity))).
  reflexivity.
- apply (proj1 (proj2 (@detect_pii_hits_need_evidence ascii_only None
                  text_email_card hit_card_found
                  ltac:(vm_compute; right; left; reflexivity)))).
  reflexivity.
Defined.
